(** * A best-fit heap allocator with delayed coalescing (p3Heap.c)

    Shallow embedding of [balloc], [bfree], [coalesce], [init_heap] and of
    the block walk of [disp_heap], over a word-granular memory, together
    with the heap invariant and the properties of the block list proved
    from it. *)

From Stdlib Require Import ZArith Lia Bool List.
From stdpp Require Import base tactics option list gmap.

Open Scope Z_scope.

(** ** C [int] arithmetic

    [int] is 32 bits wide.  Values are kept in [Z]; every addition and
    subtraction of the source goes through [wrap], the two's complement
    reduction, and [%] is the truncating remainder [Z.rem]. *)

Module Int32.

Definition wrap (z : Z) : Z := (z + 2 ^ 31) mod 2 ^ 32 - 2 ^ 31.

Definition add (a b : Z) : Z := wrap (a + b).
Definition sub (a b : Z) : Z := wrap (a - b).
Definition crem (a b : Z) : Z := Z.rem a b.

End Int32.

Import Int32.

(** ** Memory and allocator state *)

(** Memory maps a byte address to the [int] stored there; the source only
    ever reads and writes whole [blockHeader] words, and on a heap that
    satisfies the invariant below all of them sit at multiples of 4, so that
    no two of them overlap.  A word that was never written reads as 0, as
    the pages mapped from /dev/zero do. *)
Abbreviation memory := (gmap Z Z).

Definition load (m : memory) (a : Z) : Z := default 0 (m !! a).
Definition store (m : memory) (a v : Z) : memory := <[a := v]> m.

Definition NULL : Z := 0.
Definition sizeof_blockHeader : Z := 4.

(** The globals [heap_start] and [alloc_size], the function-static
    [allocated_once] of [init_heap], and the memory. *)
Record heap : Type := Heap {
  heap_start : Z;
  alloc_size : Z;
  allocated_once : Z;
  mem : memory
}.

Definition set_mem (st : heap) (m : memory) : heap :=
  Heap (heap_start st) (alloc_size st) (allocated_once st) m.

(** State of the program before any call: zero-initialised globals. *)
Definition initial_heap : heap := Heap NULL 0 0 ∅.

(** ** balloc *)

(** Lines 60-64: payload plus header, padded to a multiple of 8. *)
Definition padded_block_size (size : Z) : Z :=
  let block_size := add size sizeof_blockHeader in
  if negb (crem block_size 8 =? 0)
  then add block_size (sub 8 (crem block_size 8))
  else block_size.

(** How the scanning loop of lines 73-102 is left: through the [return] of
    the exact-match branch, or at the end mark with [best_fit]/[bf_size].
    [bf_size] is uninitialised in the source until [best_fit] is set; it is
    read only behind [best_fit == NULL ||], so that its initial value, 0
    here, never matters. *)
Inductive scan_outcome : Type :=
  | ExactAt (frontier fr_size : Z)
  | ScanEnd (best_fit bf_size : Z).

Fixpoint balloc_scan (fuel : nat) (m : memory) (block_size : Z)
    (frontier best_fit bf_size : Z) : option scan_outcome :=
  match fuel with
  | O => None
  | S fuel' =>
      if load m frontier =? 1 then Some (ScanEnd best_fit bf_size)
      else
        let rem := crem (load m frontier) 8 in
        let fr_size := sub (load m frontier) rem in
        if (rem =? 0) || (rem =? 2) then
          if fr_size >=? block_size then
            if fr_size =? block_size then Some (ExactAt frontier fr_size)
            else if (best_fit =? NULL) || (fr_size <? bf_size) then
              balloc_scan fuel' m block_size (frontier + fr_size)
                frontier fr_size
            else
              balloc_scan fuel' m block_size (frontier + fr_size)
                best_fit bf_size
          else
            balloc_scan fuel' m block_size (frontier + fr_size)
              best_fit bf_size
        else
          balloc_scan fuel' m block_size (frontier + fr_size) best_fit bf_size
  end.

(** [balloc] returns the payload address ([NULL] on failure) and the new
    state; [None] only when the loop has not finished within [fuel]
    iterations. *)
Definition balloc (fuel : nat) (st : heap) (size : Z) : option (Z * heap) :=
  if (size <=? 0) || (size >? alloc_size st) then Some (NULL, st)
  else
    let block_size := padded_block_size size in
    let m := mem st in
    match balloc_scan fuel m block_size (heap_start st) NULL 0 with
    | None => None
    | Some (ExactAt frontier fr_size) =>
        let m1 := store m frontier (add (load m frontier) 1) in
        let next := frontier + fr_size in
        let m2 :=
          if negb (load m1 next =? 1)
          then store m1 next (add (load m1 next) 2)
          else m1 in
        Some (frontier + sizeof_blockHeader, set_mem st m2)
    | Some (ScanEnd best_fit bf_size) =>
        if best_fit =? NULL then Some (NULL, st)
        else
          let free_block := best_fit + block_size in
          let m1 := store m free_block (add (sub bf_size block_size) 2) in
          let m2 :=
            store m1 best_fit
              (add (add block_size (crem (load m1 best_fit) 8)) 1) in
          Some (best_fit + sizeof_blockHeader, set_mem st m2)
    end.

(** ** bfree *)

Definition bfree (st : heap) (ptr : Z) : Z * heap :=
  let m := mem st in
  if ptr =? NULL then (-1, st)
  else if negb (crem (wrap ptr) 8 =? 0) then (-1, st)
  else if (ptr <? heap_start st) || (ptr >? heap_start st + alloc_size st)
  then (-1, st)
  else
    let block := ptr - sizeof_blockHeader in
    let rem := crem (load m block) 8 in
    if (rem =? 0) || (rem =? 2) then (-1, st)
    else
      let next := block + sub (load m block) rem in
      let m1 :=
        if negb (load m next =? 1)
        then store m next (sub (load m next) 2)
        else m in
      let m2 := store m1 block (sub (load m1 block) 1) in
      (0, set_mem st m2).

(** ** coalesce *)

(** The inner loop of lines 179-183; yields [fr_size], [next] and [count]. *)
Fixpoint coalesce_absorb (fuel : nat) (m : memory) (next fr_size count : Z)
    : option (Z * Z * Z) :=
  match fuel with
  | O => None
  | S fuel' =>
      if negb (load m next =? 1) && (crem (load m next) 8 =? 0) then
        coalesce_absorb fuel' m (next + load m next)
          (add fr_size (load m next)) 1
      else Some (fr_size, next, count)
  end.

(** The outer loop of lines 170-189. *)
Fixpoint coalesce_loop (fuel : nat) (m : memory) (frontier count : Z)
    : option (Z * memory) :=
  match fuel with
  | O => None
  | S fuel' =>
      if load m frontier =? 1 then Some (count, m)
      else
        let rem := crem (load m frontier) 8 in
        let fr_size := sub (load m frontier) rem in
        if (rem =? 0) || (rem =? 2) then
          match coalesce_absorb fuel' m (frontier + fr_size) fr_size count with
          | None => None
          | Some (fr_size', _, count') =>
              let m' := store m frontier (add fr_size' rem) in
              coalesce_loop fuel' m' (frontier + fr_size') count'
          end
        else coalesce_loop fuel' m (frontier + fr_size) count
  end.

Definition coalesce (fuel : nat) (st : heap) : option (Z * heap) :=
  match coalesce_loop fuel (mem st) (heap_start st) 0 with
  | None => None
  | Some (count, m') => Some (count, set_mem st m')
  end.

(** ** init_heap *)

(** What the operating system answers during [init_heap]: the page size,
    whether /dev/zero could be opened, and the address returned by [mmap]
    ([None] for [MAP_FAILED]).  The mapped pages are zero-filled. *)
Record environment : Type := Environment {
  pagesize : Z;
  open_ok : bool;
  mmap_result : option Z
}.

(** The messages printed on [stderr] are not modelled. *)
Definition init_heap (env : environment) (st : heap) (sizeOfRegion : Z)
    : Z * heap :=
  if negb (0 =? allocated_once st) then (-1, st)
  else if sizeOfRegion <=? 0 then (-1, st)
  else
    let padsize := crem sizeOfRegion (pagesize env) in
    let padsize := crem (sub (pagesize env) padsize) (pagesize env) in
    let st1 :=
      Heap (heap_start st) (add sizeOfRegion padsize)
           (allocated_once st) (mem st) in
    if negb (open_ok env) then (-1, st1)
    else
      match mmap_result env with
      | None =>
          (-1, Heap (heap_start st1) (alloc_size st1) 0 (mem st1))
      | Some mmap_ptr =>
          let asz := sub (alloc_size st1) 8 in
          let hs := mmap_ptr + sizeof_blockHeader in
          let m1 := store (mem st1) (hs + asz) 1 in
          let m2 := store m1 hs asz in
          let m3 := store m2 hs (add (load m2 hs) 2) in
          let m4 := store m3 (hs + asz - 4) asz in
          (0, Heap hs asz 1 m4)
      end.

(** ** The block walk of disp_heap *)

(** One line of the table printed by [disp_heap]. *)
Record row : Type := Row {
  r_used : bool;
  r_prev_used : bool;
  t_begin : Z;
  t_size : Z
}.

(** The loop of lines 305-338, collecting the rows instead of printing. *)
Fixpoint disp_heap_rows (fuel : nat) (m : memory) (current : Z)
    : option (list row) :=
  match fuel with
  | O => None
  | S fuel' =>
      if load m current =? 1 then Some []
      else
        let t_size0 := load m current in
        let is_used := negb (Z.land t_size0 1 =? 0) in
        let t_size1 := if is_used then sub t_size0 1 else t_size0 in
        let p_used := negb (Z.land t_size1 2 =? 0) in
        let t_size2 := if p_used then sub t_size1 2 else t_size1 in
        match disp_heap_rows fuel' m (current + t_size2) with
        | None => None
        | Some rows => Some (Row is_used p_used current t_size2 :: rows)
        end
  end.

Definition used_size (rows : list row) : Z :=
  foldr (fun r acc => if r_used r then add (t_size r) acc else acc) 0 rows.

Definition free_size (rows : list row) : Z :=
  foldr (fun r acc => if r_used r then acc else add (t_size r) acc) 0 rows.

(** [rows] is the block list of [st]: the walk from [heap_start] reaches the
    end mark and lists exactly [rows]. *)
Definition heap_rows (st : heap) (rows : list row) : Prop :=
  ∃ fuel, disp_heap_rows fuel (mem st) (heap_start st) = Some rows.

(** ** Block lists as an abstraction of memory *)

Definition b2z (b : bool) : Z := if b then 1 else 0.

(** The [size_status] field of the header of a block: the size, bit 1 for
    the predecessor and bit 0 for the block itself. *)
Definition size_status (r : row) : Z :=
  t_size r + 2 * b2z (r_prev_used r) + b2z (r_used r).

(** Largest capacity [init_heap] can set up: the padded region size is an
    [int] and a multiple of the page size, and 8 bytes are held back. *)
Definition max_capacity : Z := 2 ^ 31 - 16.

Definition row_ok (r : row) : Prop :=
  8 ≤ t_size r ≤ max_capacity ∧ t_size r mod 8 = 0.

(** [chain m a rows e]: the headers stored in [m] from address [a] up to
    (excluding) [e] are exactly those of [rows], laid out back to back. *)
Fixpoint chain (m : memory) (a : Z) (rows : list row) (e : Z) : Prop :=
  match rows with
  | [] => a = e
  | r :: rows' =>
      t_begin r = a ∧ load m a = size_status r ∧ row_ok r ∧
      chain m (a + t_size r) rows' e
  end.

Definition total_size (rows : list row) : Z :=
  foldr (fun r acc => t_size r + acc) 0 rows.

(** Every block records in [r_prev_used] whether its left neighbour is in
    use; [prev] is the status assumed to the left of the first block. *)
Fixpoint pbits_ok (prev : bool) (rows : list row) : Prop :=
  match rows with
  | [] => True
  | r :: rows' => r_prev_used r = prev ∧ pbits_ok (r_used r) rows'
  end.

(** Words at possible header positions that are not the header of a block
    of the list carry no status bits. *)
Definition quiet (m : memory) (a e : Z) (rows : list row) : Prop :=
  ∀ x, a ≤ x < e → (x - a) mod 8 = 0 →
       x ∈ (t_begin <$> rows) ∨ crem (load m x) 8 = 0.

(** The invariant of the block list.  With [closed = true] it also says
    that the words between the headers are [quiet], as they are while the
    allocator alone writes memory; with [closed = false] these words are
    arbitrary, as they are once a client stores into the payloads it was
    given. *)
Record heap_inv_at (closed : bool) (st : heap) (rows : list row) : Prop :=
  HeapInv {
  inv_once : allocated_once st = 1;
  inv_start : 0 < heap_start st ∧ heap_start st mod 8 = 4;
  inv_size : 8 ≤ alloc_size st ≤ max_capacity ∧ alloc_size st mod 8 = 0;
  inv_chain :
    chain (mem st) (heap_start st) rows (heap_start st + alloc_size st);
  inv_end : load (mem st) (heap_start st + alloc_size st) = 1;
  inv_pbits : pbits_ok true rows;
  inv_quiet :
    closed = true →
    quiet (mem st) (heap_start st) (heap_start st + alloc_size st) rows
}.

Arguments inv_once {closed} st rows _.
Arguments inv_start {closed} st rows _.
Arguments inv_size {closed} st rows _.
Arguments inv_chain {closed} st rows _.
Arguments inv_end {closed} st rows _.
Arguments inv_pbits {closed} st rows _.
Arguments inv_quiet {closed} st rows _ _.

Abbreviation heap_inv := (heap_inv_at true).

(** ** Reachable states *)

(** The operating system hands out a usable mapping: a page size that is a
    multiple of 8, a page-aligned address, and a region whose padded size
    still fits an [int]. *)
Definition env_ok (env : environment) (sizeOfRegion : Z) : Prop :=
  16 ≤ pagesize env ∧ pagesize env mod 8 = 0 ∧ open_ok env = true ∧
  (∃ p, mmap_result env = Some p ∧ 0 < p ∧ p mod pagesize env = 0) ∧
  0 < sizeOfRegion ∧ sizeOfRegion + pagesize env ≤ 2 ^ 31.

(** States of an initialised heap: a successful [init_heap] from the initial
    program state, followed by any calls of the four operations with any
    arguments.  Only the allocator writes memory in these states: payload
    bytes are as the mapping or an earlier header left them. *)
Inductive reachable : heap → Prop :=
  | reach_init env sizeOfRegion st :
      env_ok env sizeOfRegion →
      init_heap env initial_heap sizeOfRegion = (0, st) →
      reachable st
  | reach_init_again env sizeOfRegion st rc st' :
      reachable st →
      init_heap env st sizeOfRegion = (rc, st') →
      reachable st'
  | reach_balloc fuel st size ptr st' :
      reachable st →
      balloc fuel st size = Some (ptr, st') →
      reachable st'
  | reach_bfree st ptr rc st' :
      reachable st →
      bfree st ptr = (rc, st') →
      reachable st'
  | reach_coalesce fuel st rc st' :
      reachable st →
      coalesce fuel st = Some (rc, st') →
      reachable st'.

(** ** Placement, in terms of the block list *)

(** The next multiple of 8 at or above [z]. *)
Definition round_up8 (z : Z) : Z := 8 * ((z + 7) / 8).

(** Block size required for a payload of [size] bytes. *)
Definition required (size : Z) : Z := round_up8 (size + sizeof_blockHeader).

Definition fits (req : Z) (r : row) : Prop :=
  r_used r = false ∧ req ≤ t_size r.

Definition exact (req : Z) (r : row) : Prop :=
  r_used r = false ∧ t_size r = req.

(** [r], between [pre] and [post], is the first free block of size [req]. *)
Definition first_exact (req : Z) (rows pre : list row) (r : row)
    (post : list row) : Prop :=
  rows = pre ++ r :: post ∧ exact req r ∧ ∀ r', r' ∈ pre → ¬ exact req r'.

(** [r] is the smallest free block of size at least [req], and the first
    one of that size. *)
Definition best_fit_at (req : Z) (rows pre : list row) (r : row)
    (post : list row) : Prop :=
  rows = pre ++ r :: post ∧ fits req r ∧
  (∀ r', r' ∈ pre → fits req r' → t_size r < t_size r') ∧
  (∀ r', r' ∈ post → fits req r' → t_size r ≤ t_size r').

Definition set_prev (p : bool) (rows : list row) : list row :=
  match rows with
  | [] => []
  | r :: rows' => Row (r_used r) p (t_begin r) (t_size r) :: rows'
  end.

(** Block list after [r] has been handed out whole. *)
Definition alloc_exact (pre : list row) (r : row) (post : list row)
    : list row :=
  pre ++ Row true (r_prev_used r) (t_begin r) (t_size r) :: set_prev true post.

(** Block list after the leading [req] bytes of [r] have been handed out
    and the rest has become a free block of its own. *)
Definition alloc_split (req : Z) (pre : list row) (r : row)
    (post : list row) : list row :=
  pre ++ Row true (r_prev_used r) (t_begin r) req
      :: Row false true (t_begin r + req) (t_size r - req) :: post.

(** The scanning loop of [balloc] as a function of the block list. *)
Fixpoint scan_rows (req : Z) (rows : list row) (best_fit bf_size : Z)
    : scan_outcome :=
  match rows with
  | [] => ScanEnd best_fit bf_size
  | r :: rows' =>
      if negb (r_used r) && (t_size r >=? req) then
        if t_size r =? req then ExactAt (t_begin r) (t_size r)
        else if (best_fit =? NULL) || (t_size r <? bf_size) then
          scan_rows req rows' (t_begin r) (t_size r)
        else scan_rows req rows' best_fit bf_size
      else scan_rows req rows' best_fit bf_size
  end.

(** Status of the last block of [rows], or [prev] when there is none. *)
Fixpoint last_used (prev : bool) (rows : list row) : bool :=
  match rows with
  | [] => prev
  | r :: rows' => last_used (r_used r) rows'
  end.

(** ** Release, in terms of the block list *)

(** The a-bit of a header word, read as [disp_heap] reads it. *)
Definition isAllocated (w : Z) : bool := negb (Z.land w 1 =? 0).

(** The p-bit of a header word. *)
Definition predecessorAllocated (w : Z) : bool := negb (Z.land w 2 =? 0).

(** Block list after the block [r] has been released. *)
Definition release (pre : list row) (r : row) (post : list row) : list row :=
  pre ++ Row false (r_prev_used r) (t_begin r) (t_size r)
      :: set_prev false post.

(** ** Coalescing, in terms of the block list *)

(** [runs rows] cuts the block list into its maximal runs of adjacent free
    blocks; a block in use forms a group of its own. *)
Definition join (r : row) (groups : list (list row)) : list (list row) :=
  match groups with
  | (r' :: g) :: groups' =>
      if negb (r_used r) && negb (r_used r')
      then (r :: r' :: g) :: groups'
      else [r] :: groups
  | _ => [r] :: groups
  end.

Definition runs (rows : list row) : list (list row) := foldr join [] rows.

(** A group is one block in use, or a non-empty run of free blocks. *)
Definition group_ok (g : list row) : Prop :=
  (∃ r, g = [r] ∧ r_used r = true) ∨
  (g ≠ [] ∧ Forall (fun r => r_used r = false) g).

(** One block in place of a group: it starts where the group starts, keeps
    the status bits of the first block and spans the sizes of all. *)
Definition merged (g : list row) : row :=
  match g with
  | [] => Row false false 0 0
  | r :: _ => Row (r_used r) (r_prev_used r) (t_begin r) (total_size g)
  end.

Definition coalesced (rows : list row) : list row := merged <$> runs rows.

(** Some run holds at least two blocks, so that a merge takes place. *)
Definition has_merge (rows : list row) : bool :=
  existsb (fun g => (2 <=? length g)%nat) (runs rows).

(** Two groupings whose groups, one by one, merge into the same block. *)
Definition similar (G1 G2 : list (list row)) : Prop :=
  Forall2 (fun g1 g2 => g1 ≠ [] ∧ g2 ≠ [] ∧ merged g1 = merged g2) G1 G2.

(** The free blocks at the front of a list, and what follows them. *)
Fixpoint free_run (rows : list row) : list row :=
  match rows with
  | [] => []
  | r :: rows' => if r_used r then [] else r :: free_run rows'
  end.

Fixpoint past_run (rows : list row) : list row :=
  match rows with
  | [] => []
  | r :: rows' => if r_used r then rows else past_run rows'
  end.

(** ** Sample heaps *)

(** A 4096-byte page mapped at address 8192. *)
Definition demo_env : environment := Environment 4096 true (Some 8192).

(** The heap right after [init_heap(4000)]: one free block of 4088 bytes. *)
Definition demo_heap : heap := (init_heap demo_env initial_heap 4000).2.

(** State after a call of [balloc] (the state itself when it gives none). *)
Definition after_balloc (st : heap) (size : Z) : heap :=
  match balloc 16 st size with
  | Some (_, st') => st'
  | None => st
  end.

Definition after_coalesce (st : heap) : heap :=
  match coalesce 16 st with
  | Some (_, st') => st'
  | None => st
  end.

(** Three blocks of 40, 16 and 64 bytes are allocated and released again:
    free blocks of sizes 40, 16, 64 and 3968 at increasing addresses. *)
Definition fragmented_heap : heap :=
  let st1 := after_balloc demo_heap 36 in
  let st2 := after_balloc st1 12 in
  let st3 := after_balloc st2 60 in
  let st4 := (bfree st3 8200).2 in
  let st5 := (bfree st4 8240).2 in
  (bfree st5 8256).2.

Definition fragmented_rows : list row :=
  [ Row false true 8196 40; Row false false 8236 16;
    Row false false 8252 64; Row false false 8316 3968 ].

(** Blocks of 16, 24, 32 and 8 bytes are allocated and the first three are
    released: free blocks of 16, 24 and 32 bytes in a row, then a block in
    use, then the free rest. *)
Definition released_heap : heap :=
  let st1 := after_balloc demo_heap 12 in
  let st2 := after_balloc st1 20 in
  let st3 := after_balloc st2 28 in
  let st4 := after_balloc st3 1 in
  let st5 := (bfree st4 8200).2 in
  let st6 := (bfree st5 8216).2 in
  (bfree st6 8240).2.

Definition released_rows : list row :=
  [ Row false true 8196 16; Row false false 8212 24;
    Row false false 8236 32; Row true false 8268 8;
    Row false true 8276 4008 ].

(** ** Reuse of a released block *)

(** "After a successful [balloc(x)] and a successful [bfree] of the address
    it returned, [balloc(y)] with [0 < y <= x] returns that address again
    and the block list does not grow, provided no other free block has
    exactly the size that [y] requires", for the heap [st]. *)
Definition reuse_without_growth (st : heap) (x y : Z) : Prop :=
  ∀ fuel p st1 st2 rows2 q st3 rows3,
    0 < y ≤ x →
    balloc fuel st x = Some (p, st1) → p ≠ NULL →
    bfree st1 p = (0, st2) →
    heap_rows st2 rows2 →
    (∀ r, r ∈ rows2 → t_begin r + 4 ≠ p → ¬ exact (required y) r) →
    balloc fuel st2 y = Some (q, st3) → heap_rows st3 rows3 →
    q = p ∧ (length rows3 ≤ length rows2)%nat.

(** A 32-byte block is allocated, then an 8-byte one, and the first is
    released: a free block of 32 bytes, a block in use, the free rest. *)
Definition holed_heap : heap :=
  let st1 := after_balloc demo_heap 28 in
  let st2 := after_balloc st1 1 in
  (bfree st2 8200).2.

(** ** Calls that release nothing *)

(** No free block follows a free block: every free block records a
    predecessor in use. *)
Definition separated (rows : list row) : Prop :=
  Forall (fun r => r_used r = false → r_prev_used r = true) rows.

(** [no_release st st']: [st'] is reached from [st] by calls that deallocate
    nothing, that is calls of [balloc], calls of [bfree] that fail, and
    calls of [init_heap]. *)
Inductive no_release : heap → heap → Prop :=
  | no_release_refl st : no_release st st
  | no_release_balloc st st1 fuel size ptr st2 :
      no_release st st1 →
      balloc fuel st1 size = Some (ptr, st2) →
      no_release st st2
  | no_release_bfree st st1 ptr st2 :
      no_release st st1 →
      bfree st1 ptr = (-1, st2) →
      no_release st st2
  | no_release_init st st1 env sizeOfRegion rc st2 :
      no_release st st1 →
      init_heap env st1 sizeOfRegion = (rc, st2) →
      no_release st st2.

(** ** What a call may write *)

(** One call of an operation on an initialised heap, with any arguments. *)
Inductive call : heap → heap → Prop :=
  | call_init_heap env sizeOfRegion st rc st' :
      init_heap env st sizeOfRegion = (rc, st') → call st st'
  | call_balloc fuel st size ptr st' :
      balloc fuel st size = Some (ptr, st') → call st st'
  | call_bfree st ptr rc st' :
      bfree st ptr = (rc, st') → call st st'
  | call_coalesce fuel st rc st' :
      coalesce fuel st = Some (rc, st') → call st st'.

(** [x] is the address of the header of a block of the list, or an address
    inside a free block, a multiple of 8 past its header. *)
Definition writable (rows : list row) (x : Z) : Prop :=
  ∃ r, r ∈ rows ∧
    (x = t_begin r ∨
     (r_used r = false ∧ t_begin r < x < t_begin r + t_size r ∧
      (x - t_begin r) mod 8 = 0)).

(** ** Allocation without release *)

(** A client that calls [balloc] once for each size of a list, in order,
    and keeps the addresses returned. *)
Fixpoint balloc_all (fuel : nat) (st : heap) (sizes : list Z)
    : option (list Z * heap) :=
  match sizes with
  | [] => Some ([], st)
  | size :: sizes' =>
      match balloc fuel st size with
      | None => None
      | Some (ptr, st1) =>
          match balloc_all fuel st1 sizes' with
          | None => None
          | Some (ptrs, st2) => Some (ptr :: ptrs, st2)
          end
      end
  end.

(** Blocks in use laid out back to back from address [a] on, one for each
    size of the list, and the payload addresses of these blocks. *)
Fixpoint carved (a : Z) (sizes : list Z) : list row :=
  match sizes with
  | [] => []
  | size :: sizes' =>
      Row true true a (required size) :: carved (a + required size) sizes'
  end.

Fixpoint payloads (a : Z) (sizes : list Z) : list Z :=
  match sizes with
  | [] => []
  | size :: sizes' => a + 4 :: payloads (a + required size) sizes'
  end.

Definition required_total (sizes : list Z) : Z :=
  foldr (fun size acc => required size + acc) 0 sizes.

(** The free block of [n] bytes at [a] that is left over, if any. *)
Definition rest_block (a n : Z) : list row :=
  if n =? 0 then [] else [Row false true a n].

(** ** The test program *)

(** What [main] of [tests/main.c] does: the assertion fails, or the program
    exits after printing two tables. *)
Inductive outcome : Type :=
  | AssertFailed
  | Exited (first second : list row).

(** The loop of lines 12-16: [balloc(i)] for [i] from 1 while [i < 50],
    left at the first [NULL]. *)
Fixpoint main_loop (steps fuel : nat) (st : heap) (i : Z) : option heap :=
  match steps with
  | O => None
  | S steps' =>
      if i <? 50 then
        match balloc fuel st i with
        | None => None
        | Some (ptr, st') =>
            if ptr =? NULL then Some st'
            else main_loop steps' fuel st' (add i 1)
        end
      else Some st
  end.

Definition main (steps fuel : nat) (env : environment) : option outcome :=
  let (rc, st) := init_heap env initial_heap 4096 in
  if negb (rc =? 0) then Some AssertFailed
  else
    match disp_heap_rows fuel (mem st) (heap_start st) with
    | None => None
    | Some first =>
        match main_loop steps fuel st 1 with
        | None => None
        | Some st' =>
            match disp_heap_rows fuel (mem st') (heap_start st') with
            | None => None
            | Some second => Some (Exited first second)
            end
        end
    end.

(** ** Totals of the table *)

(** Bytes in blocks in use and in free blocks, as plain sums. *)
Definition used_total (rows : list row) : Z :=
  foldr (fun r acc => if r_used r then t_size r + acc else acc) 0 rows.

Definition free_total (rows : list row) : Z :=
  foldr (fun r acc => if r_used r then acc else t_size r + acc) 0 rows.

(** ** A client that uses its payloads *)

(** A store of the word [v] at address [x], as a client does it through a
    pointer it was given.  A store of any width changes words of the memory
    one at a time. *)
Definition store_word (st : heap) (x v : Z) : heap :=
  set_mem st (store (mem st) x v).

(** [x] is an address in the payload of a block in use: inside the block,
    past its header. *)
Definition in_payload (rows : list row) (x : Z) : Prop :=
  ∃ r, r ∈ rows ∧ r_used r = true ∧
       t_begin r + 4 ≤ x < t_begin r + t_size r.

(** [ptr] is a live allocation: the payload address of a block in use, as
    [balloc] returned it. *)
Definition live (rows : list row) (ptr : Z) : Prop :=
  ∃ r, r ∈ rows ∧ r_used r = true ∧ ptr = t_begin r + 4.

(** One call by a client that keeps to the contract of [bfree]: the
    operations are called with any arguments, except that a call of [bfree]
    is given a live allocation, or else fails. *)
Inductive proper_call : heap → heap → Prop :=
  | proper_init_heap env sizeOfRegion st rc st' :
      init_heap env st sizeOfRegion = (rc, st') → proper_call st st'
  | proper_balloc fuel st size ptr st' :
      balloc fuel st size = Some (ptr, st') → proper_call st st'
  | proper_bfree st rows ptr rc st' :
      heap_rows st rows → live rows ptr →
      bfree st ptr = (rc, st') → proper_call st st'
  | proper_bfree_fails st ptr st' :
      bfree st ptr = (-1, st') → proper_call st st'
  | proper_coalesce fuel st rc st' :
      coalesce fuel st = Some (rc, st') → proper_call st st'.

(** States of a heap in the hands of a client: a successful [init_heap]
    from the initial program state, then calls taken from [calls] and stores
    of any word to any address in the payload of a block in use. *)
Inductive client_states (calls : heap → heap → Prop) : heap → Prop :=
  | client_init env sizeOfRegion st :
      env_ok env sizeOfRegion →
      init_heap env initial_heap sizeOfRegion = (0, st) →
      client_states calls st
  | client_call st st' :
      client_states calls st → calls st st' → client_states calls st'
  | client_store st rows x v :
      client_states calls st → heap_rows st rows → in_payload rows x →
      client_states calls (store_word st x v).

(** Any client, and a client that releases live allocations only. *)
Definition client_reachable : heap → Prop := client_states call.

Definition disciplined : heap → Prop := client_states proper_call.

(** ** The invariants as stated, for any client *)

(** "The predecessor bit in the header of the first block is set, and the
    predecessor bit of every other block equals the a-bit of its left
    neighbour", for the block list of [st]. *)
Definition predecessor_bits_agree (st : heap) (rows : list row) : Prop :=
  (∀ r, head rows = Some r →
        predecessorAllocated (load (mem st) (t_begin r)) = true)
  ∧ (∀ i r1 r2, rows !! i = Some r1 → rows !! S i = Some r2 →
        predecessorAllocated (load (mem st) (t_begin r2))
        = isAllocated (load (mem st) (t_begin r1))).

(** "The walk over the block list reaches the end mark and the sizes add up
    to [alloc_size]", for the state [st]. *)
Definition sizes_conserved (st : heap) : Prop :=
  ∃ rows, heap_rows st rows ∧
    load (mem st) (heap_start st + total_size rows) = 1 ∧
    total_size rows = alloc_size st.

(** "[bfree(ptr)] returns -1 exactly when [ptr] is null, or not a multiple
    of 8, or out of bounds, or the a-bit of the word 4 bytes before [ptr] is
    clear", for the state [st]. *)
Definition bfree_checks_bit (st : heap) (ptr : Z) : Prop :=
  (bfree st ptr).1 = -1 ↔
  ptr = NULL ∨ ptr mod 8 ≠ 0 ∨
  ptr < heap_start st ∨ heap_start st + alloc_size st < ptr ∨
  isAllocated (load (mem st) (ptr - 4)) = false.

(** The test that [bfree] makes on the word 4 bytes before [ptr]. *)
Definition reads_free (st : heap) (ptr : Z) : Prop :=
  crem (load (mem st) (ptr - 4)) 8 = 0 ∨
  crem (load (mem st) (ptr - 4)) 8 = 2.

(** A 16-byte block is allocated and the client stores the word 4 into its
    payload, at 8204. *)
Definition poked_heap : heap :=
  store_word (after_balloc demo_heap 12) 8204 4.

Definition poked_rows : list row :=
  [ Row true true 8196 16; Row false true 8212 4072 ].

(** Blocks of 104 and 16 bytes are allocated, the client stores the word
    100 at 8204, inside the first payload, and calls [bfree(8208)]. *)
Definition misled_heap : heap :=
  let st1 := after_balloc demo_heap 100 in
  let st2 := after_balloc st1 12 in
  (bfree (store_word st2 8204 100) 8208).2.

Definition misled_rows : list row :=
  [ Row true true 8196 104; Row true false 8300 16;
    Row false true 8316 3968 ].

(** Blocks of 16, 24 and 32 bytes are allocated and the second is released;
    the client stores the word 37 at 8204, inside the first payload, and
    calls [bfree(8208)]. *)
Definition broken_heap : heap :=
  let st1 := after_balloc demo_heap 12 in
  let st2 := after_balloc st1 20 in
  let st3 := after_balloc st2 28 in
  let st4 := (bfree st3 8216).2 in
  (bfree (store_word st4 8204 37) 8208).2.

(** ** Arithmetic of header words *)

Lemma wrap_small z : - 2 ^ 31 ≤ z < 2 ^ 31 → wrap z = z.
Proof.
  intros Hz. unfold wrap.
  rewrite Z.mod_small by lia. lia.
Qed.

Lemma wrap_mod8 z : wrap z mod 8 = z mod 8.
Proof.
  unfold wrap.
  assert (H32 : 2 ^ 32 = 8 * 2 ^ 29) by reflexivity.
  assert (H31 : 2 ^ 31 = 8 * 2 ^ 28) by reflexivity.
  pose proof (Z.div_mod (z + 2 ^ 31) (2 ^ 32) ltac:(lia)) as Hd.
  set (q := (z + 2 ^ 31) / 2 ^ 32) in *.
  replace ((z + 2 ^ 31) mod 2 ^ 32 - 2 ^ 31)
    with (z + (- (2 ^ 29 * q)) * 8) by lia.
  apply Z.mod_add. lia.
Qed.

Lemma crem_zero_iff z : crem z 8 = 0 ↔ z mod 8 = 0.
Proof.
  unfold crem. rewrite Z.rem_divide by lia. rewrite Z.mod_divide by lia. done.
Qed.

Lemma crem_nonneg z : 0 ≤ z → crem z 8 = z mod 8.
Proof. intros Hz. unfold crem. apply Z.rem_mod_nonneg; lia. Qed.

Lemma aligned_iff ptr : crem (wrap ptr) 8 = 0 ↔ ptr mod 8 = 0.
Proof. rewrite crem_zero_iff, wrap_mod8. done. Qed.

Lemma hdr_bounds r : row_ok r → 8 ≤ size_status r ≤ 2 ^ 31 - 13.
Proof.
  intros [[Hlo Hhi] _]. unfold size_status, max_capacity in *.
  destruct (r_prev_used r), (r_used r); simpl; lia.
Qed.

Lemma hdr_mod8 r :
  row_ok r → size_status r mod 8 = 2 * b2z (r_prev_used r) + b2z (r_used r).
Proof.
  intros [[Hlo Hhi] Hm]. unfold size_status.
  apply Z.mod_divide in Hm; [|lia]. destruct Hm as [k Hk]. rewrite Hk.
  rewrite <- Z.add_assoc, Z.add_comm, Z.mod_add by lia.
  apply Z.mod_small. destruct (r_prev_used r), (r_used r); simpl; lia.
Qed.

Lemma hdr_crem r :
  row_ok r → crem (size_status r) 8 = 2 * b2z (r_prev_used r) + b2z (r_used r).
Proof.
  intros Hr. rewrite crem_nonneg by (pose proof (hdr_bounds r Hr); lia).
  by apply hdr_mod8.
Qed.

Lemma hdr_fr_size r : row_ok r → sub (size_status r) (crem (size_status r) 8) = t_size r.
Proof.
  intros Hr. rewrite hdr_crem by done. unfold sub, size_status.
  destruct Hr as [[Hlo Hhi] _]. unfold max_capacity in *.
  rewrite wrap_small; lia.
Qed.

Lemma hdr_not_end r : row_ok r → (size_status r =? 1) = false.
Proof. intros Hr. pose proof (hdr_bounds r Hr). lia. Qed.

Lemma hdr_free_test r :
  row_ok r →
  (crem (size_status r) 8 =? 0) || (crem (size_status r) 8 =? 2) = negb (r_used r).
Proof.
  intros Hr. rewrite hdr_crem by done.
  destruct (r_prev_used r), (r_used r); reflexivity.
Qed.

Lemma hdr_quiet_test r :
  row_ok r →
  (crem (size_status r) 8 =? 0) = negb (r_used r) && negb (r_prev_used r).
Proof.
  intros Hr. rewrite hdr_crem by done.
  destruct (r_prev_used r), (r_used r); reflexivity.
Qed.

(** ** Loads and stores *)

Lemma load_store_eq m a v : load (store m a v) a = v.
Proof. unfold load, store. by rewrite lookup_insert_eq. Qed.

Lemma load_store_ne m a v x : x ≠ a → load (store m a v) x = load m x.
Proof. intros Hne. unfold load, store. by rewrite lookup_insert_ne. Qed.

Lemma load_empty a : load ∅ a = 0.
Proof. unfold load. by rewrite lookup_empty. Qed.

(** ** Chains *)

Lemma chain_total m a rows e : chain m a rows e → e = a + total_size rows.
Proof.
  revert a. induction rows as [|r rows IH]; simpl; intros a H.
  - lia.
  - destruct H as (_ & _ & _ & H). apply IH in H. lia.
Qed.

Lemma total_size_nonneg m a rows e : chain m a rows e → 0 ≤ total_size rows.
Proof.
  revert a. induction rows as [|r rows IH]; simpl; intros a H.
  - lia.
  - destruct H as (_ & _ & [[Hlo _] _] & H). apply IH in H. lia.
Qed.

Lemma chain_le m a rows e : chain m a rows e → a ≤ e.
Proof.
  intros H. pose proof (chain_total _ _ _ _ H).
  pose proof (total_size_nonneg _ _ _ _ H). lia.
Qed.

Lemma total_size_app rows1 rows2 :
  total_size (rows1 ++ rows2) = total_size rows1 + total_size rows2.
Proof. induction rows1 as [|r rows1 IH]; simpl; lia. Qed.

Lemma chain_app m a rows1 rows2 e :
  chain m a (rows1 ++ rows2) e ↔
  chain m a rows1 (a + total_size rows1) ∧
  chain m (a + total_size rows1) rows2 e.
Proof.
  revert a. induction rows1 as [|r rows1 IH]; simpl; intros a.
  - rewrite Z.add_0_r. split; [intros H; by split | by intros [_ H]].
  - rewrite IH. replace (a + (t_size r + total_size rows1))
      with (a + t_size r + total_size rows1) by lia. tauto.
Qed.

Lemma chain_frame m m' a rows e :
  chain m a rows e →
  (∀ x, a ≤ x < e → load m' x = load m x) →
  chain m' a rows e.
Proof.
  revert a. induction rows as [|r rows IH]; simpl; intros a H Hagree; [done|].
  destruct H as (Hb & Hl & Hr & H).
  pose proof (chain_le _ _ _ _ H) as Hle.
  destruct Hr as [[Hlo Hhi] Hm].
  split_and!; try done.
  - rewrite Hagree; [done | lia].
  - apply IH; [done|]. intros x Hx. apply Hagree. lia.
Qed.

Lemma chain_begin_range m a rows e r :
  chain m a rows e → r ∈ rows →
  a ≤ t_begin r ∧ t_begin r + t_size r ≤ e ∧ row_ok r ∧
  load m (t_begin r) = size_status r.
Proof.
  revert a. induction rows as [|r0 rows IH]; simpl; intros a H Hin.
  - by apply elem_of_nil in Hin.
  - destruct H as (Hb & Hl & Hr & H).
    pose proof (chain_le _ _ _ _ H) as Hle.
    apply elem_of_cons in Hin as [->|Hin].
    + rewrite Hb. split_and!; try done; lia.
    + destruct (IH _ H Hin) as (? & ? & ? & ?).
      destruct Hr as [[Hlo Hhi] Hm]. split_and!; try done; lia.
Qed.

Lemma chain_begin_mod m a rows e r :
  chain m a rows e → r ∈ rows → (t_begin r - a) mod 8 = 0.
Proof.
  revert a. induction rows as [|r0 rows IH]; simpl; intros a H Hin.
  - by apply elem_of_nil in Hin.
  - destruct H as (Hb & Hl & Hr & H).
    apply elem_of_cons in Hin as [->|Hin].
    + rewrite Hb, Z.sub_diag. done.
    + specialize (IH _ H Hin). destruct Hr as [_ Hm].
      replace (t_begin r - a)
        with ((t_begin r - (a + t_size r0)) + t_size r0) by lia.
      rewrite Z.add_mod, IH, Hm by lia. done.
Qed.

(** ** The walk of disp_heap reads back the chain *)

Lemma land_low a b n :
  0 ≤ n → 0 ≤ b < 2 ^ n → Z.land a b = Z.land (a mod 2 ^ n) b.
Proof.
  intros Hn Hb. apply Z.bits_inj'. intros i Hi.
  rewrite !Z.land_spec.
  destruct (Z.lt_ge_cases i n) as [Hlt|Hge].
  - by rewrite Z.mod_pow2_bits_low by lia.
  - rewrite <- (Z.mod_small b (2 ^ n)) by lia.
    rewrite (Z.mod_pow2_bits_high b) by lia.
    by rewrite !andb_false_r.
Qed.

Lemma disp_heap_row r :
  row_ok r →
  let t_size0 := size_status r in
  let is_used := negb (Z.land t_size0 1 =? 0) in
  let t_size1 := if is_used then sub t_size0 1 else t_size0 in
  let p_used := negb (Z.land t_size1 2 =? 0) in
  let t_size2 := if p_used then sub t_size1 2 else t_size1 in
  is_used = r_used r ∧ p_used = r_prev_used r ∧ t_size2 = t_size r.
Proof.
  intros Hr. pose proof (hdr_mod8 r Hr) as Hm.
  pose proof (hdr_bounds r Hr) as Hb.
  destruct Hr as [[Hlo Hhi] Hs]. unfold max_capacity in *.
  cbv zeta.
  assert (Hu : negb (Z.land (size_status r) 1 =? 0) = r_used r).
  { rewrite (land_low _ 1 3) by lia. change (2 ^ 3) with 8. rewrite Hm.
    destruct (r_prev_used r), (r_used r); reflexivity. }
  rewrite Hu.
  assert (Ht1 : (if r_used r then sub (size_status r) 1 else size_status r)
                = t_size r + 2 * b2z (r_prev_used r)).
  { unfold sub, size_status. destruct (r_used r); simpl.
    - rewrite wrap_small; destruct (r_prev_used r); simpl; lia.
    - lia. }
  rewrite Ht1.
  assert (Hp : negb (Z.land (t_size r + 2 * b2z (r_prev_used r)) 2 =? 0)
               = r_prev_used r).
  { rewrite (land_low _ 2 3) by lia. change (2 ^ 3) with 8.
    rewrite Z.add_mod, Hs by lia.
    destruct (r_prev_used r); reflexivity. }
  rewrite Hp. split_and!; try done.
  unfold sub. destruct (r_prev_used r); simpl; [rewrite wrap_small|]; lia.
Qed.

Lemma disp_heap_rows_chain fuel m a rows e :
  chain m a rows e → load m e = 1 → (length rows < fuel)%nat →
  disp_heap_rows fuel m a = Some rows.
Proof.
  revert a fuel. induction rows as [|r rows IH]; simpl; intros a fuel H He Hf.
  - subst a. destruct fuel as [|fuel]; [lia|]. simpl. by rewrite He.
  - destruct H as (Hb & Hl & Hr & H).
    destruct fuel as [|fuel]; [lia|]. cbn [disp_heap_rows length] in *.
    rewrite Hl, (hdr_not_end r Hr).
    destruct (disp_heap_row r Hr) as (Hu & Hp & Hs). cbv zeta in Hu, Hp, Hs.
    rewrite Hs, Hp, Hu, (IH (a + t_size r) fuel) by (done || lia).
    destruct r; simpl in *. by subst.
Qed.

Lemma disp_heap_rows_more fuel fuel' m a rows :
  disp_heap_rows fuel m a = Some rows → (fuel ≤ fuel')%nat →
  disp_heap_rows fuel' m a = Some rows.
Proof.
  revert fuel' a rows. induction fuel as [|fuel IH]; intros fuel' a rows H Hle.
  - discriminate.
  - destruct fuel' as [|fuel']; [lia|]. simpl in *.
    destruct (load m a =? 1); [done|].
    match goal with
    | H : match disp_heap_rows fuel m ?x with _ => _ end = _ |- _ =>
        destruct (disp_heap_rows fuel m x) as [rows0|] eqn:E; [|done];
        rewrite (IH fuel' x rows0 E) by lia
    end.
    done.
Qed.

Lemma heap_rows_functional st rows rows' :
  heap_rows st rows → heap_rows st rows' → rows = rows'.
Proof.
  intros [f1 H1] [f2 H2].
  apply (disp_heap_rows_more _ (f1 `max` f2)%nat) in H1; [|lia].
  apply (disp_heap_rows_more _ (f1 `max` f2)%nat) in H2; [|lia].
  congruence.
Qed.

Lemma heap_inv_rows {closed} st rows : heap_inv_at closed st rows → heap_rows st rows.
Proof.
  intros Hinv. exists (S (length rows)).
  eapply disp_heap_rows_chain; [apply Hinv | apply Hinv | lia].
Qed.

Lemma heap_inv_unique {closed} st rows rows' :
  heap_inv_at closed st rows → heap_rows st rows' → rows' = rows.
Proof.
  intros Hinv Hrows. eapply heap_rows_functional; [done|].
  by eapply heap_inv_rows.
Qed.

(** What holds while the allocator alone writes memory holds of the block
    list whatever the payloads contain. *)
Lemma heap_inv_open {closed} st rows :
  heap_inv st rows → heap_inv_at closed st rows.
Proof. intros Hinv. constructor; try apply Hinv. intros _. by apply Hinv. Qed.

(** ** init_heap establishes the invariant *)

Lemma padded_region ps sz :
  16 ≤ ps → ps mod 8 = 0 → 0 < sz → sz + ps ≤ 2 ^ 31 →
  let padsize := crem (sub ps (crem sz ps)) ps in
  let padded := add sz padsize in
  16 ≤ padded ≤ 2 ^ 31 - 8 ∧ padded mod 8 = 0 ∧ sz ≤ padded < sz + ps ∧
  padded mod ps = 0.
Proof.
  intros Hps Hps8 Hsz Hfit. cbv zeta.
  unfold crem, sub, add.
  rewrite (Z.rem_mod_nonneg sz ps) by lia.
  pose proof (Z.mod_pos_bound sz ps ltac:(lia)) as Hr.
  rewrite (wrap_small (ps - sz mod ps)) by lia.
  rewrite Z.rem_mod_nonneg by lia.
  pose proof (Z.div_mod sz ps ltac:(lia)) as Hd.
  assert (Hpad : ∃ k, sz + (ps - sz mod ps) mod ps = ps * k ∧
                      sz ≤ ps * k < sz + ps).
  { destruct (decide (sz mod ps = 0)) as [Hz|Hnz].
    - rewrite Hz, Z.sub_0_r, Z.mod_same by lia.
      exists (sz / ps). lia.
    - rewrite (Z.mod_small (ps - sz mod ps)) by lia.
      exists (sz / ps + 1). lia. }
  destruct Hpad as (k & Hk & Hkb). rewrite Hk.
  apply Z.mod_divide in Hps8; [|lia]. destruct Hps8 as [j Hj].
  assert (Hk8 : (ps * k) mod 8 = 0).
  { rewrite Hj. replace (j * 8 * k) with ((j * k) * 8) by lia.
    apply Z.mod_mul. lia. }
  assert (Hkpos : 1 ≤ k) by nia.
  assert (Hlo : 16 ≤ ps * k) by nia.
  assert (Hhi : ps * k ≤ 2 ^ 31 - 8).
  { apply Z.mod_divide in Hk8; [|lia]. destruct Hk8 as [i Hi]. lia. }
  rewrite wrap_small by lia.
  split_and!; try lia.
  rewrite Z.mul_comm. apply Z.mod_mul. lia.
Qed.

Lemma init_heap_inv env sizeOfRegion st :
  env_ok env sizeOfRegion →
  init_heap env initial_heap sizeOfRegion = (0, st) →
  heap_inv st [Row false true (heap_start st) (alloc_size st)].
Proof.
  intros (Hps & Hps8 & Hopen & (p & Hmap & Hp & Hpal) & Hsz & Hfit) Hinit.
  unfold init_heap in Hinit. simpl in Hinit.
  destruct (sizeOfRegion <=? 0) eqn:E; [lia|].
  rewrite Hopen, Hmap in Hinit. simpl in Hinit.
  destruct (padded_region (pagesize env) sizeOfRegion Hps Hps8 Hsz Hfit)
    as (Hpb & Hp8 & _ & _).
  cbv zeta in Hpb, Hp8.
  set (padded := add sizeOfRegion
         (crem (sub (pagesize env) (crem sizeOfRegion (pagesize env)))
               (pagesize env))) in *.
  assert (Hasz : sub padded 8 = padded - 8)
    by (unfold sub; rewrite wrap_small; lia).
  assert (Hp0 : p mod 8 = 0).
  { apply Z.mod_divide in Hpal; [|lia]. destruct Hpal as [k Hk].
    apply Z.mod_divide in Hps8; [|lia]. destruct Hps8 as [j Hj].
    rewrite Hk, Hj. replace (k * (j * 8)) with ((k * j) * 8) by lia.
    apply Z.mod_mul. lia. }
  assert (Ha8 : (padded - 8) mod 8 = 0).
  { replace (padded - 8) with (padded + (-1) * 8) by lia.
    rewrite Z.mod_add by lia. done. }
  injection Hinit as <-. unfold sizeof_blockHeader in *.
  rewrite Hasz.
  set (hs := p + 4). set (asz := padded - 8).
  assert (Hload_hs : ∀ m, load (store m hs asz) hs = asz)
    by (intros; apply load_store_eq).
  rewrite Hload_hs.
  assert (Hadd : add asz 2 = asz + 2)
    by (unfold add; rewrite wrap_small; subst asz; lia).
  rewrite Hadd.
  constructor; simpl.
  - done.
  - split; [subst hs; lia|]. subst hs.
    rewrite Z.add_mod, Hp0 by lia. done.
  - unfold max_capacity. subst asz. split; [lia | done].
  - split_and!; try done.
    + rewrite load_store_ne by (subst asz; lia).
      rewrite load_store_eq. unfold size_status. simpl. lia.
    + unfold row_ok, max_capacity. simpl. subst asz. split; [lia|done].
  - rewrite load_store_ne by lia.
    rewrite load_store_ne by (subst asz; lia).
    rewrite load_store_ne by (subst asz; lia).
    apply load_store_eq.
  - done.
  - intros _ x Hx Hxm. simpl.
    destruct (decide (x = hs)) as [->|Hne]; [left; apply list_elem_of_here|].
    right.
    assert (x ≠ hs + asz - 4).
    { intros ->. replace (hs + asz - 4 - hs) with (asz - 4) in Hxm by lia.
      apply Z.mod_divide in Ha8; [|lia]. destruct Ha8 as [k Hk].
      fold asz in Hk. rewrite Hk in Hxm.
      replace (k * 8 - 4) with (4 + (k - 1) * 8) in Hxm by lia.
      rewrite Z.mod_add in Hxm by lia. discriminate. }
    rewrite !load_store_ne by lia. rewrite load_empty. done.
Qed.

(** ** Predecessor bits and quiet words under updates *)

Lemma pbits_app prev rows1 rows2 :
  pbits_ok prev (rows1 ++ rows2) ↔
  pbits_ok prev rows1 ∧ pbits_ok (last_used prev rows1) rows2.
Proof.
  revert prev. induction rows1 as [|r rows1 IH]; simpl; intros prev.
  - tauto.
  - rewrite IH. tauto.
Qed.

Lemma quiet_update m m' a e rows rows' :
  quiet m a e rows →
  (∀ x, x ∈ (t_begin <$> rows) → x ∈ (t_begin <$> rows')) →
  (∀ x, a ≤ x < e → x ∉ (t_begin <$> rows') → load m' x = load m x) →
  quiet m' a e rows'.
Proof.
  intros Hq Hsub Hsame x Hx Hxm.
  destruct (decide (x ∈ (t_begin <$> rows'))) as [Hin|Hnin]; [by left|].
  right. rewrite Hsame by done.
  destruct (Hq x Hx Hxm) as [Hin|Hz]; [|done].
  by apply Hsub in Hin.
Qed.

(** ** The required block size *)

Lemma round_up8_spec z :
  round_up8 z mod 8 = 0 ∧ z ≤ round_up8 z < z + 8.
Proof.
  unfold round_up8. split.
  - rewrite Z.mul_comm. apply Z.mod_mul. lia.
  - pose proof (Z.div_mod (z + 7) 8 ltac:(lia)).
    pose proof (Z.mod_pos_bound (z + 7) 8 ltac:(lia)). lia.
Qed.

Lemma padded_block_size_required size :
  0 < size ≤ max_capacity → padded_block_size size = required size.
Proof.
  intros Hs. unfold padded_block_size, required, sizeof_blockHeader.
  unfold max_capacity in Hs.
  assert (Ha : add size 4 = size + 4) by (unfold add; rewrite wrap_small; lia).
  rewrite Ha. rewrite crem_nonneg by lia.
  pose proof (Z.div_mod (size + 4) 8 ltac:(lia)) as Hd.
  pose proof (Z.mod_pos_bound (size + 4) 8 ltac:(lia)) as Hb.
  unfold round_up8.
  destruct (Z.eqb_spec ((size + 4) mod 8) 0) as [Hz|Hnz]; simpl.
  - rewrite Hz, Z.add_0_r in Hd.
    replace (size + 4 + 7) with (7 + (size + 4) / 8 * 8) by lia.
    rewrite Z.div_add by lia. change (7 / 8) with 0. lia.
  - unfold sub, add. rewrite (wrap_small (8 - _)) by lia.
    rewrite wrap_small by lia.
    replace (size + 4 + 7)
      with (((size + 4) mod 8 - 1) + ((size + 4) / 8 + 1) * 8) by lia.
    rewrite Z.div_add by lia.
    rewrite (Z.div_small ((size + 4) mod 8 - 1)) by lia. lia.
Qed.

Lemma required_bounds size :
  required size mod 8 = 0 ∧ size + 4 ≤ required size < size + 12.
Proof.
  unfold required, sizeof_blockHeader.
  pose proof (round_up8_spec (size + 4)). lia.
Qed.

Lemma required_min size : 0 < size → 8 ≤ required size.
Proof.
  intros Hs. pose proof (required_bounds size) as [_ Hb].
  unfold required, round_up8 in *. lia.
Qed.

(** ** The scan of balloc follows the block list *)

Lemma balloc_scan_chain fuel m req a rows e best bf :
  chain m a rows e → load m e = 1 → (length rows < fuel)%nat →
  balloc_scan fuel m req a best bf = Some (scan_rows req rows best bf).
Proof.
  revert a fuel best bf.
  induction rows as [|r rows IH]; simpl; intros a fuel best bf H He Hf.
  - subst a. destruct fuel as [|fuel]; [lia|]. simpl. by rewrite He.
  - destruct H as (Hb & Hl & Hr & H).
    destruct fuel as [|fuel]; [lia|]. cbn [balloc_scan].
    rewrite Hl, (hdr_not_end r Hr). cbv zeta.
    rewrite (hdr_free_test r Hr), (hdr_fr_size r Hr), Hb.
    destruct (negb (r_used r)); simpl; [|apply IH; done || lia].
    destruct (t_size r >=? req); [|apply IH; done || lia].
    destruct (t_size r =? req); [done|].
    destruct ((best =? NULL) || (t_size r <? bf)); apply IH; done || lia.
Qed.

Lemma balloc_scan_more fuel fuel' m req a best bf out :
  balloc_scan fuel m req a best bf = Some out → (fuel ≤ fuel')%nat →
  balloc_scan fuel' m req a best bf = Some out.
Proof.
  revert fuel' a best bf.
  induction fuel as [|fuel IH]; intros fuel' a best bf H Hle; [done|].
  destruct fuel' as [|fuel']; [lia|]. cbn [balloc_scan] in *.
  destruct (load m a =? 1); [done|]. cbv zeta in *.
  repeat match goal with
  | |- context [if ?c then _ else _] => destruct c
  end; try done; apply IH; done || lia.
Qed.

Lemma exact_dec req r : Decision (exact req r).
Proof. unfold exact. apply _. Defined.

Lemma first_exact_exists req rows :
  (∃ r, r ∈ rows ∧ exact req r) →
  ∃ pre r post, first_exact req rows pre r post.
Proof.
  induction rows as [|r0 rows IH]; intros (r & Hin & Hex).
  - by apply elem_of_nil in Hin.
  - destruct (exact_dec req r0) as [H0|H0].
    + exists [], r0, rows. split_and!; [done|done|].
      intros r' Hr'. by apply elem_of_nil in Hr'.
    + apply elem_of_cons in Hin as [->|Hin]; [done|].
      destruct IH as (pre & r1 & post & -> & Hex1 & Hpre); [by exists r|].
      exists (r0 :: pre), r1, post. split_and!; [done|done|].
      intros r' Hr'. apply elem_of_cons in Hr' as [->|Hr']; [done|].
      by apply Hpre.
Qed.

Lemma scan_rows_exact req rows pre r post best bf :
  first_exact req rows pre r post →
  scan_rows req rows best bf = ExactAt (t_begin r) (t_size r).
Proof.
  intros (-> & [Hfree Hsz] & Hpre). revert best bf.
  induction pre as [|r0 pre IH]; simpl; intros best bf.
  - rewrite Hfree, Hsz. simpl.
    replace (req >=? req) with true by lia.
    by rewrite Z.eqb_refl.
  - assert (H0 : ¬ exact req r0) by (apply Hpre; apply list_elem_of_here).
    assert (Hpre' : ∀ r', r' ∈ pre → ¬ exact req r')
      by (intros r' Hr'; apply Hpre; by apply list_elem_of_further).
    destruct (negb (r_used r0) && (t_size r0 >=? req)) eqn:E; [|by apply IH].
    destruct (Z.eqb_spec (t_size r0) req) as [Heq|Hne].
    + exfalso. apply H0. split; [|done].
      apply andb_true_iff in E as [E _]. by destruct (r_used r0).
    + destruct ((best =? NULL) || (t_size r0 <? bf)); by apply IH.
Qed.

Lemma scan_rows_best req rows best bf :
  (∀ r, r ∈ rows → ¬ exact req r) →
  (∀ r, r ∈ rows → t_begin r ≠ NULL) →
  ∃ b s, scan_rows req rows best bf = ScanEnd b s ∧
    ((b = best ∧ s = bf ∧
      ∀ r, r ∈ rows → fits req r → best ≠ NULL ∧ bf ≤ t_size r)
     ∨ (∃ pre r post, best_fit_at req rows pre r post ∧
          b = t_begin r ∧ s = t_size r ∧ (best ≠ NULL → t_size r < bf))).
Proof.
  revert best bf.
  induction rows as [|r0 rows IH]; simpl; intros best bf Hnex Hnn.
  - exists best, bf. split; [done|]. left. split_and!; try done.
    intros r Hr. by apply elem_of_nil in Hr.
  - assert (H0 : ¬ exact req r0) by (apply Hnex; apply list_elem_of_here).
    assert (Hb0 : t_begin r0 ≠ NULL) by (apply Hnn; apply list_elem_of_here).
    assert (Hnex' : ∀ r, r ∈ rows → ¬ exact req r)
      by (intros r' Hr'; apply Hnex; by apply list_elem_of_further).
    assert (Hnn' : ∀ r, r ∈ rows → t_begin r ≠ NULL)
      by (intros r' Hr'; apply Hnn; by apply list_elem_of_further).
    destruct (negb (r_used r0) && (t_size r0 >=? req)) eqn:E; cycle 1.
    { (* the block is in use or too small *)
      assert (Hnf : ¬ fits req r0).
      { intros [Hu Hs]. rewrite Hu in E. simpl in E. lia. }
      destruct (IH best bf Hnex' Hnn') as (b & s & Hscan & Hcase).
      exists b, s. split; [done|].
      destruct Hcase as [(-> & -> & Hall)|(pre & r & post & Hbf & Hrest)].
      - left. split_and!; try done. intros r Hr Hfit.
        apply elem_of_cons in Hr as [->|Hr]; [done|]. by apply Hall.
      - right. exists (r0 :: pre), r, post. split; [|done].
        destruct Hbf as (-> & Hfit & Hpre & Hpost).
        split_and!; try done.
        intros r' Hr' Hfit'. apply elem_of_cons in Hr' as [->|Hr']; [done|].
        by apply Hpre. }
    apply andb_true_iff in E as [Eu Es].
    assert (Hfit0 : fits req r0) by (split; [by destruct (r_used r0)|lia]).
    destruct (Z.eqb_spec (t_size r0) req) as [Heq|Hne].
    { exfalso. apply H0. split; [apply Hfit0|done]. }
    destruct ((best =? NULL) || (t_size r0 <? bf)) eqn:Eb.
    + (* the block becomes the best fit so far *)
      destruct (IH (t_begin r0) (t_size r0) Hnex' Hnn')
        as (b & s & Hscan & Hcase).
      exists b, s. split; [done|]. right.
      destruct Hcase as [(-> & -> & Hall)|(pre & r & post & Hbf & Hrest)].
      * exists [], r0, rows. split_and!; try done.
        -- split_and!; try done.
           ++ intros r' Hr'. by apply elem_of_nil in Hr'.
           ++ intros r' Hr' Hfit'. by apply Hall.
        -- intros Hbest. apply orb_true_iff in Eb as [Eb|Eb]; lia.
      * destruct Hbf as (-> & Hfit & Hpre & Hpost).
        destruct Hrest as (-> & -> & Hlt). specialize (Hlt Hb0).
        exists (r0 :: pre), r, post. split_and!; try done.
        -- split_and!; try done.
           intros r' Hr' Hfit'.
           apply elem_of_cons in Hr' as [->|Hr']; [done|]. by apply Hpre.
        -- intros Hbest. apply orb_true_iff in Eb as [Eb|Eb]; lia.
    + (* the best fit so far is kept *)
      apply orb_false_iff in Eb as [Eb1 Eb2].
      destruct (IH best bf Hnex' Hnn') as (b & s & Hscan & Hcase).
      exists b, s. split; [done|].
      destruct Hcase as [(-> & -> & Hall)|(pre & r & post & Hbf & Hrest)].
      * left. split_and!; try done. intros r Hr Hfit.
        apply elem_of_cons in Hr as [->|Hr]; [|by apply Hall].
        split; lia.
      * right. destruct Hbf as (-> & Hfit & Hpre & Hpost).
        destruct Hrest as (-> & -> & Hlt).
        exists (r0 :: pre), r, post. split_and!; try done.
        split_and!; try done.
        intros r' Hr' Hfit'.
        apply elem_of_cons in Hr' as [->|Hr']; [|by apply Hpre].
        assert (best ≠ NULL) by lia. specialize (Hlt H). lia.
Qed.

(** ** balloc on a heap that satisfies the invariant *)

Lemma begins_app (rows1 rows2 : list row) :
  t_begin <$> (rows1 ++ rows2) = (t_begin <$> rows1) ++ (t_begin <$> rows2).
Proof. apply fmap_app. Qed.

Lemma heap_inv_split {closed} st pre r post :
  heap_inv_at closed st (pre ++ r :: post) →
  let m := mem st in
  let a := heap_start st in
  let e := heap_start st + alloc_size st in
  chain m a pre (t_begin r) ∧ load m (t_begin r) = size_status r ∧ row_ok r ∧
  chain m (t_begin r + t_size r) post e ∧
  a ≤ t_begin r ∧ t_begin r + t_size r ≤ e ∧
  r_prev_used r = last_used true pre ∧
  pbits_ok true pre ∧ pbits_ok (r_used r) post.
Proof.
  intros Hinv. cbv zeta.
  pose proof (inv_chain _ _ Hinv) as Hc.
  apply chain_app in Hc as [Hpre Hc]. simpl in Hc.
  destruct Hc as (Hb & Hl & Hr & Hpost). rewrite <- Hb in *.
  pose proof (chain_le _ _ _ _ Hpre). pose proof (chain_le _ _ _ _ Hpost).
  pose proof (inv_pbits _ _ Hinv) as Hp.
  apply pbits_app in Hp as [Hp1 Hp2]. simpl in Hp2. destruct Hp2 as [Hp2 Hp3].
  split_and!; done.
Qed.

Lemma balloc_exact_inv {closed} st pre r post :
  heap_inv_at closed st (pre ++ r :: post) → r_used r = false →
  let m := mem st in
  let frontier := t_begin r in
  let m1 := store m frontier (add (load m frontier) 1) in
  let next := frontier + t_size r in
  let m2 :=
    if negb (load m1 next =? 1)
    then store m1 next (add (load m1 next) 2)
    else m1 in
  heap_inv_at closed (set_mem st m2) (alloc_exact pre r post).
Proof.
  intros Hinv Hfree. cbv zeta.
  destruct (heap_inv_split _ _ _ _ Hinv)
    as (Hpre & Hl & Hr & Hpost & Hlo & Hhi & Hp & Hp1 & Hp3).
  cbv zeta in *.
  set (m := mem st) in *. set (a := heap_start st) in *.
  set (e := a + alloc_size st) in *.
  set (f := t_begin r) in *.
  pose proof (hdr_bounds r Hr) as Hhb.
  pose proof (chain_total _ _ _ _ Hpre) as Hf.
  destruct Hr as [[Hrlo Hrhi] Hr8].
  rewrite Hl.
  assert (Hadd1 : add (size_status r) 1 = size_status (Row true (r_prev_used r) f (t_size r))).
  { unfold add. rewrite wrap_small by lia. unfold size_status. simpl.
    rewrite Hfree. simpl. lia. }
  rewrite Hadd1.
  set (r1 := Row true (r_prev_used r) f (t_size r)) in *.
  rewrite load_store_ne by lia.
  assert (Hend : load m e = 1) by apply Hinv.
  destruct post as [|r2 post].
  - (* the block is the last one: the next word is the end mark *)
    simpl in Hpost. rewrite Hpost, Hend. simpl negb. cbv iota.
    constructor; try apply Hinv; simpl; fold m a e f.
    + unfold alloc_exact. apply chain_app. rewrite <- Hf. split.
      * eapply chain_frame; [apply Hpre|].
        intros x Hx. apply load_store_ne. lia.
      * simpl. rewrite load_store_eq. split_and!; try done.
    + rewrite load_store_ne by lia. done.
    + unfold alloc_exact. apply pbits_app. split; [done|]. simpl. done.
    + intros Hclosed. eapply quiet_update; [by apply Hinv| |].
      * intros x. unfold alloc_exact. rewrite !begins_app. done.
      * intros x Hx Hnin. apply load_store_ne. intros ->.
        apply Hnin. unfold alloc_exact. rewrite begins_app.
        apply elem_of_app. right. simpl. apply list_elem_of_here.
  - (* the next block learns that its predecessor is in use *)
    simpl in Hpost. destruct Hpost as (Hb2 & Hl2 & Hr2 & Hpost).
    simpl in Hp3. destruct Hp3 as [Hp2 Hp3]. rewrite Hfree in Hp2.
    pose proof (hdr_bounds r2 Hr2) as Hhb2.
    rewrite Hl2, (hdr_not_end r2 Hr2). simpl negb. cbv iota.
    assert (Hadd2 : add (size_status r2) 2
                    = size_status (Row (r_used r2) true (t_begin r2) (t_size r2))).
    { unfold add. rewrite wrap_small by lia. unfold size_status. simpl.
      rewrite Hp2. simpl. lia. }
    rewrite Hadd2.
    set (r2' := Row (r_used r2) true (t_begin r2) (t_size r2)) in *.
    pose proof (chain_le _ _ _ _ Hpost) as Hle2.
    destruct Hr2 as [[Hr2lo Hr2hi] Hr28].
    constructor; try apply Hinv; simpl; fold m a e f.
    + unfold alloc_exact. apply chain_app. rewrite <- Hf. split.
      * eapply chain_frame; [apply Hpre|].
        intros x Hx. rewrite !load_store_ne by lia. done.
      * simpl. fold r1 r2'.
        split_and!; try done.
        -- rewrite load_store_ne by lia. apply load_store_eq.
        -- apply load_store_eq.
        -- eapply chain_frame; [apply Hpost|].
           intros x Hx. rewrite !load_store_ne by lia. done.
    + rewrite !load_store_ne by lia. done.
    + unfold alloc_exact. apply pbits_app. split; [done|]. simpl. done.
    + intros Hclosed. eapply quiet_update; [by apply Hinv| |].
      * intros x. unfold alloc_exact. rewrite !begins_app. done.
      * intros x Hx Hnin.
        assert (x ≠ f ∧ x ≠ f + t_size r) as [??].
        { split; intros ->; apply Hnin; unfold alloc_exact;
            rewrite begins_app; apply elem_of_app; right; simpl.
          - apply list_elem_of_here.
          - apply list_elem_of_further. rewrite Hb2. apply list_elem_of_here. }
        rewrite !load_store_ne by done. done.
Qed.

Lemma balloc_split_inv {closed} st pre r post req :
  heap_inv_at closed st (pre ++ r :: post) → r_used r = false →
  8 ≤ req → req mod 8 = 0 → req < t_size r →
  let m := mem st in
  let best_fit := t_begin r in
  let bf_size := t_size r in
  let free_block := best_fit + req in
  let m1 := store m free_block (add (sub bf_size req) 2) in
  let m2 :=
    store m1 best_fit (add (add req (crem (load m1 best_fit) 8)) 1) in
  heap_inv_at closed (set_mem st m2) (alloc_split req pre r post).
Proof.
  intros Hinv Hfree Hreq Hreq8 Hlt. cbv zeta.
  destruct (heap_inv_split _ _ _ _ Hinv)
    as (Hpre & Hl & Hr & Hpost & Hlo & Hhi & Hp & Hp1 & Hp3).
  cbv zeta in *.
  set (m := mem st) in *. set (a := heap_start st) in *.
  set (e := a + alloc_size st) in *.
  set (f := t_begin r) in *.
  pose proof (hdr_bounds r Hr) as Hhb.
  pose proof (hdr_crem r Hr) as Hrem. rewrite Hfree in Hrem. simpl in Hrem.
  pose proof (chain_total _ _ _ _ Hpre) as Hf.
  pose proof (chain_le _ _ _ _ Hpost) as Hle.
  destruct Hr as [[Hrlo Hrhi] Hr8]. unfold max_capacity in *.
  assert (Hrest : 8 ≤ t_size r - req ∧ (t_size r - req) mod 8 = 0).
  { apply Z.mod_divide in Hr8; [|lia]. destruct Hr8 as [k Hk].
    apply Z.mod_divide in Hreq8; [|lia]. destruct Hreq8 as [j Hj].
    rewrite Hk, Hj. replace (k * 8 - j * 8) with ((k - j) * 8) by lia.
    rewrite Z.mod_mul by lia. lia. }
  destruct Hrest as [Hrest Hrest8].
  rewrite load_store_ne by lia. rewrite Hl, Hrem.
  set (r1 := Row true (r_prev_used r) f req).
  set (r2 := Row false true (f + req) (t_size r - req)).
  assert (H1 : add (add req (2 * b2z (r_prev_used r) + 0)) 1 = size_status r1).
  { unfold add, size_status. simpl.
    rewrite (wrap_small (req + _)) by (destruct (r_prev_used r); simpl; lia).
    rewrite wrap_small by (destruct (r_prev_used r); simpl; lia). lia. }
  assert (H2 : add (sub (t_size r) req) 2 = size_status r2).
  { unfold add, sub, size_status. simpl.
    rewrite (wrap_small (t_size r - req)) by lia.
    rewrite wrap_small by lia. lia. }
  rewrite H1, H2.
  assert (Hend : load m e = 1) by apply Hinv.
  constructor; try apply Hinv; simpl; fold m a e f.
  - unfold alloc_split. apply chain_app. rewrite <- Hf. split.
    + eapply chain_frame; [apply Hpre|].
      intros x Hx. rewrite !load_store_ne by lia. done.
    + fold r1 r2. simpl. split_and!; try done.
      * apply load_store_eq.
      * unfold row_ok, max_capacity. simpl. split; [lia|done].
      * rewrite load_store_ne by lia. apply load_store_eq.
      * unfold row_ok, max_capacity. simpl. split; [lia|done].
      * replace (f + req + (t_size r - req)) with (f + t_size r) by lia.
        eapply chain_frame; [apply Hpost|].
        intros x Hx. rewrite !load_store_ne by lia. done.
  - rewrite !load_store_ne by lia. done.
  - unfold alloc_split. apply pbits_app. split; [done|]. simpl.
    rewrite Hfree in Hp3. done.
  - intros Hclosed. eapply quiet_update; [by apply Hinv| |].
    + intros x. unfold alloc_split. rewrite !begins_app. simpl.
      rewrite !elem_of_app, !elem_of_cons. tauto.
    + intros x Hx Hnin.
      assert (x ≠ f ∧ x ≠ f + req) as [??].
      { split; intros ->; apply Hnin; unfold alloc_split;
          rewrite begins_app; apply elem_of_app; right; simpl.
        - apply list_elem_of_here.
        - apply list_elem_of_further, list_elem_of_here. }
      rewrite !load_store_ne by done. done.
Qed.

Lemma heap_inv_begins {closed} st rows r :
  heap_inv_at closed st rows → r ∈ rows →
  t_begin r ≠ NULL ∧ t_begin r mod 8 = 4 ∧ t_size r ≤ alloc_size st.
Proof.
  intros Hinv Hin.
  destruct (chain_begin_range _ _ _ _ _ (inv_chain _ _ Hinv) Hin)
    as (Hlo & Hhi & _ & _).
  pose proof (chain_begin_mod _ _ _ _ _ (inv_chain _ _ Hinv) Hin) as Hm.
  destruct (inv_start _ _ Hinv) as [Hpos H4].
  unfold NULL. split_and!; try lia.
  replace (t_begin r) with ((t_begin r - heap_start st) + heap_start st)
    by lia.
  rewrite Z.add_mod, Hm, H4 by lia. done.
Qed.

(** What [balloc] does on a heap that satisfies the invariant, by the three
    ways the scan of the block list can end. *)
Lemma balloc_inv_cases {closed} st rows size :
  heap_inv_at closed st rows → 0 < size ≤ alloc_size st →
  let req := required size in
  (∃ pre r post, first_exact req rows pre r post ∧
     (∀ fuel, (length rows < fuel)%nat →
        ∃ st', balloc fuel st size = Some (t_begin r + 4, st') ∧
               heap_inv_at closed st' (alloc_exact pre r post)))
  ∨ ((∀ r, r ∈ rows → ¬ exact req r) ∧
     ∃ pre r post, best_fit_at req rows pre r post ∧
     (∀ fuel, (length rows < fuel)%nat →
        ∃ st', balloc fuel st size = Some (t_begin r + 4, st') ∧
               heap_inv_at closed st' (alloc_split req pre r post)))
  ∨ ((∀ r, r ∈ rows → ¬ fits req r) ∧
     (∀ fuel, (length rows < fuel)%nat →
        balloc fuel st size = Some (NULL, st))).
Proof.
  intros Hinv Hsize. cbv zeta.
  pose proof (inv_size _ _ Hinv) as [[Halo Hahi] Ha8].
  assert (Hreq : padded_block_size size = required size)
    by (apply padded_block_size_required; lia).
  destruct (required_bounds size) as [Hreq8 Hreqb].
  assert (Hvalid : (size <=? 0) || (size >? alloc_size st) = false).
  { apply orb_false_iff. split; lia. }
  assert (Hscan : ∀ fuel, (length rows < fuel)%nat →
            balloc_scan fuel (mem st) (required size) (heap_start st) NULL 0
            = Some (scan_rows (required size) rows NULL 0)).
  { intros fuel Hfuel. eapply balloc_scan_chain; [apply Hinv|apply Hinv|done]. }
  destruct (decide (Exists (exact (required size)) rows)) as [Hex|Hnex].
  - (* some free block has exactly the required size *)
    left. apply Exists_exists in Hex.
    destruct (first_exact_exists _ _ Hex) as (pre & r & post & Hfirst).
    exists pre, r, post. split; [done|]. intros fuel Hfuel.
    unfold balloc. rewrite Hvalid, Hreq, (Hscan fuel Hfuel).
    rewrite (scan_rows_exact _ _ _ _ _ _ _ Hfirst).
    destruct Hfirst as (-> & [Hfree Hsz] & _).
    eexists. split; [reflexivity|].
    by apply balloc_exact_inv.
  - assert (Hnone : ∀ r, r ∈ rows → ¬ exact (required size) r).
    { intros r Hr Hexact. apply Hnex, Exists_exists. by exists r. }
    right.
    destruct (scan_rows_best (required size) rows NULL 0 Hnone)
      as (b & s & Hout & Hcase).
    { intros r Hr. by destruct (heap_inv_begins _ _ _ Hinv Hr). }
    destruct Hcase as [(-> & -> & Hall)|(pre & r & post & Hbest & -> & -> & _)].
    + (* no free block is large enough *)
      right. split.
      * intros r Hr Hfit. by destruct (Hall r Hr Hfit).
      * intros fuel Hfuel.
        unfold balloc. rewrite Hvalid, Hreq, (Hscan fuel Hfuel), Hout.
        done.
    + (* the best fit is split *)
      left. split; [done|]. exists pre, r, post. split; [done|].
      intros fuel Hfuel.
      unfold balloc. rewrite Hvalid, Hreq, (Hscan fuel Hfuel), Hout.
      destruct Hbest as (-> & [Hfree Hfit] & _).
      assert (Hin : r ∈ pre ++ r :: post)
        by (apply elem_of_app; right; apply list_elem_of_here).
      destruct (heap_inv_begins _ _ _ Hinv Hin) as (Hnn & _ & _).
      destruct (Z.eqb_spec (t_begin r) NULL) as [?|_]; [done|].
      eexists. split; [reflexivity|].
      apply balloc_split_inv; try done.
      { apply required_min; lia. }
      assert (t_size r ≠ required size).
      { intros Heq. apply (Hnone r Hin). by split. }
      lia.
Qed.

(** ** bfree *)

Lemma bfree_codes st ptr : (bfree st ptr).1 = -1 ∨ (bfree st ptr).1 = 0.
Proof.
  unfold bfree.
  repeat match goal with
  | |- context [if ?c then _ else _] => destruct c
  end; simpl; auto.
Qed.

(** A failing [bfree] returns the state it was given. *)
Lemma bfree_fail_unchanged st ptr :
  (bfree st ptr).1 = -1 → (bfree st ptr).2 = st.
Proof.
  unfold bfree. cbv zeta.
  repeat match goal with
  | |- context [if ?c then (_, _) else _] => destruct c
  end; simpl; done.
Qed.

(** The test [bfree] performs, on any state. *)
Lemma bfree_fails_raw st ptr :
  (bfree st ptr).1 = -1 ↔
  ptr = NULL ∨ ptr mod 8 ≠ 0 ∨
  ptr < heap_start st ∨ heap_start st + alloc_size st < ptr ∨
  crem (load (mem st) (ptr - 4)) 8 = 0 ∨
  crem (load (mem st) (ptr - 4)) 8 = 2.
Proof.
  unfold bfree, sizeof_blockHeader. cbv zeta.
  destruct (Z.eqb_spec ptr NULL) as [?|Hnn]; simpl; [tauto|].
  destruct (Z.eqb_spec (crem (wrap ptr) 8) 0) as [Hal|Hal]; simpl; cycle 1.
  { rewrite aligned_iff in Hal. tauto. }
  rewrite aligned_iff in Hal.
  destruct (Z.ltb_spec ptr (heap_start st)) as [?|Hlo]; simpl; [tauto|].
  destruct (Z.gtb_spec ptr (heap_start st + alloc_size st)) as [?|Hhi];
    simpl; [tauto|].
  destruct (Z.eqb_spec (crem (load (mem st) (ptr - 4)) 8) 0) as [?|H0];
    simpl; [tauto|].
  destruct (Z.eqb_spec (crem (load (mem st) (ptr - 4)) 8) 2) as [?|H2];
    simpl; [tauto|].
  split; [done|]. intros H. exfalso. lia.
Qed.

Lemma isAllocated_hdr r : row_ok r → isAllocated (size_status r) = r_used r.
Proof. intros Hr. by destruct (disp_heap_row r Hr) as (Hu & _ & _). Qed.

Lemma predecessorAllocated_hdr r :
  row_ok r → predecessorAllocated (size_status r) = r_prev_used r.
Proof.
  intros Hr. unfold predecessorAllocated.
  rewrite (land_low _ 2 3) by lia. change (2 ^ 3) with 8.
  rewrite (hdr_mod8 r Hr). by destruct (r_prev_used r), (r_used r).
Qed.

(** An aligned pointer within the bounds has its header word at a possible
    header position of the region. *)
Lemma header_position {closed} st rows ptr :
  heap_inv_at closed st rows →
  ptr mod 8 = 0 → heap_start st ≤ ptr ≤ heap_start st + alloc_size st →
  heap_start st ≤ ptr - 4 < heap_start st + alloc_size st ∧
  (ptr - 4 - heap_start st) mod 8 = 0.
Proof.
  intros Hinv Hal Hb.
  destruct (inv_start _ _ Hinv) as [_ H4].
  destruct (inv_size _ _ Hinv) as [_ H8].
  pose proof (Z.div_mod ptr 8 ltac:(lia)) as Hp.
  pose proof (Z.div_mod (heap_start st) 8 ltac:(lia)) as Hs.
  pose proof (Z.div_mod (alloc_size st) 8 ltac:(lia)) as Ha.
  rewrite Hal in Hp. rewrite H4 in Hs. rewrite H8 in Ha.
  split; [lia|].
  replace (ptr - 4 - heap_start st)
    with ((ptr / 8 - heap_start st / 8 - 1) * 8) by lia.
  apply Z.mod_mul. lia.
Qed.

Lemma begins_split (rows : list row) x :
  x ∈ (t_begin <$> rows) →
  ∃ pre r post, rows = pre ++ r :: post ∧ t_begin r = x.
Proof.
  intros Hin. apply list_elem_of_fmap in Hin as (r & -> & Hin).
  apply list_elem_of_split in Hin as (pre & post & ->).
  by exists pre, r, post.
Qed.

Lemma bfree_release_inv {closed} st pre r post :
  heap_inv_at closed st (pre ++ r :: post) → r_used r = true →
  bfree st (t_begin r + 4)
  = (0, (bfree st (t_begin r + 4)).2) ∧
  heap_inv_at closed (bfree st (t_begin r + 4)).2 (release pre r post).
Proof.
  intros Hinv Hused.
  assert (Hin : r ∈ pre ++ r :: post)
    by (apply elem_of_app; right; apply list_elem_of_here).
  destruct (heap_inv_begins _ _ _ Hinv Hin) as (Hnn & Hm4 & _).
  destruct (heap_inv_split _ _ _ _ Hinv)
    as (Hpre & Hl & Hr & Hpost & Hlo & Hhi & Hp & Hp1 & Hp3).
  cbv zeta in *.
  pose proof (hdr_bounds r Hr) as Hhb.
  pose proof (hdr_crem r Hr) as Hrem. rewrite Hused in Hrem. simpl in Hrem.
  pose proof (hdr_fr_size r Hr) as Hsz.
  pose proof (chain_total _ _ _ _ Hpre) as Hf.
  assert (Hend : load (mem st) (heap_start st + alloc_size st) = 1)
    by apply Hinv.
  destruct (inv_start _ _ Hinv) as [Hpos _].
  unfold bfree, sizeof_blockHeader. cbv zeta.
  unfold NULL in *.
  destruct (Z.eqb_spec (t_begin r + 4) 0) as [?|_]; [lia|]. simpl.
  assert (Hal : crem (wrap (t_begin r + 4)) 8 = 0).
  { apply aligned_iff. rewrite Z.add_mod, Hm4 by lia. done. }
  rewrite Hal. simpl.
  destruct (Z.ltb_spec (t_begin r + 4) (heap_start st)) as [?|_]; [lia|].
  destruct Hr as [[Hrlo Hrhi] Hr8].
  destruct (Z.gtb_spec (t_begin r + 4) (heap_start st + alloc_size st))
    as [?|_]; [lia|]. simpl.
  replace (t_begin r + 4 - 4) with (t_begin r) by lia.
  rewrite Hl, Hsz, Hrem.
  replace ((2 * b2z (r_prev_used r) + 1 =? 0)
           || (2 * b2z (r_prev_used r) + 1 =? 2)) with false
    by (by destruct (r_prev_used r)).
  set (m := mem st) in *. set (a := heap_start st) in *.
  set (e := a + alloc_size st) in *. set (f := t_begin r) in *.
  set (r1 := Row false (r_prev_used r) f (t_size r)).
  assert (H1 : sub (size_status r) 1 = size_status r1).
  { unfold sub. rewrite wrap_small by lia. unfold size_status. simpl.
    rewrite Hused. simpl. lia. }
  destruct post as [|r2 post].
  - simpl in Hpost. rewrite Hpost, Hend. simpl negb. cbv iota.
    rewrite Hl, H1. simpl. split; [done|].
    constructor; try apply Hinv; simpl; fold m a e f.
    + unfold release. apply chain_app. rewrite <- Hf. split.
      * eapply chain_frame; [apply Hpre|].
        intros x Hx. apply load_store_ne. lia.
      * simpl. fold r1. rewrite load_store_eq. split_and!; try done.
    + rewrite load_store_ne by lia. done.
    + unfold release. apply pbits_app. split; [done|]. simpl. done.
    + intros Hclosed. eapply quiet_update; [by apply Hinv| |].
      * intros x. unfold release. rewrite !begins_app. done.
      * intros x Hx Hnin. apply load_store_ne. intros ->.
        apply Hnin. unfold release. rewrite begins_app.
        apply elem_of_app. right. simpl. apply list_elem_of_here.
  - simpl in Hpost. destruct Hpost as (Hb2 & Hl2 & Hr2 & Hpost).
    simpl in Hp3. destruct Hp3 as [Hp2 Hp3]. rewrite Hused in Hp2.
    pose proof (hdr_bounds r2 Hr2) as Hhb2.
    rewrite Hl2, (hdr_not_end r2 Hr2). simpl negb. cbv iota.
    set (r2' := Row (r_used r2) false (t_begin r2) (t_size r2)).
    assert (H2 : sub (size_status r2) 2 = size_status r2').
    { unfold sub. rewrite wrap_small by lia. unfold size_status. simpl.
      rewrite Hp2. simpl. lia. }
    rewrite H2, load_store_ne, Hl, H1 by lia.
    pose proof (chain_le _ _ _ _ Hpost) as Hle2.
    destruct Hr2 as [[Hr2lo Hr2hi] Hr28].
    simpl. split; [done|].
    constructor; try apply Hinv; simpl; fold m a e f.
    + unfold release. apply chain_app. rewrite <- Hf. split.
      * eapply chain_frame; [apply Hpre|].
        intros x Hx. rewrite !load_store_ne by lia. done.
      * simpl. fold r1 r2'. split_and!; try done.
        -- apply load_store_eq.
        -- rewrite load_store_ne by lia. apply load_store_eq.
        -- eapply chain_frame; [apply Hpost|].
           intros x Hx. rewrite !load_store_ne by lia. done.
    + rewrite !load_store_ne by lia. done.
    + unfold release. apply pbits_app. split; [done|]. simpl. done.
    + intros Hclosed. eapply quiet_update; [by apply Hinv| |].
      * intros x. unfold release. rewrite !begins_app. done.
      * intros x Hx Hnin.
        assert (x ≠ f ∧ x ≠ f + t_size r) as [??].
        { split; intros ->; apply Hnin; unfold release;
            rewrite begins_app; apply elem_of_app; right; simpl.
          - apply list_elem_of_here.
          - apply list_elem_of_further. rewrite Hb2. apply list_elem_of_here. }
        rewrite !load_store_ne by done. done.
Qed.

(** On a heap that satisfies the invariant, [bfree] either fails and changes
    nothing, or was given the payload address of a block in use and releases
    exactly that block. *)
Lemma bfree_inv_cases st rows ptr :
  heap_inv st rows →
  ((bfree st ptr).1 = -1 ∧ (bfree st ptr).2 = st ∧
   ¬ (∃ r, r ∈ rows ∧ ptr = t_begin r + 4 ∧ r_used r = true))
  ∨ (∃ pre r post, rows = pre ++ r :: post ∧ ptr = t_begin r + 4 ∧
       r_used r = true ∧ (bfree st ptr).1 = 0 ∧
       heap_inv (bfree st ptr).2 (release pre r post)).
Proof.
  intros Hinv.
  destruct (bfree_codes st ptr) as [Hfail|Hok].
  - left. split_and!; [done|by apply bfree_fail_unchanged|].
    intros (r & Hin & -> & Hused).
    apply list_elem_of_split in Hin as (pre & post & ->).
    destruct (bfree_release_inv _ _ _ _ Hinv Hused) as [Heq _].
    rewrite Heq in Hfail. simpl in Hfail. lia.
  - right.
    assert (Hpass : ¬ (bfree st ptr).1 = -1) by lia.
    rewrite bfree_fails_raw in Hpass.
    assert (Hal : ptr mod 8 = 0) by (destruct (decide (ptr mod 8 = 0)); tauto).
    assert (Hb : heap_start st ≤ ptr ≤ heap_start st + alloc_size st) by lia.
    destruct (header_position _ _ _ Hinv Hal Hb) as [Hx Hxm].
    destruct (inv_quiet _ _ Hinv eq_refl _ Hx Hxm) as [Hin|Hq]; [|tauto].
    apply begins_split in Hin as (pre & r & post & -> & Hbeg).
    assert (Hptr : ptr = t_begin r + 4) by lia.
    destruct (heap_inv_split _ _ _ _ Hinv) as (_ & Hl & Hr & _).
    cbv zeta in Hl. rewrite Hbeg in Hl.
    assert (Hused : r_used r = true).
    { destruct (r_used r) eqn:E; [done|]. exfalso.
      rewrite Hl, (hdr_crem r Hr), E in Hpass.
      destruct (r_prev_used r); simpl in Hpass; tauto. }
    exists pre, r, post. subst ptr.
    destruct (bfree_release_inv _ _ _ _ Hinv Hused) as [Heq Hinv'].
    split_and!; try done.
Qed.

(** ** Runs of free blocks *)

Lemma free_past_run rows : free_run rows ++ past_run rows = rows.
Proof.
  induction rows as [|r rows IH]; simpl; [done|].
  destruct (r_used r); simpl; [done|]. by rewrite IH.
Qed.

Lemma past_run_length rows : (length (past_run rows) ≤ length rows)%nat.
Proof.
  induction rows as [|r rows IH]; simpl; [done|].
  destruct (r_used r); simpl; lia.
Qed.

Lemma free_run_length rows : (length (free_run rows) ≤ length rows)%nat.
Proof.
  induction rows as [|r rows IH]; simpl; [done|].
  destruct (r_used r); simpl; lia.
Qed.

Lemma past_run_head rows :
  match past_run rows with [] => True | r :: _ => r_used r = true end.
Proof.
  induction rows as [|r rows IH]; simpl; [done|].
  destruct (r_used r) eqn:E; simpl; done.
Qed.

Lemma free_run_pbits rows :
  pbits_ok false rows →
  Forall (fun r => r_used r = false ∧ r_prev_used r = false) (free_run rows).
Proof.
  induction rows as [|r rows IH]; simpl; intros H; [constructor|].
  destruct H as [Hp H]. destruct (r_used r) eqn:E; constructor.
  - done.
  - by apply IH.
Qed.

Lemma past_run_pbits rows :
  pbits_ok false rows → pbits_ok false (past_run rows).
Proof.
  induction rows as [|r rows IH]; simpl; intros H; [done|].
  destruct H as [Hp H]. destruct (r_used r) eqn:E.
  - simpl. by rewrite E.
  - by apply IH.
Qed.

Lemma total_size_mod8 m a rows e :
  chain m a rows e → total_size rows mod 8 = 0.
Proof.
  revert a. induction rows as [|r rows IH]; simpl; intros a H; [done|].
  destruct H as (_ & _ & [_ Hr8] & H).
  rewrite Z.add_mod, Hr8, (IH _ H) by lia. done.
Qed.

Lemma runs_used r rows :
  r_used r = true → runs (r :: rows) = [r] :: runs rows.
Proof.
  intros Hu. unfold runs. simpl. fold (runs rows). unfold join.
  rewrite Hu. simpl. by destruct (runs rows) as [|[|??] ?].
Qed.

Lemma runs_free r rows :
  r_used r = false →
  runs (r :: rows) = (r :: free_run rows) :: runs (past_run rows).
Proof.
  revert r. induction rows as [|r1 rows IH]; intros r Hf; [done|].
  change (runs (r :: r1 :: rows)) with (join r (runs (r1 :: rows))).
  simpl free_run. simpl past_run.
  destruct (r_used r1) eqn:E1.
  - rewrite (runs_used r1 rows E1). unfold join. by rewrite Hf, E1.
  - rewrite (IH r1 E1). unfold join. by rewrite Hf, E1.
Qed.

Lemma coalesced_used r rows :
  r_used r = true → coalesced (r :: rows) = r :: coalesced rows.
Proof.
  intros Hu. unfold coalesced. rewrite (runs_used r rows Hu). simpl.
  f_equal. destruct r; simpl. f_equal. lia.
Qed.

Lemma coalesced_free r rows :
  r_used r = false →
  coalesced (r :: rows)
  = Row false (r_prev_used r) (t_begin r)
        (t_size r + total_size (free_run rows))
    :: coalesced (past_run rows).
Proof.
  intros Hf. unfold coalesced. rewrite (runs_free r rows Hf). simpl.
  by rewrite Hf.
Qed.

Lemma has_merge_used r rows :
  r_used r = true → has_merge (r :: rows) = has_merge rows.
Proof. intros Hu. unfold has_merge. by rewrite (runs_used r rows Hu). Qed.

Lemma has_merge_free r rows :
  r_used r = false →
  has_merge (r :: rows)
  = match free_run rows with [] => false | _ => true end
    || has_merge (past_run rows).
Proof.
  intros Hf. unfold has_merge. rewrite (runs_free r rows Hf). simpl.
  by destruct (free_run rows).
Qed.

(** ** The loops of coalesce follow the block list *)

Lemma coalesce_absorb_run fuel m next run rest e fr count :
  chain m next (run ++ rest) e → load m e = 1 →
  Forall (fun r => r_used r = false ∧ r_prev_used r = false) run →
  match rest with [] => True | r :: _ => r_used r = true end →
  0 ≤ fr → fr + total_size run ≤ max_capacity →
  (length run < fuel)%nat →
  coalesce_absorb fuel m next fr count
  = Some (fr + total_size run, next + total_size run,
          match run with [] => count | _ => 1 end).
Proof.
  revert fuel next fr count.
  induction run as [|r run IH]; intros fuel next fr count Hc He Hrun Hrest
    Hfr Hsum Hfuel; (destruct fuel as [|fuel]; [simpl in Hfuel; lia|]).
  - simpl in *. rewrite !Z.add_0_r.
    destruct rest as [|r rest]; simpl in Hc.
    + subst next. by rewrite He.
    + destruct Hc as (_ & Hl & Hr & _).
      rewrite Hl, (hdr_quiet_test r Hr), Hrest, andb_false_r. done.
  - simpl in Hc. destruct Hc as (Hb & Hl & Hr & Hc).
    apply Forall_cons in Hrun as [[Hu Hp] Hrun].
    assert (Hh : size_status r = t_size r).
    { unfold size_status. rewrite Hu, Hp. simpl. lia. }
    pose proof Hc as Hc'. apply chain_app in Hc' as [Hc' _].
    pose proof (total_size_nonneg _ _ _ _ Hc') as Hnn.
    destruct Hr as [[Hrlo Hrhi] Hr8].
    cbn [coalesce_absorb]. rewrite Hl, Hh.
    assert (Hq : crem (t_size r) 8 = 0) by (by apply crem_zero_iff).
    rewrite Hq.
    replace (t_size r =? 1) with false by lia. simpl negb. simpl andb.
    cbv iota. simpl total_size in *.
    unfold add. unfold max_capacity in *.
    rewrite wrap_small by lia.
    rewrite (IH fuel (next + t_size r) (fr + t_size r) 1); try done;
      try lia; simpl in Hfuel; try lia.
    f_equal. f_equal; [f_equal; lia | by destruct run].
Qed.

Lemma begins_in_range m a rows e x :
  chain m a rows e → x ∈ (t_begin <$> rows) → a ≤ x < e.
Proof.
  intros Hc Hin. apply list_elem_of_fmap in Hin as (r & -> & Hin).
  destruct (chain_begin_range _ _ _ _ _ Hc Hin) as (? & ? & [[??] _] & _).
  lia.
Qed.

Lemma coalesce_loop_chain n :
  ∀ rows fuel m a e count,
    (length rows ≤ n)%nat →
    chain m a rows e → load m e = 1 → e - a ≤ max_capacity →
    pbits_ok (match rows with [] => true | r :: _ => r_prev_used r end) rows →
    (length rows < fuel)%nat →
    ∃ m',
      coalesce_loop fuel m a count
      = Some (if has_merge rows then 1 else count, m') ∧
      chain m' a (coalesced rows) e ∧
      (∀ x, x ∉ (t_begin <$> coalesced rows) →
            load m' x = load m x ∧
            (x ∈ (t_begin <$> rows) → crem (load m x) 8 = 0)).
Proof.
  induction n as [|n IH]; intros rows fuel m a e count Hn Hc He Hcap Hp Hfuel.
  { destruct rows; [|simpl in Hn; lia]. simpl in Hc. subst a.
    destruct fuel as [|fuel]; [lia|]. exists m. simpl. rewrite He.
    split_and!; done. }
  destruct rows as [|r rows].
  { simpl in Hc. subst a. destruct fuel as [|fuel]; [simpl in Hfuel; lia|].
    exists m. simpl. rewrite He.
    split_and!; done. }
  simpl in Hn, Hfuel. destruct fuel as [|fuel]; [lia|].
  simpl in Hc. destruct Hc as (Hb & Hl & Hr & Hc).
  simpl in Hp. destruct Hp as [_ Hp].
  pose proof (chain_total _ _ _ _ Hc) as Htot.
  pose proof (total_size_nonneg _ _ _ _ Hc) as Hnn.
  pose proof (hdr_bounds r Hr) as Hhb.
  cbn [coalesce_loop]. rewrite Hl, (hdr_not_end r Hr). cbv zeta.
  rewrite (hdr_free_test r Hr), (hdr_fr_size r Hr).
  destruct (r_used r) eqn:Eu; simpl negb; cbv iota.
  - (* a block in use is skipped *)
    assert (Hp' : pbits_ok
              (match rows with [] => true | r' :: _ => r_prev_used r' end)
              rows).
    { destruct rows as [|r' rows]; [done|]. simpl in *.
      destruct Hp as [Hp1 Hp2]. by split. }
    destruct (IH rows fuel m (a + t_size r) e count) as (m' & Hrun & Hc' & HQ);
      try done; try lia.
    { destruct Hr as [[??] _]. lia. }
    exists m'. rewrite (has_merge_used r rows Eu), (coalesced_used r rows Eu).
    split; [done|].
    assert (Ha : a ∉ (t_begin <$> coalesced rows)).
    { intros Hin. apply (begins_in_range _ _ _ _ _ Hc') in Hin.
      destruct Hr as [[??] _]. lia. }
    split.
    + simpl. split_and!; try done.
      destruct (HQ a Ha) as [-> _]. done.
    + intros x Hx. simpl in Hx. rewrite not_elem_of_cons in Hx.
      destruct Hx as [Hxa Hx]. destruct (HQ x Hx) as [Hsame Hq].
      split; [done|]. intros Hin. simpl in Hin.
      apply elem_of_cons in Hin as [?|Hin]; [congruence|]. by apply Hq.
  - (* a free block absorbs the free blocks that follow it *)
    pose proof (free_past_run rows) as Hsplit.
    set (run := free_run rows) in *. set (past := past_run rows) in *.
    rewrite <- Hsplit in Hc.
    pose proof Hc as Hc2. apply chain_app in Hc2 as [Hcrun Hcpast].
    pose proof (total_size_nonneg _ _ _ _ Hcrun) as Hnn_run.
    pose proof (total_size_nonneg _ _ _ _ Hcpast) as Hnn_past.
    pose proof (total_size_mod8 _ _ _ _ Hcrun) as Hrun8.
    assert (Htot' : total_size rows = total_size run + total_size past).
    { by rewrite <- Hsplit, total_size_app. }
    destruct Hr as [[Hrlo Hrhi] Hr8]. unfold max_capacity in *.
    rewrite (coalesce_absorb_run fuel m (a + t_size r) run past e
               (t_size r) count); try done.
    2:{ by apply free_run_pbits. }
    2:{ apply past_run_head. }
    2:{ lia. }
    2:{ unfold max_capacity. lia. }
    2:{ pose proof (free_run_length rows). fold run in H. lia. }
    set (fr' := t_size r + total_size run).
    set (M := Row false (r_prev_used r) (t_begin r) fr').
    assert (HM : add fr' (crem (size_status r) 8) = size_status M).
    { rewrite hdr_crem by (split; [split|]; unfold max_capacity; done).
      rewrite Eu. unfold add, size_status. simpl.
      rewrite wrap_small; [lia|].
      subst fr'. destruct (r_prev_used r); simpl; lia. }
    rewrite HM.
    assert (Hp' : pbits_ok
              (match past with [] => true | r' :: _ => r_prev_used r' end)
              past).
    { pose proof (past_run_pbits rows Hp) as Hpp. fold past in Hpp.
      destruct past as [|r' past']; [done|]. simpl in *.
      destruct Hpp as [Hp1 Hp2]. by split. }
    destruct (IH past fuel (store m a (size_status M)) (a + fr') e
                (match run with [] => count | _ => 1 end))
      as (m' & Hrun & Hc' & HQ); try done.
    { pose proof (past_run_length rows). fold past in H. lia. }
    { eapply chain_frame.
      - replace (a + fr') with (a + t_size r + total_size run)
          by (subst fr'; lia). apply Hcpast.
      - intros x Hx. apply load_store_ne. subst fr'. lia. }
    { rewrite load_store_ne by lia. done. }
    { unfold max_capacity. subst fr'. lia. }
    { pose proof (past_run_length rows). fold past in H. lia. }
    replace (a + t_size r + total_size run) with (a + fr')
      by (subst fr'; lia).
    exists m'. rewrite (has_merge_free r rows Eu), (coalesced_free r rows Eu).
    fold run past fr' M.
    split.
    { rewrite Hrun. f_equal. f_equal.
      destruct run; simpl; [done|]. by destruct (has_merge past). }
    assert (Ha : a ∉ (t_begin <$> coalesced past)).
    { intros Hin. apply (begins_in_range _ _ _ _ _ Hc') in Hin.
      subst fr'. lia. }
    split.
    + simpl. split_and!; try done.
      * destruct (HQ a Ha) as [-> _]. apply load_store_eq.
      * unfold row_ok, max_capacity. simpl. subst fr'.
        split; [lia|]. rewrite Z.add_mod, Hr8, Hrun8 by lia. done.
    + intros x Hx. simpl in Hx. rewrite not_elem_of_cons in Hx.
      destruct Hx as [Hxa Hx]. destruct (HQ x Hx) as [Hsame Hq].
      rewrite load_store_ne in Hsame by congruence.
      rewrite load_store_ne in Hq by congruence.
      split; [done|]. intros Hin. simpl in Hin.
      apply elem_of_cons in Hin as [?|Hin]; [congruence|].
      rewrite <- Hsplit, begins_app in Hin.
      apply elem_of_app in Hin as [Hin|Hin]; [|by apply Hq].
      apply list_elem_of_fmap in Hin as (r' & -> & Hin).
      destruct (chain_begin_range _ _ _ _ _ Hcrun Hin) as (_ & _ & Hr' & ->).
      pose proof (free_run_pbits rows Hp) as Hall. fold run in Hall.
      rewrite Forall_forall in Hall. destruct (Hall r' Hin) as [Hu' Hp''].
      rewrite (hdr_crem r' Hr'), Hu', Hp''. done.
Qed.

Lemma coalesced_pbits n :
  ∀ rows prev, (length rows ≤ n)%nat →
    pbits_ok prev rows → pbits_ok prev (coalesced rows).
Proof.
  induction n as [|n IH]; intros rows prev Hn Hp.
  { destruct rows; [done|simpl in Hn; lia]. }
  destruct rows as [|r rows]; [done|].
  simpl in Hn, Hp. destruct Hp as [Hp1 Hp2].
  destruct (r_used r) eqn:Eu.
  - rewrite (coalesced_used r rows Eu). simpl. rewrite Eu.
    split; [done|]. apply IH; [lia|done].
  - rewrite (coalesced_free r rows Eu). simpl. split; [done|].
    apply IH.
    + pose proof (past_run_length rows). lia.
    + by apply past_run_pbits.
Qed.

Lemma coalesce_absorb_more fuel fuel' m next fr count out :
  coalesce_absorb fuel m next fr count = Some out → (fuel ≤ fuel')%nat →
  coalesce_absorb fuel' m next fr count = Some out.
Proof.
  revert fuel' next fr count.
  induction fuel as [|fuel IH]; intros fuel' next fr count H Hle; [done|].
  destruct fuel' as [|fuel']; [lia|]. cbn [coalesce_absorb] in *.
  destruct (negb (load m next =? 1) && (crem (load m next) 8 =? 0));
    [|done].
  apply IH; [done|lia].
Qed.

Lemma coalesce_loop_more fuel fuel' m a count out :
  coalesce_loop fuel m a count = Some out → (fuel ≤ fuel')%nat →
  coalesce_loop fuel' m a count = Some out.
Proof.
  revert fuel' m a count.
  induction fuel as [|fuel IH]; intros fuel' m a count H Hle; [done|].
  destruct fuel' as [|fuel']; [lia|]. cbn [coalesce_loop] in *.
  destruct (load m a =? 1); [done|]. cbv zeta in *.
  destruct ((crem (load m a) 8 =? 0) || (crem (load m a) 8 =? 2)).
  - destruct (coalesce_absorb fuel m _ _ count) as [[[fr' nx] c']|] eqn:E;
      [|done].
    rewrite (coalesce_absorb_more _ fuel' _ _ _ _ _ E) by lia.
    apply IH; [done|lia].
  - apply IH; [done|lia].
Qed.

(** One call of [coalesce] on a heap that satisfies the invariant. *)
Lemma coalesce_inv {closed} st rows fuel :
  heap_inv_at closed st rows → (length rows < fuel)%nat →
  ∃ st', coalesce fuel st = Some (if has_merge rows then 1 else 0, st') ∧
         heap_inv_at closed st' (coalesced rows) ∧
         (∀ x, x ∉ (t_begin <$> coalesced rows) →
               load (mem st') x = load (mem st) x).
Proof.
  intros Hinv Hfuel.
  destruct (inv_size _ _ Hinv) as [[Halo Hahi] Ha8].
  destruct (coalesce_loop_chain (length rows) rows fuel (mem st)
              (heap_start st) (heap_start st + alloc_size st) 0)
    as (m' & Hrun & Hc' & HQ); try done; try apply Hinv; try lia.
  { pose proof (inv_pbits _ _ Hinv) as Hp.
    destruct rows as [|r rows]; [done|]. simpl in *.
    destruct Hp as [-> Hp]. by split. }
  exists (set_mem st m'). unfold coalesce. rewrite Hrun.
  split; [done|]. split.
  - constructor; try apply Hinv; simpl.
    + done.
    + assert (He : heap_start st + alloc_size st
                   ∉ (t_begin <$> coalesced rows)).
      { intros Hin. apply (begins_in_range _ _ _ _ _ Hc') in Hin. lia. }
      destruct (HQ _ He) as [-> _]. apply Hinv.
    + apply (coalesced_pbits (length rows)); [done|apply Hinv].
    + intros Hclosed x Hx Hxm.
      destruct (decide (x ∈ (t_begin <$> coalesced rows))) as [Hin|Hnin];
        [by left|right].
      destruct (HQ x Hnin) as [-> Hq].
      destruct (inv_quiet _ _ Hinv Hclosed x Hx Hxm) as [Hin|Hz];
        [by apply Hq|done].
  - intros x Hx. by destruct (HQ x Hx).
Qed.

(** ** Every reachable state satisfies the invariant *)

Lemma init_heap_again {closed} st rows env sizeOfRegion :
  heap_inv_at closed st rows → init_heap env st sizeOfRegion = (-1, st).
Proof.
  intros Hinv. unfold init_heap. by rewrite (inv_once _ _ Hinv).
Qed.

Lemma balloc_preserves_inv {closed} fuel st rows size ptr st' :
  heap_inv_at closed st rows → balloc fuel st size = Some (ptr, st') →
  ∃ rows', heap_inv_at closed st' rows'.
Proof.
  intros Hinv Hb.
  destruct (decide (0 < size ≤ alloc_size st)) as [Hsize|Hbad].
  - assert (Hmore : ∀ fuel', (fuel ≤ fuel')%nat →
                      balloc fuel' st size = Some (ptr, st')).
    { intros fuel' Hle. unfold balloc in *.
      destruct ((size <=? 0) || (size >? alloc_size st)); [done|].
      cbv zeta in *.
      destruct (balloc_scan fuel _ _ _ _ _) as [out|] eqn:E; [|done].
      by rewrite (balloc_scan_more _ fuel' _ _ _ _ _ _ E Hle). }
    specialize (Hmore (fuel `max` S (length rows))%nat ltac:(lia)).
    destruct (balloc_inv_cases st rows size Hinv Hsize)
      as [(pre & r & post & _ & Hrun)|[(_ & pre & r & post & _ & Hrun)
         |(_ & Hrun)]].
    + destruct (Hrun (fuel `max` S (length rows))%nat ltac:(lia))
        as (st1 & Heq & Hinv1).
      rewrite Hmore in Heq. injection Heq as _ ->. eauto.
    + destruct (Hrun (fuel `max` S (length rows))%nat ltac:(lia))
        as (st1 & Heq & Hinv1).
      rewrite Hmore in Heq. injection Heq as _ ->. eauto.
    + specialize (Hrun (fuel `max` S (length rows))%nat ltac:(lia)).
      rewrite Hmore in Hrun. injection Hrun as _ ->. eauto.
  - unfold balloc in Hb.
    replace ((size <=? 0) || (size >? alloc_size st)) with true in Hb.
    + injection Hb as _ <-. eauto.
    + destruct (Z.leb_spec size 0), (Z.gtb_spec size (alloc_size st));
        simpl; try done; lia.
Qed.

Theorem reachable_inv st : reachable st → ∃ rows, heap_inv st rows.
Proof.
  induction 1 as [env sz st Henv Hinit
                 |env sz st rc st' _ [rows IH] Hinit
                 |fuel st size ptr st' _ [rows IH] Hb
                 |st ptr rc st' _ [rows IH] Hb
                 |fuel st rc st' _ [rows IH] Hc].
  - eexists. by eapply init_heap_inv.
  - rewrite (init_heap_again _ _ _ _ IH) in Hinit.
    injection Hinit as _ <-. eauto.
  - by eapply balloc_preserves_inv.
  - destruct (bfree_inv_cases st rows ptr IH)
      as [(_ & Hsame & _)|(pre & r & post & _ & _ & _ & _ & Hinv')].
    + rewrite Hb in Hsame. simpl in Hsame. subst st'. eauto.
    + rewrite Hb in Hinv'. simpl in Hinv'. eauto.
  - destruct (coalesce_inv st rows (fuel `max` S (length rows))%nat IH
                ltac:(lia)) as (st1 & Hrun & Hinv1 & _).
    unfold coalesce in Hc, Hrun.
    destruct (coalesce_loop fuel _ _ _) as [[c m']|] eqn:E; [|done].
    rewrite (coalesce_loop_more _ (fuel `max` S (length rows))%nat
               _ _ _ _ E ltac:(lia)) in Hrun.
    injection Hc as _ <-. injection Hrun as _ <-. eauto.
Qed.

(** ** Uniqueness of the chosen block *)

Lemma split_compare (pre1 pre2 : list row) r1 r2 post1 post2 :
  pre1 ++ r1 :: post1 = pre2 ++ r2 :: post2 →
  (pre1 = pre2 ∧ r1 = r2 ∧ post1 = post2)
  ∨ (r1 ∈ pre2 ∧ r2 ∈ post1) ∨ (r2 ∈ pre1 ∧ r1 ∈ post2).
Proof.
  revert pre2. induction pre1 as [|a pre1 IH]; intros [|b pre2] Heq;
    simpl in Heq.
  - injection Heq as -> ->. by left.
  - injection Heq as -> ->. right. left. split; [apply list_elem_of_here|].
    apply elem_of_app. right. apply list_elem_of_here.
  - injection Heq as -> <-. right. right. split; [apply list_elem_of_here|].
    apply elem_of_app. right. apply list_elem_of_here.
  - injection Heq as -> Heq.
    destruct (IH pre2 Heq) as [(-> & -> & ->)|[[H1 H2]|[H1 H2]]].
    + by left.
    + right. left. split; [by apply list_elem_of_further|done].
    + right. right. split; [by apply list_elem_of_further|done].
Qed.

Lemma first_exact_unique req rows pre1 r1 post1 pre2 r2 post2 :
  first_exact req rows pre1 r1 post1 → first_exact req rows pre2 r2 post2 →
  pre1 = pre2 ∧ r1 = r2 ∧ post1 = post2.
Proof.
  intros (-> & Hex1 & Hpre1) (Heq & Hex2 & Hpre2).
  destruct (split_compare _ _ _ _ _ _ Heq) as [H|[[H _]|[H _]]]; [done|..].
  - by destruct (Hpre2 r1 H).
  - by destruct (Hpre1 r2 H).
Qed.

Lemma best_fit_unique req rows pre1 r1 post1 pre2 r2 post2 :
  best_fit_at req rows pre1 r1 post1 → best_fit_at req rows pre2 r2 post2 →
  pre1 = pre2 ∧ r1 = r2 ∧ post1 = post2.
Proof.
  intros (-> & Hfit1 & Hpre1 & Hpost1) (Heq & Hfit2 & Hpre2 & Hpost2).
  destruct (split_compare _ _ _ _ _ _ Heq) as [H|[[Ha Hb]|[Ha Hb]]];
    [done|..]; exfalso.
  - specialize (Hpre2 r1 Ha Hfit1). specialize (Hpost1 r2 Hb Hfit2). lia.
  - specialize (Hpre1 r2 Ha Hfit2). specialize (Hpost2 r1 Hb Hfit1). lia.
Qed.

(** ** More fuel does not change a result *)

Lemma balloc_more fuel fuel' st size out :
  balloc fuel st size = Some out → (fuel ≤ fuel')%nat →
  balloc fuel' st size = Some out.
Proof.
  intros H Hle. unfold balloc in *.
  destruct ((size <=? 0) || (size >? alloc_size st)); [done|].
  cbv zeta in *.
  destruct (balloc_scan fuel _ _ _ _ _) as [o|] eqn:E; [|done].
  by rewrite (balloc_scan_more _ fuel' _ _ _ _ _ _ E Hle).
Qed.

Lemma coalesce_more fuel fuel' st out :
  coalesce fuel st = Some out → (fuel ≤ fuel')%nat →
  coalesce fuel' st = Some out.
Proof.
  intros H Hle. unfold coalesce in *.
  destruct (coalesce_loop fuel _ _ _) as [o|] eqn:E; [|done].
  by rewrite (coalesce_loop_more _ fuel' _ _ _ _ E Hle).
Qed.

(** ** The globals are set once *)

Lemma balloc_globals fuel st size ptr st' :
  balloc fuel st size = Some (ptr, st') →
  heap_start st' = heap_start st ∧ alloc_size st' = alloc_size st ∧
  allocated_once st' = allocated_once st.
Proof.
  unfold balloc. cbv zeta. intros H.
  repeat match type of H with
  | context [if ?c then _ else _] => destruct c
  | context [match ?x with _ => _ end] => destruct x
  end; try done; injection H as _ <-; done.
Qed.

Lemma bfree_globals st ptr :
  heap_start (bfree st ptr).2 = heap_start st ∧
  alloc_size (bfree st ptr).2 = alloc_size st ∧
  allocated_once (bfree st ptr).2 = allocated_once st.
Proof.
  unfold bfree. cbv zeta.
  repeat match goal with
  | |- context [if ?c then (_, _) else _] => destruct c
  end; done.
Qed.

Lemma coalesce_globals fuel st rc st' :
  coalesce fuel st = Some (rc, st') →
  heap_start st' = heap_start st ∧ alloc_size st' = alloc_size st ∧
  allocated_once st' = allocated_once st.
Proof.
  unfold coalesce. intros H.
  destruct (coalesce_loop fuel _ _ _) as [[c m']|]; [|done].
  injection H as _ <-. done.
Qed.

(** Every reachable state keeps the region that the successful [init_heap]
    set up. *)
Lemma reachable_origin st :
  reachable st →
  ∃ env sizeOfRegion st0,
    env_ok env sizeOfRegion ∧
    init_heap env initial_heap sizeOfRegion = (0, st0) ∧
    heap_start st = heap_start st0 ∧ alloc_size st = alloc_size st0.
Proof.
  induction 1 as [env sz st Henv Hinit
                 |env sz st rc st' Hreach IH Hinit
                 |fuel st size ptr st' _ IH Hb
                 |st ptr rc st' _ IH Hb
                 |fuel st rc st' _ IH Hc].
  - by exists env, sz, st.
  - destruct (reachable_inv st Hreach) as [rows Hinv].
    rewrite (init_heap_again _ _ _ _ Hinv) in Hinit.
    by injection Hinit as _ <-.
  - destruct IH as (env & sz & st0 & ? & ? & Hs0 & Ha0).
    destruct (balloc_globals _ _ _ _ _ Hb) as (Hs & Ha & _).
    exists env, sz, st0. split_and!; try done; congruence.
  - destruct IH as (env & sz & st0 & ? & ? & Hs0 & Ha0).
    destruct (bfree_globals st ptr) as (Hs & Ha & _).
    rewrite Hb in Hs, Ha. simpl in Hs, Ha.
    exists env, sz, st0. split_and!; try done; congruence.
  - destruct IH as (env & sz & st0 & ? & ? & Hs0 & Ha0).
    destruct (coalesce_globals _ _ _ _ Hc) as (Hs & Ha & _).
    exists env, sz, st0. split_and!; try done; congruence.
Qed.

(** ** A client that stores into its payloads *)

(** The block list depends on the header words alone. *)
Lemma chain_headers m m' a rows e :
  chain m a rows e →
  (∀ x, x ∈ (t_begin <$> rows) → load m' x = load m x) →
  chain m' a rows e.
Proof.
  revert a. induction rows as [|r rows IH]; simpl; intros a H Hagree; [done|].
  destruct H as (Hb & Hl & Hr & H).
  split_and!; try done.
  - rewrite Hagree; [done|]. rewrite <- Hb. apply list_elem_of_here.
  - apply IH; [done|]. intros x Hx. apply Hagree.
    by apply list_elem_of_further.
Qed.

(** An address in the payload of a block in use is the address of no header
    and lies before the end mark. *)
Lemma in_payload_off_headers {closed} st rows x :
  heap_inv_at closed st rows → in_payload rows x →
  (x ∉ (t_begin <$> rows)) ∧
  heap_start st < x < heap_start st + alloc_size st.
Proof.
  intros Hinv (r & Hin & _ & Hx).
  apply list_elem_of_split in Hin as (pre & post & ->).
  destruct (heap_inv_split _ _ _ _ Hinv)
    as (Hpre & _ & _ & Hpost & Hlo & Hhi & _).
  cbv zeta in *. split; [|lia].
  rewrite begins_app, elem_of_app. simpl. rewrite elem_of_cons.
  intros [Hin|[->|Hin]].
  - apply (begins_in_range _ _ _ _ _ Hpre) in Hin. lia.
  - lia.
  - apply (begins_in_range _ _ _ _ _ Hpost) in Hin. lia.
Qed.

(** A store into a payload leaves the block list as it is. *)
Lemma store_word_inv st rows x v :
  heap_inv_at false st rows → in_payload rows x →
  heap_inv_at false (store_word st x v) rows.
Proof.
  intros Hinv Hx.
  destruct (in_payload_off_headers _ _ _ Hinv Hx) as [Hoff Hrange].
  constructor; try apply Hinv; simpl; [| |done].
  - apply (chain_headers (mem st)); [apply Hinv|].
    intros y Hy. apply load_store_ne. by intros ->.
  - rewrite load_store_ne by lia. apply Hinv.
Qed.

Lemma proper_call_inv st rows st' :
  heap_inv_at false st rows → proper_call st st' →
  ∃ rows', heap_inv_at false st' rows'.
Proof.
  intros Hinv Hcall.
  destruct Hcall as [env sz st rc st' Hi|fuel st size p st' Hb
                    |st rows0 ptr rc st' Hrows (r & Hin & Hused & ->) Hb
                    |st ptr st' Hb|fuel st rc st' Hc].
  - rewrite (init_heap_again _ _ _ _ Hinv) in Hi.
    injection Hi as _ <-. eauto.
  - by eapply balloc_preserves_inv.
  - rewrite (heap_inv_unique _ _ _ Hinv Hrows) in Hin.
    apply list_elem_of_split in Hin as (pre & post & ->).
    destruct (bfree_release_inv _ _ _ _ Hinv Hused) as [_ Hinv'].
    rewrite Hb in Hinv'. eauto.
  - pose proof (bfree_fail_unchanged st ptr) as Hsame.
    rewrite Hb in Hsame. simpl in Hsame. rewrite Hsame by done. eauto.
  - destruct (coalesce_inv st rows (fuel `max` S (length rows))%nat Hinv
                ltac:(lia)) as (st1 & Hrun & Hinv1 & _).
    rewrite (coalesce_more _ (fuel `max` S (length rows))%nat _ _ Hc) in Hrun
      by lia.
    injection Hrun as _ <-. eauto.
Qed.

(** Every state of a client that releases live allocations only has a block
    list that satisfies the invariant, whatever its payloads hold. *)
Lemma disciplined_inv st : disciplined st → ∃ rows, heap_inv_at false st rows.
Proof.
  induction 1 as [env sz st Henv Hinit
                 |st st' _ [rows IH] Hcall
                 |st rows0 x v _ [rows IH] Hrows Hx].
  - eexists. apply heap_inv_open. by eapply init_heap_inv.
  - by eapply proper_call_inv.
  - rewrite (heap_inv_unique _ _ _ IH Hrows) in Hx.
    exists rows. by apply store_word_inv.
Qed.

(** In the states that the operations reach by themselves every successful
    [bfree] was given a live allocation: these states are states of a
    client that releases live allocations only. *)
Lemma reachable_disciplined st : reachable st → disciplined st.
Proof.
  induction 1 as [env sz st Henv Hinit
                 |env sz st rc st' Hreach IH Hinit
                 |fuel st size ptr st' Hreach IH Hb
                 |st ptr rc st' Hreach IH Hb
                 |fuel st rc st' Hreach IH Hc].
  - by eapply client_init.
  - eapply client_call; [done|]. by eapply proper_init_heap.
  - eapply client_call; [done|]. by eapply proper_balloc.
  - eapply client_call; [done|].
    destruct (reachable_inv st Hreach) as [rows Hinv].
    destruct (bfree_inv_cases st rows ptr Hinv)
      as [(Hfail & _)|(pre & r & post & -> & -> & Hused & _)].
    + rewrite Hb in Hfail. simpl in Hfail. subst rc.
      by apply (proper_bfree_fails st ptr).
    + eapply proper_bfree; [by eapply heap_inv_rows| |done].
      exists r. split_and!; [|done|done].
      apply elem_of_app. right. apply list_elem_of_here.
  - eapply client_call; [done|]. by eapply proper_coalesce.
Qed.

Lemma proper_call_globals st rows st' :
  heap_inv_at false st rows → proper_call st st' →
  heap_start st' = heap_start st ∧ alloc_size st' = alloc_size st.
Proof.
  intros Hinv Hcall.
  destruct Hcall as [env sz st rc st' Hi|fuel st size p st' Hb
                    |st rows0 ptr rc st' _ _ Hb
                    |st ptr st' Hb|fuel st rc st' Hc].
  - rewrite (init_heap_again _ _ _ _ Hinv) in Hi. by injection Hi as _ <-.
  - by destruct (balloc_globals _ _ _ _ _ Hb) as (-> & -> & _).
  - destruct (bfree_globals st ptr) as (Hs & Ha & _).
    rewrite Hb in Hs, Ha. done.
  - destruct (bfree_globals st ptr) as (Hs & Ha & _).
    rewrite Hb in Hs, Ha. done.
  - by destruct (coalesce_globals _ _ _ _ Hc) as (-> & -> & _).
Qed.

(** ** The sample heaps are reachable *)

Lemma demo_env_ok : env_ok demo_env 4000.
Proof.
  unfold env_ok, demo_env. simpl. split_and!; try lia; try done.
  exists 8192. split_and!; done.
Qed.

Lemma demo_heap_reachable : reachable demo_heap.
Proof.
  apply (reach_init demo_env 4000 demo_heap); [apply demo_env_ok|].
  vm_compute. reflexivity.
Qed.

Lemma reach_after_balloc st size :
  reachable st → reachable (after_balloc st size).
Proof.
  intros Hst. unfold after_balloc.
  destruct (balloc 16 st size) as [[p st']|] eqn:E; [|done].
  by apply (reach_balloc 16 st size p st').
Qed.

Lemma reach_after_bfree st ptr : reachable st → reachable (bfree st ptr).2.
Proof.
  intros Hst. apply (reach_bfree st ptr (bfree st ptr).1); [done|].
  by destruct (bfree st ptr).
Qed.

Lemma fragmented_heap_reachable : reachable fragmented_heap.
Proof.
  unfold fragmented_heap. cbv zeta.
  do 3 apply reach_after_bfree. do 3 apply reach_after_balloc.
  apply demo_heap_reachable.
Qed.

Lemma fragmented_heap_rows : heap_rows fragmented_heap fragmented_rows.
Proof. exists 8%nat. vm_compute. reflexivity. Qed.

Lemma released_heap_reachable : reachable released_heap.
Proof.
  unfold released_heap. cbv zeta.
  do 3 apply reach_after_bfree. do 4 apply reach_after_balloc.
  apply demo_heap_reachable.
Qed.

Lemma released_heap_rows : heap_rows released_heap released_rows.
Proof. exists 8%nat. vm_compute. reflexivity. Qed.

Lemma holed_heap_reachable : reachable holed_heap.
Proof.
  unfold holed_heap. cbv zeta.
  apply reach_after_bfree. do 2 apply reach_after_balloc.
  apply demo_heap_reachable.
Qed.

Lemma demo_heap_rows : heap_rows demo_heap [Row false true 8196 4088].
Proof. exists 8%nat. vm_compute. reflexivity. Qed.

(** ** The sample heaps of a client *)

Lemma reachable_client st : reachable st → client_reachable st.
Proof.
  induction 1 as [env sz st Henv Hinit
                 |env sz st rc st' Hreach IH Hinit
                 |fuel st size ptr st' Hreach IH Hb
                 |st ptr rc st' Hreach IH Hb
                 |fuel st rc st' Hreach IH Hc].
  - by eapply client_init.
  - eapply client_call; [done|]. by eapply call_init_heap.
  - eapply client_call; [done|]. by eapply call_balloc.
  - eapply client_call; [done|]. by eapply call_bfree.
  - eapply client_call; [done|]. by eapply call_coalesce.
Qed.

Lemma client_after_bfree st ptr :
  client_reachable st → client_reachable (bfree st ptr).2.
Proof.
  intros Hst. eapply client_call; [done|].
  apply (call_bfree st ptr (bfree st ptr).1). by destruct (bfree st ptr).
Qed.

Lemma poked_heap_disciplined : disciplined poked_heap.
Proof.
  unfold poked_heap.
  apply (client_store proper_call _ [Row true true 8196 16;
                                     Row false true 8212 4072]).
  - apply reachable_disciplined, reach_after_balloc, demo_heap_reachable.
  - exists 8%nat. vm_compute. reflexivity.
  - exists (Row true true 8196 16).
    split; [apply list_elem_of_here|]. split; [done|]. simpl. lia.
Qed.

Lemma poked_heap_rows : heap_rows poked_heap poked_rows.
Proof. exists 8%nat. vm_compute. reflexivity. Qed.

Lemma misled_heap_client : client_reachable misled_heap.
Proof.
  unfold misled_heap. cbv zeta. apply client_after_bfree.
  apply (client_store call _ [Row true true 8196 104; Row true true 8300 16;
                              Row false true 8316 3968]).
  - apply reachable_client. do 2 apply reach_after_balloc.
    apply demo_heap_reachable.
  - exists 8%nat. vm_compute. reflexivity.
  - exists (Row true true 8196 104).
    split; [apply list_elem_of_here|]. split; [done|]. simpl. lia.
Qed.

Lemma misled_heap_rows : heap_rows misled_heap misled_rows.
Proof. exists 8%nat. vm_compute. reflexivity. Qed.

Lemma broken_heap_client : client_reachable broken_heap.
Proof.
  unfold broken_heap. cbv zeta. apply client_after_bfree.
  apply (client_store call _ [Row true true 8196 16; Row false true 8212 24;
                              Row true false 8236 32;
                              Row false true 8268 4016]).
  - apply reachable_client. apply reach_after_bfree.
    do 3 apply reach_after_balloc. apply demo_heap_reachable.
  - exists 8%nat. vm_compute. reflexivity.
  - exists (Row true true 8196 16).
    split; [apply list_elem_of_here|]. split; [done|]. simpl. lia.
Qed.

(** The walk of [disp_heap] does not end once it stands on a word 0. *)
Lemma disp_heap_rows_stuck m a fuel :
  load m a = 0 → disp_heap_rows fuel m a = None.
Proof.
  intros Hz. induction fuel as [|fuel IH]; [done|].
  cbn [disp_heap_rows]. rewrite Hz. simpl.
  rewrite Z.add_0_r. by rewrite IH.
Qed.

Lemma disp_heap_rows_astray fuel m a w b :
  load m a = w → (w =? 1) = false →
  a + (let t_size1 := if negb (Z.land w 1 =? 0) then sub w 1 else w in
       if negb (Z.land t_size1 2 =? 0) then sub t_size1 2 else t_size1) = b →
  disp_heap_rows fuel m b = None →
  disp_heap_rows (S fuel) m a = None.
Proof.
  intros <- Hw <- Hnone. cbn [disp_heap_rows]. rewrite Hw.
  cbv zeta in *. by rewrite Hnone.
Qed.

Lemma broken_heap_walk fuel :
  disp_heap_rows fuel (mem broken_heap) (heap_start broken_heap) = None.
Proof.
  assert (H1 : load (mem broken_heap) (heap_start broken_heap) = 19)
    by (vm_compute; reflexivity).
  assert (H2 : load (mem broken_heap) 8212 = 26) by (vm_compute; reflexivity).
  assert (H3 : load (mem broken_heap) 8236 = 31) by (vm_compute; reflexivity).
  assert (H4 : load (mem broken_heap) 8264 = 0) by (vm_compute; reflexivity).
  assert (Hs : heap_start broken_heap = 8196) by (vm_compute; reflexivity).
  generalize dependent (mem broken_heap). rewrite Hs. intros m H1 H2 H3 H4.
  destruct fuel as [|fuel]; [done|].
  apply (disp_heap_rows_astray _ _ _ 19 8212); [done|done|done|].
  destruct fuel as [|fuel]; [done|].
  apply (disp_heap_rows_astray _ _ _ 26 8236); [done|done|done|].
  destruct fuel as [|fuel]; [done|].
  apply (disp_heap_rows_astray _ _ _ 31 8264); [done|done|done|].
  by apply disp_heap_rows_stuck.
Qed.

(** ** Placement *)

Lemma balloc_exact_case {closed} st rows size pre r post :
  heap_inv_at closed st rows → 0 < size ≤ alloc_size st →
  first_exact (required size) rows pre r post →
  ∀ fuel, (length rows < fuel)%nat →
    ∃ st', balloc fuel st size = Some (t_begin r + 4, st') ∧
           heap_inv_at closed st' (alloc_exact pre r post).
Proof.
  intros Hinv Hsize Hfirst.
  destruct (balloc_inv_cases st rows size Hinv Hsize)
    as [(pre' & r' & post' & Hfirst' & Hrun)
       |[(Hnone & _)|(Hnone & _)]].
  - by destruct (first_exact_unique _ _ _ _ _ _ _ _ Hfirst Hfirst')
      as (-> & -> & ->).
  - destruct Hfirst as (-> & Hex & _). exfalso.
    apply (Hnone r); [|done]. apply elem_of_app. right. apply list_elem_of_here.
  - destruct Hfirst as (-> & [Hfree Hsz] & _). exfalso.
    apply (Hnone r).
    + apply elem_of_app. right. apply list_elem_of_here.
    + split; [done|lia].
Qed.

Lemma balloc_split_case {closed} st rows size pre r post :
  heap_inv_at closed st rows → 0 < size ≤ alloc_size st →
  (∀ r', r' ∈ rows → ¬ exact (required size) r') →
  best_fit_at (required size) rows pre r post →
  ∀ fuel, (length rows < fuel)%nat →
    ∃ st', balloc fuel st size = Some (t_begin r + 4, st') ∧
           heap_inv_at closed st' (alloc_split (required size) pre r post).
Proof.
  intros Hinv Hsize Hnex Hbest.
  destruct (balloc_inv_cases st rows size Hinv Hsize)
    as [(pre' & r' & post' & Hfirst' & _)
       |[(_ & pre' & r' & post' & Hbest' & Hrun)|(Hnone & _)]].
  - destruct Hfirst' as (-> & Hex & _). exfalso.
    apply (Hnex r'); [|done]. apply elem_of_app. right. apply list_elem_of_here.
  - by destruct (best_fit_unique _ _ _ _ _ _ _ _ Hbest Hbest')
      as (-> & -> & ->).
  - destruct Hbest as (-> & Hfit & _). exfalso.
    apply (Hnone r); [|done]. apply elem_of_app. right. apply list_elem_of_here.
Qed.

(** C1.  Placement policy of [balloc].  For a request of [size] bytes with
    [0 < size <= alloc_size], the required block size is [size] plus the
    4-byte header rounded up to a multiple of 8.  If the block list holds a
    free block of exactly that size, [balloc] hands out the first such block
    whole and returns its payload address; the block list keeps its length
    (no split).  Otherwise, if some free block is large enough, [balloc]
    takes the smallest such block, the first one among equals, and splits
    it: the leading part of the required size is handed out and the rest
    becomes a free block with its predecessor bit set. *)
Theorem balloc_placement st rows size :
  reachable st → heap_rows st rows → 0 < size ≤ alloc_size st →
  let req := required size in
  ((∃ r, r ∈ rows ∧ exact req r) →
     ∃ pre r post, first_exact req rows pre r post ∧
       ∀ fuel, (length rows < fuel)%nat →
         ∃ st', balloc fuel st size = Some (t_begin r + 4, st') ∧
                heap_rows st' (alloc_exact pre r post))
  ∧ ((∀ r, r ∈ rows → ¬ exact req r) → (∃ r, r ∈ rows ∧ fits req r) →
     ∃ pre r post, best_fit_at req rows pre r post ∧
       ∀ fuel, (length rows < fuel)%nat →
         ∃ st', balloc fuel st size = Some (t_begin r + 4, st') ∧
                heap_rows st' (alloc_split req pre r post)).
Proof.
  intros Hreach Hrows Hsize. cbv zeta.
  destruct (reachable_inv st Hreach) as [rows' Hinv].
  rewrite (heap_inv_unique _ _ _ Hinv Hrows) in *. clear rows Hrows.
  destruct (balloc_inv_cases st rows' size Hinv Hsize)
    as [(pre & r & post & Hfirst & Hrun)
       |[(Hnone & pre & r & post & Hbest & Hrun)|(Hnone & _)]].
  - split.
    + intros _. exists pre, r, post. split; [done|].
      intros fuel Hfuel. destruct (Hrun fuel Hfuel) as (st' & Hb & Hinv').
      exists st'. split; [done|]. by eapply heap_inv_rows.
    + intros Hnex _. exfalso. destruct Hfirst as (-> & Hex & _).
      apply (Hnex r); [|done]. apply elem_of_app. right.
      apply list_elem_of_here.
  - split.
    + intros (r0 & Hin & Hex). by destruct (Hnone r0 Hin).
    + intros _ _. exists pre, r, post. split; [done|].
      intros fuel Hfuel. destruct (Hrun fuel Hfuel) as (st' & Hb & Hinv').
      exists st'. split; [done|]. by eapply heap_inv_rows.
  - split.
    + intros (r0 & Hin & [Hfree Hsz]). destruct (Hnone r0 Hin).
      split; [done|lia].
    + intros _ (r0 & Hin & Hfit). by destruct (Hnone r0 Hin).
Qed.

(** On free blocks of sizes 40, 16, 64 (and the free rest), a request that
    needs 16 bytes gets the 16-byte block although it is not the first block
    scanned, and a request that needs 24 bytes gets the leading 24 bytes of
    the 40-byte block. *)
Lemma balloc_placement_witness :
  (∃ st', balloc 8 fragmented_heap 12 = Some (8240, st') ∧
     heap_rows st'
       [ Row false true 8196 40; Row true false 8236 16;
         Row false true 8252 64; Row false false 8316 3968 ])
  ∧ (∃ st', balloc 8 fragmented_heap 20 = Some (8200, st') ∧
       heap_rows st'
         [ Row true true 8196 24; Row false true 8220 16;
           Row false false 8236 16; Row false false 8252 64;
           Row false false 8316 3968 ]).
Proof.
  split.
  - assert (Hsize : 0 < 12 ≤ alloc_size fragmented_heap)
      by (vm_compute; split; [reflexivity|discriminate]).
    destruct (balloc_placement fragmented_heap fragmented_rows 12
                fragmented_heap_reachable fragmented_heap_rows Hsize)
      as [Hexact _].
    destruct Hexact as (pre & r & post & Hfirst & Hrun).
    { exists (Row false false 8236 16). split; [|split; reflexivity].
      apply list_elem_of_further, list_elem_of_here. }
    assert (Hmine : first_exact (required 12) fragmented_rows
              [Row false true 8196 40] (Row false false 8236 16)
              [Row false false 8252 64; Row false false 8316 3968]).
    { split_and!; [reflexivity|split; reflexivity|].
      intros r' Hr' [_ Hsz]. apply list_elem_of_singleton in Hr' as ->.
      discriminate Hsz. }
    destruct (first_exact_unique _ _ _ _ _ _ _ _ Hfirst Hmine)
      as (-> & -> & ->).
    destruct (Hrun 8%nat) as (st' & Hb & Hrows'); [simpl; lia|].
    exists st'. exact (conj Hb Hrows').
  - assert (Hsize : 0 < 20 ≤ alloc_size fragmented_heap)
      by (vm_compute; split; [reflexivity|discriminate]).
    destruct (balloc_placement fragmented_heap fragmented_rows 20
                fragmented_heap_reachable fragmented_heap_rows Hsize)
      as [_ Hsplit].
    destruct Hsplit as (pre & r & post & Hbest & Hrun).
    { intros r' Hr' [_ Hsz]. unfold fragmented_rows in Hr'.
      repeat (apply elem_of_cons in Hr' as [->|Hr']; [discriminate Hsz|]).
      by apply elem_of_nil in Hr'. }
    { exists (Row false true 8196 40). split; [apply list_elem_of_here|].
      split; [reflexivity|]. vm_compute. discriminate. }
    assert (Hmine : best_fit_at (required 20) fragmented_rows
              [] (Row false true 8196 40)
              [Row false false 8236 16; Row false false 8252 64;
               Row false false 8316 3968]).
    { split_and!; [reflexivity|split; [reflexivity|vm_compute; discriminate]
                  | |].
      - intros r' Hr'. by apply elem_of_nil in Hr'.
      - intros r' Hr' [_ Hfit].
        repeat (apply elem_of_cons in Hr' as [->|Hr'];
                [vm_compute in Hfit |- *; try discriminate;
                 try (by destruct Hfit)|]).
        by apply elem_of_nil in Hr'. }
    destruct (best_fit_unique _ _ _ _ _ _ _ _ Hbest Hmine)
      as (-> & -> & ->).
    destruct (Hrun 8%nat) as (st' & Hb & Hrows'); [simpl; lia|].
    exists st'. exact (conj Hb Hrows').
Defined.

(** ** Predecessor bits *)

Lemma pbits_lookup prev rows i r1 r2 :
  pbits_ok prev rows → rows !! i = Some r1 → rows !! S i = Some r2 →
  r_prev_used r2 = r_used r1.
Proof.
  revert prev i. induction rows as [|r rows IH]; intros prev i Hp H1 H2.
  - done.
  - simpl in Hp. destruct Hp as [_ Hp]. destruct i as [|i]; simpl in *.
    + injection H1 as ->. destruct rows as [|r' rows]; [done|].
      simpl in *. injection H2 as ->. by destruct Hp.
    + by apply (IH (r_used r) i).
Qed.

Lemma heap_inv_word {closed} st rows r :
  heap_inv_at closed st rows → r ∈ rows →
  isAllocated (load (mem st) (t_begin r)) = r_used r ∧
  predecessorAllocated (load (mem st) (t_begin r)) = r_prev_used r.
Proof.
  intros Hinv Hin.
  destruct (chain_begin_range _ _ _ _ _ (inv_chain _ _ Hinv) Hin)
    as (_ & _ & Hok & ->).
  split; [by apply isAllocated_hdr | by apply predecessorAllocated_hdr].
Qed.

(** C2 as stated fails.  Blocks of 104 and 16 bytes are in use; the client
    stores the word 100 into the first payload and calls [bfree] on the
    address 4 bytes behind it.  The word is no header, but [bfree] returns 0
    and takes 2 off the header that it finds 96 bytes further on: the second
    block now records a free predecessor while the first block is in use. *)
Lemma predecessor_bits_counterexample :
  client_reachable misled_heap ∧ heap_rows misled_heap misled_rows ∧
  ¬ predecessor_bits_agree misled_heap misled_rows.
Proof.
  split_and!; [apply misled_heap_client|apply misled_heap_rows|].
  intros [_ Hnext].
  specialize (Hnext 0%nat (Row true true 8196 104) (Row true false 8300 16)
                eq_refl eq_refl).
  vm_compute in Hnext. discriminate.
Qed.

(** C2.  Predecessor-bit invariant, for a client that releases live
    allocations only.  In every state reached through [init_heap], [balloc],
    [bfree] and [coalesce] and through stores into payloads, where every
    call of [bfree] was given a live allocation or failed, the walk over the
    block list ends, the predecessor bit stored in the header of the first
    block is set, and the predecessor bit stored in the header of every
    other block equals the a-bit stored in the header of its left
    neighbour. *)
Theorem predecessor_bit_invariant st :
  disciplined st →
  ∃ rows, heap_rows st rows ∧ predecessor_bits_agree st rows.
Proof.
  intros Hst. destruct (disciplined_inv st Hst) as [rows Hinv].
  exists rows. split; [by eapply heap_inv_rows|].
  pose proof (inv_pbits _ _ Hinv) as Hp.
  split.
  - intros r Hhead. destruct rows as [|r0 rows]; [done|].
    simpl in Hhead. injection Hhead as ->.
    destruct (heap_inv_word st _ r Hinv) as [_ ->];
      [apply list_elem_of_here|].
    simpl in Hp. by destruct Hp.
  - intros i r1 r2 H1 H2.
    destruct (heap_inv_word st _ r1 Hinv) as [-> _];
      [by eapply list_elem_of_lookup_2|].
    destruct (heap_inv_word st _ r2 Hinv) as [_ ->];
      [by eapply list_elem_of_lookup_2|].
    by eapply pbits_lookup.
Qed.

Lemma predecessor_bit_invariant_witness :
  ∃ rows, heap_rows poked_heap rows ∧ predecessor_bits_agree poked_heap rows.
Proof. exact (predecessor_bit_invariant poked_heap poked_heap_disciplined). Defined.

(** ** Sizes *)

Lemma sizes_add_up m a rows e :
  chain m a rows e → e - a ≤ max_capacity →
  0 ≤ used_size rows ∧ 0 ≤ free_size rows ∧
  used_size rows + free_size rows = total_size rows.
Proof.
  revert a. induction rows as [|r rows IH]; simpl; intros a Hc Hcap; [lia|].
  destruct Hc as (_ & _ & [[Hlo Hhi] _] & Hc).
  pose proof (chain_total _ _ _ _ Hc) as Htot.
  destruct (IH _ Hc ltac:(lia)) as (Hu & Hf & Hsum).
  unfold add, max_capacity in *.
  destruct (r_used r); rewrite wrap_small; lia.
Qed.

Lemma heap_inv_total {closed} st rows :
  heap_inv_at closed st rows → total_size rows = alloc_size st.
Proof.
  intros Hinv. pose proof (chain_total _ _ _ _ (inv_chain _ _ Hinv)). lia.
Qed.

(** C3 as stated fails.  Blocks of 16, 24 and 32 bytes are allocated and the
    second is released, so that the header of the third records a free
    predecessor.  The client stores the word 37 into the first payload and
    calls [bfree] on the address 4 bytes behind it: [bfree] returns 0 and
    takes 2 off the header of the third block, 32 bytes further on, which
    now reads 31.  The walk steps 28 bytes from there, into the payload, and
    stays on a word 0: it never reaches the end mark. *)
Lemma sizes_conserved_counterexample :
  client_reachable broken_heap ∧ ¬ sizes_conserved broken_heap.
Proof.
  split; [apply broken_heap_client|].
  intros (rows & [fuel Hwalk] & _).
  by rewrite broken_heap_walk in Hwalk.
Qed.

(** C3.  Size conservation, for a client that releases live allocations
    only.  In every state reached through the operations and through stores
    into payloads, where every call of [bfree] was given a live allocation
    or failed, the walk over the block list, advancing by the size of each
    block, ends at the end mark, which sits [alloc_size] bytes after
    [heap_start]; the sizes of all blocks add up to [alloc_size], and so do
    the used and free totals that [disp_heap] reports.  The block list after
    a [balloc] (which may split) and after a [coalesce] (which may merge)
    has the same total. *)
Theorem size_conservation st :
  disciplined st →
  ∃ rows, heap_rows st rows ∧
    load (mem st) (heap_start st + total_size rows) = 1 ∧
    total_size rows = alloc_size st ∧
    used_size rows + free_size rows = alloc_size st ∧
    (∀ fuel size ptr st' rows',
        balloc fuel st size = Some (ptr, st') → heap_rows st' rows' →
        total_size rows' = total_size rows) ∧
    (∀ fuel rc st' rows',
        coalesce fuel st = Some (rc, st') → heap_rows st' rows' →
        total_size rows' = total_size rows).
Proof.
  intros Hst. destruct (disciplined_inv st Hst) as [rows Hinv].
  pose proof (heap_inv_total _ _ Hinv) as Htot.
  exists rows. split_and!.
  - by eapply heap_inv_rows.
  - rewrite Htot. apply Hinv.
  - done.
  - destruct (sizes_add_up _ _ _ _ (inv_chain _ _ Hinv)) as (_ & _ & ->);
      [|done].
    destruct (inv_size _ _ Hinv) as [[_ Hhi] _]. lia.
  - intros fuel size ptr st' rows' Hb Hrows'.
    destruct (balloc_preserves_inv _ _ _ _ _ _ Hinv Hb) as [rows1 Hinv1].
    rewrite (heap_inv_unique _ _ _ Hinv1 Hrows'), Htot.
    rewrite (heap_inv_total _ _ Hinv1).
    by destruct (balloc_globals _ _ _ _ _ Hb) as (_ & -> & _).
  - intros fuel rc st' rows' Hc Hrows'.
    destruct (proper_call_inv st rows st' Hinv (proper_coalesce _ _ _ _ Hc))
      as [rows1 Hinv1].
    rewrite (heap_inv_unique _ _ _ Hinv1 Hrows'), Htot.
    rewrite (heap_inv_total _ _ Hinv1).
    by destruct (coalesce_globals _ _ _ _ Hc) as (_ & -> & _).
Qed.

Lemma size_conservation_witness :
  ∃ rows, heap_rows poked_heap rows ∧
    load (mem poked_heap) (heap_start poked_heap + total_size rows) = 1 ∧
    total_size rows = alloc_size poked_heap ∧
    used_size rows + free_size rows = alloc_size poked_heap ∧
    (∀ fuel size ptr st' rows',
        balloc fuel poked_heap size = Some (ptr, st') →
        heap_rows st' rows' → total_size rows' = total_size rows) ∧
    (∀ fuel rc st' rows',
        coalesce fuel poked_heap = Some (rc, st') →
        heap_rows st' rows' → total_size rows' = total_size rows).
Proof. exact (size_conservation poked_heap poked_heap_disciplined). Defined.

(** ** Alignment *)

(** C8.  Alignment.  Every payload address returned by a successful
    [balloc] in a reachable state is a multiple of 8: every header of the
    block list sits 4 bytes before an 8-byte boundary. *)
Theorem balloc_aligned fuel st size ptr st' :
  reachable st → balloc fuel st size = Some (ptr, st') → ptr ≠ NULL →
  ptr mod 8 = 0 ∧
  (∀ rows r, heap_rows st rows → r ∈ rows → (t_begin r + 4) mod 8 = 0).
Proof.
  intros Hreach Hb Hnn.
  destruct (reachable_inv st Hreach) as [rows Hinv].
  assert (Hhdr : ∀ r, r ∈ rows → (t_begin r + 4) mod 8 = 0).
  { intros r Hin. destruct (heap_inv_begins _ _ _ Hinv Hin) as (_ & H4 & _).
    rewrite Z.add_mod, H4 by lia. done. }
  split.
  - destruct (decide (0 < size ≤ alloc_size st)) as [Hsize|Hbad].
    + apply (balloc_more _ (fuel `max` S (length rows))%nat) in Hb; [|lia].
      destruct (balloc_inv_cases st rows size Hinv Hsize)
        as [(pre & r & post & Hfirst & Hrun)
           |[(_ & pre & r & post & Hbest & Hrun)|(_ & Hrun)]].
      * destruct (Hrun (fuel `max` S (length rows))%nat ltac:(lia))
          as (st1 & Heq & _).
        rewrite Hb in Heq. injection Heq as -> _.
        apply Hhdr. destruct Hfirst as (-> & _).
        apply elem_of_app. right. apply list_elem_of_here.
      * destruct (Hrun (fuel `max` S (length rows))%nat ltac:(lia))
          as (st1 & Heq & _).
        rewrite Hb in Heq. injection Heq as -> _.
        apply Hhdr. destruct Hbest as (-> & _).
        apply elem_of_app. right. apply list_elem_of_here.
      * rewrite Hrun in Hb by lia. by injection Hb as <- _.
    + unfold balloc in Hb.
      replace ((size <=? 0) || (size >? alloc_size st)) with true in Hb.
      * by injection Hb as <- _.
      * destruct (Z.leb_spec size 0), (Z.gtb_spec size (alloc_size st));
          simpl; try done; lia.
  - intros rows' r Hrows' Hin.
    rewrite (heap_inv_unique _ _ _ Hinv Hrows') in Hin. by apply Hhdr.
Qed.

Lemma balloc_aligned_witness :
  8240 mod 8 = 0 ∧
  (∀ rows r, heap_rows fragmented_heap rows → r ∈ rows →
             (t_begin r + 4) mod 8 = 0).
Proof.
  apply (balloc_aligned 8 fragmented_heap 12 8240
           (after_balloc fragmented_heap 12) fragmented_heap_reachable).
  - vm_compute. reflexivity.
  - discriminate.
Defined.

(** ** Requests close to the capacity *)

Lemma round_up8_fixed z : z mod 8 = 0 → round_up8 z = z.
Proof.
  intros Hz. unfold round_up8.
  apply Z.mod_divide in Hz; [|lia]. destruct Hz as [k ->].
  replace (k * 8 + 7) with (7 + k * 8) by lia.
  rewrite Z.div_add by lia. change (7 / 8) with 0. lia.
Qed.

(** A successful [balloc] was served from a block that fits. *)
Lemma balloc_success_fits {closed} fuel st rows size ptr st' :
  heap_inv_at closed st rows → balloc fuel st size = Some (ptr, st') → ptr ≠ NULL →
  0 < size ≤ alloc_size st ∧ ∃ r, r ∈ rows ∧ fits (required size) r.
Proof.
  intros Hinv Hb Hnn.
  destruct (decide (0 < size ≤ alloc_size st)) as [Hsize|Hbad].
  - split; [done|].
    apply (balloc_more _ (fuel `max` S (length rows))%nat) in Hb; [|lia].
    destruct (balloc_inv_cases st rows size Hinv Hsize)
      as [(pre & r & post & Hfirst & _)
         |[(_ & pre & r & post & Hbest & _)|(_ & Hrun)]].
    + exists r. destruct Hfirst as (-> & [Hfree Hsz] & _). split.
      * apply elem_of_app. right. apply list_elem_of_here.
      * split; [done|lia].
    + exists r. destruct Hbest as (-> & Hfit & _). split; [|done].
      apply elem_of_app. right. apply list_elem_of_here.
    + rewrite Hrun in Hb by lia. by injection Hb as <- _.
  - unfold balloc in Hb.
    replace ((size <=? 0) || (size >? alloc_size st)) with true in Hb.
    + by injection Hb as <- _.
    + destruct (Z.leb_spec size 0), (Z.gtb_spec size (alloc_size st));
        simpl; try done; lia.
Qed.

(** C10.  Requests within 4 bytes of the capacity.  A size [size] with
    [alloc_size - 4 < size <= alloc_size] passes the argument check of
    [balloc], but the block it requires is larger than [alloc_size], which
    bounds every block; [balloc] returns [NULL] and leaves the state as it
    is.  No request above [alloc_size - 4] bytes ever succeeds, and one of
    exactly [alloc_size - 4] bytes succeeds right after [init_heap]. *)
Theorem balloc_top_sizes_fail st rows size :
  reachable st → heap_rows st rows →
  alloc_size st - 4 < size ≤ alloc_size st →
  (size <=? 0) || (size >? alloc_size st) = false ∧
  alloc_size st < required size ∧
  (∀ r, r ∈ rows → t_size r ≤ alloc_size st) ∧
  (∀ fuel, (length rows < fuel)%nat → balloc fuel st size = Some (NULL, st)) ∧
  (∀ fuel size' ptr st',
      balloc fuel st size' = Some (ptr, st') → ptr ≠ NULL →
      size' ≤ alloc_size st - 4) ∧
  (∃ st0 st', reachable st0 ∧ alloc_size st0 = alloc_size st ∧
      balloc 2 st0 (alloc_size st - 4) = Some (heap_start st0 + 4, st')).
Proof.
  intros Hreach Hrows Hsize.
  destruct (reachable_inv st Hreach) as [rows' Hinv].
  rewrite (heap_inv_unique _ _ _ Hinv Hrows) in *. clear rows Hrows.
  destruct (inv_size _ _ Hinv) as [[Halo Hahi] Ha8].
  destruct (required_bounds size) as [Hreq8 Hreqb].
  assert (Hbig : alloc_size st < required size) by lia.
  assert (Hle : ∀ r, r ∈ rows' → t_size r ≤ alloc_size st).
  { intros r Hin. by destruct (heap_inv_begins _ _ _ Hinv Hin) as (_ & _ & ?). }
  split_and!; try done.
  - destruct (Z.leb_spec size 0), (Z.gtb_spec size (alloc_size st));
      simpl; try done; lia.
  - intros fuel Hfuel.
    destruct (balloc_inv_cases st rows' size Hinv ltac:(lia))
      as [(pre & r & post & Hfirst & _)
         |[(_ & pre & r & post & Hbest & _)|(_ & Hrun)]].
    + exfalso. destruct Hfirst as (-> & [_ Hsz] & _).
      specialize (Hle r). rewrite Hsz in Hle.
      assert (required size ≤ alloc_size st); [|lia].
      apply Hle. apply elem_of_app. right. apply list_elem_of_here.
    + exfalso. destruct Hbest as (-> & [_ Hfit] & _).
      assert (t_size r ≤ alloc_size st); [|lia].
      apply Hle. apply elem_of_app. right. apply list_elem_of_here.
    + by apply Hrun.
  - intros fuel size' ptr st' Hb Hnn.
    destruct (balloc_success_fits _ _ _ _ _ _ Hinv Hb Hnn)
      as (Hsz' & r & Hin & [_ Hfit]).
    destruct (required_bounds size') as [_ Hb']. specialize (Hle r Hin). lia.
  - destruct (reachable_origin st Hreach)
      as (env & sz & st0 & Henv & Hinit & Hs0 & Ha0).
    pose proof (init_heap_inv env sz st0 Henv Hinit) as Hinv0.
    set (r0 := Row false true (heap_start st0) (alloc_size st0)) in *.
    assert (Hreq : required (alloc_size st - 4) = alloc_size st0).
    { unfold required, sizeof_blockHeader.
      replace (alloc_size st - 4 + 4) with (alloc_size st) by lia.
      rewrite round_up8_fixed by done. done. }
    destruct (balloc_exact_case st0 [r0] (alloc_size st - 4) [] r0 []
                Hinv0 ltac:(lia)) with (fuel := 2%nat)
      as (st' & Hb & _).
    + rewrite Hreq. split_and!; [done|by split|].
      intros r' Hr'. by apply elem_of_nil in Hr'.
    + simpl. lia.
    + exists st0, st'. split_and!; try done.
      by apply (reach_init env sz).
Qed.

Lemma balloc_top_sizes_fail_witness :
  (4086 <=? 0) || (4086 >? alloc_size demo_heap) = false ∧
  alloc_size demo_heap < required 4086 ∧
  (∀ r, r ∈ [Row false true 8196 4088] → t_size r ≤ alloc_size demo_heap) ∧
  (∀ fuel, (length [Row false true 8196 4088] < fuel)%nat →
           balloc fuel demo_heap 4086 = Some (NULL, demo_heap)) ∧
  (∀ fuel size' ptr st',
      balloc fuel demo_heap size' = Some (ptr, st') → ptr ≠ NULL →
      size' ≤ alloc_size demo_heap - 4) ∧
  (∃ st0 st', reachable st0 ∧ alloc_size st0 = alloc_size demo_heap ∧
      balloc 2 st0 (alloc_size demo_heap - 4)
      = Some (heap_start st0 + 4, st')).
Proof.
  apply (balloc_top_sizes_fail demo_heap [Row false true 8196 4088] 4086
           demo_heap_reachable demo_heap_rows).
  vm_compute. split; [reflexivity|discriminate].
Defined.

(** ** Validation and effect of bfree *)

(** On the header of a block of the list the test of [bfree] on the
    remainder modulo 8 reads the a-bit. *)
Lemma header_test_reads_bit {closed} st rows r :
  heap_inv_at closed st rows → r ∈ rows →
  (reads_free st (t_begin r + 4) ↔
   isAllocated (load (mem st) (t_begin r + 4 - 4)) = false) ∧
  isAllocated (load (mem st) (t_begin r + 4 - 4)) = r_used r.
Proof.
  intros Hinv Hin. unfold reads_free.
  replace (t_begin r + 4 - 4) with (t_begin r) by lia.
  destruct (chain_begin_range _ _ _ _ _ (inv_chain _ _ Hinv) Hin)
    as (_ & _ & Hok & Hl).
  rewrite Hl, (hdr_crem r Hok), (isAllocated_hdr r Hok).
  split; [|done].
  destruct (r_prev_used r), (r_used r); simpl; split; intros H;
    try done; try lia; auto.
Qed.

(** C5 as stated fails.  A 16-byte block is in use and the client has stored
    the word 4 into its payload.  For the address 4 bytes behind that word,
    which is a multiple of 8 inside the region, the a-bit of the word before
    the address is clear, yet [bfree] returns 0: the word leaves the
    remainder 4, and the test of [bfree] rejects the remainders 0 and 2. *)
Lemma bfree_checks_bit_counterexample :
  disciplined poked_heap ∧ ¬ bfree_checks_bit poked_heap 8208.
Proof.
  split; [apply poked_heap_disciplined|]. intros [_ Hfails].
  assert (Hrc : (bfree poked_heap 8208).1 = -1).
  { apply Hfails. do 4 right. vm_compute. reflexivity. }
  vm_compute in Hrc. discriminate.
Qed.

(** C5.  Validation by [bfree], as the code tests it.  Whatever the payloads
    hold, [bfree(ptr)] returns -1 exactly when [ptr] is null, or not a
    multiple of 8, or outside [heap_start .. heap_start + alloc_size], or
    the word 4 bytes before [ptr] leaves the remainder 0 or 2 modulo 8.
    Where [ptr] is the payload address of a block of the list, that word is
    the header of the block and the test reads its a-bit: the payload
    address of a free block is rejected.  A failing call leaves the state as
    it is; a call that does not fail returns 0.  Given the payload address
    of a block in use, [bfree] returns 0, clears the a-bit of that block and
    the p-bit of the next block when there is one; calling [bfree] again on
    the same address returns -1 and changes nothing. *)
Theorem bfree_validation st rows ptr :
  disciplined st → heap_rows st rows →
  ((bfree st ptr).1 = -1 ↔
     ptr = NULL ∨ ptr mod 8 ≠ 0 ∨
     ptr < heap_start st ∨ heap_start st + alloc_size st < ptr ∨
     reads_free st ptr)
  ∧ (∀ r, r ∈ rows → ptr = t_begin r + 4 →
       (reads_free st ptr ↔
        isAllocated (load (mem st) (ptr - 4)) = false) ∧
       isAllocated (load (mem st) (ptr - 4)) = r_used r)
  ∧ (∀ r, r ∈ rows → ptr = t_begin r + 4 → r_used r = false →
       (bfree st ptr).1 = -1)
  ∧ ((bfree st ptr).1 = -1 → (bfree st ptr).2 = st)
  ∧ ((bfree st ptr).1 ≠ -1 → (bfree st ptr).1 = 0)
  ∧ (∀ pre r post,
       rows = pre ++ r :: post → ptr = t_begin r + 4 → r_used r = true →
       (bfree st ptr).1 = 0 ∧
       heap_rows (bfree st ptr).2 (release pre r post) ∧
       bfree (bfree st ptr).2 ptr = (-1, (bfree st ptr).2)).
Proof.
  intros Hst Hrows.
  destruct (disciplined_inv st Hst) as [rows' Hinv].
  rewrite (heap_inv_unique _ _ _ Hinv Hrows) in *. clear rows Hrows.
  split_and!.
  - apply bfree_fails_raw.
  - intros r Hin ->. by apply (header_test_reads_bit st rows' r Hinv).
  - intros r Hin -> Hfree. apply bfree_fails_raw. do 4 right.
    destruct (header_test_reads_bit st rows' r Hinv Hin) as [Htest Hbit].
    apply Htest. by rewrite Hbit.
  - apply bfree_fail_unchanged.
  - intros Hok. by destruct (bfree_codes st ptr).
  - intros pre r post -> -> Hused.
    destruct (bfree_release_inv _ _ _ _ Hinv Hused) as [Heq Hinv'].
    split_and!; [by rewrite Heq|by eapply heap_inv_rows|].
    set (st' := (bfree st (t_begin r + 4)).2) in *.
    assert (Hfail : (bfree st' (t_begin r + 4)).1 = -1).
    { apply bfree_fails_raw. do 4 right.
      unfold release in Hinv'.
      destruct (heap_inv_split _ _ _ _ Hinv') as (_ & Hl & Hr & _).
      cbv zeta in Hl. simpl in Hl.
      replace (t_begin r + 4 - 4) with (t_begin r) by lia.
      rewrite Hl, (hdr_crem _ Hr). simpl.
      destruct (r_prev_used r); simpl; auto. }
    pose proof (bfree_fail_unchanged _ _ Hfail) as Hsame.
    destruct (bfree st' (t_begin r + 4)) as [rc st'']. simpl in *.
    by subst.
Qed.

Lemma bfree_validation_witness :
  ((bfree poked_heap 8200).1 = -1 ↔
     8200 = NULL ∨ 8200 mod 8 ≠ 0 ∨
     8200 < heap_start poked_heap ∨
     heap_start poked_heap + alloc_size poked_heap < 8200 ∨
     reads_free poked_heap 8200)
  ∧ (∀ r, r ∈ poked_rows → 8200 = t_begin r + 4 →
       (reads_free poked_heap 8200 ↔
        isAllocated (load (mem poked_heap) (8200 - 4)) = false) ∧
       isAllocated (load (mem poked_heap) (8200 - 4)) = r_used r)
  ∧ (∀ r, r ∈ poked_rows → 8200 = t_begin r + 4 → r_used r = false →
       (bfree poked_heap 8200).1 = -1)
  ∧ ((bfree poked_heap 8200).1 = -1 →
     (bfree poked_heap 8200).2 = poked_heap)
  ∧ ((bfree poked_heap 8200).1 ≠ -1 → (bfree poked_heap 8200).1 = 0)
  ∧ (∀ pre r post,
       poked_rows = pre ++ r :: post → 8200 = t_begin r + 4 →
       r_used r = true →
       (bfree poked_heap 8200).1 = 0 ∧
       heap_rows (bfree poked_heap 8200).2 (release pre r post) ∧
       bfree (bfree poked_heap 8200).2 8200
       = (-1, (bfree poked_heap 8200).2)).
Proof.
  exact (bfree_validation poked_heap poked_rows 8200
           poked_heap_disciplined poked_heap_rows).
Defined.

(** ** The runs of a block list *)

Lemma runs_cons r rows : runs (r :: rows) = join r (runs rows).
Proof. reflexivity. Qed.

Lemma concat_join r groups : concat (join r groups) = r :: concat groups.
Proof.
  unfold join. destruct groups as [|[|r' g] groups]; simpl; try done.
  by destruct (negb (r_used r) && negb (r_used r')).
Qed.

(** The runs, put back together, are the block list. *)
Lemma runs_concat rows : concat (runs rows) = rows.
Proof.
  induction rows as [|r rows IH]; [done|].
  by rewrite runs_cons, concat_join, IH.
Qed.

Lemma runs_groups rows : Forall group_ok (runs rows).
Proof.
  induction rows as [|r rows IH]; [constructor|].
  rewrite runs_cons. unfold join.
  assert (Hone : group_ok [r]).
  { destruct (r_used r) eqn:E; [left; by exists r|right].
    split; [done|]. by repeat constructor. }
  destruct (runs rows) as [|[|r' g] groups]; try by constructor.
  destruct (negb (r_used r) && negb (r_used r')) eqn:E; [|by constructor].
  apply andb_true_iff in E as [E1 E2].
  apply Forall_cons in IH as [Hg IH]. constructor; [|done].
  right. split; [done|].
  destruct Hg as [(r0 & [= -> ->] & Hu)|[_ Hall]].
  - rewrite Hu in E2. done.
  - constructor; [by destruct (r_used r)|done].
Qed.

(** Two neighbouring groups are never both free: each run is maximal. *)
Lemma runs_maximal rows i g1 g2 :
  runs rows !! i = Some g1 → runs rows !! S i = Some g2 →
  (∃ r, r ∈ g1 ∧ r_used r = true) ∨ (∃ r, r ∈ g2 ∧ r_used r = true).
Proof.
  revert i g1 g2. induction rows as [|r rows IH]; intros i g1 g2 H1 H2;
    [done|].
  rewrite runs_cons in H1, H2. unfold join in H1, H2.
  pose proof (runs_groups rows) as Hok.
  destruct (runs rows) as [|[|r' g] groups] eqn:Eruns.
  - done.
  - apply Forall_cons in Hok as [[(r0 & [=] & _)|[Hne _]] _]; done.
  - destruct (negb (r_used r) && negb (r_used r')) eqn:E.
    + (* the block joins the first run *)
      destruct i as [|i]; simpl in H1, H2.
      * injection H1 as <-.
        destruct (IH 0%nat (r' :: g) g2 eq_refl H2)
          as [(r0 & Hin & Hu)|Hright]; [|by right].
        left. exists r0. split; [by apply list_elem_of_further|done].
      * by apply (IH (S i)).
    + (* the block starts a group of its own *)
      destruct i as [|i]; simpl in H1, H2.
      * injection H1 as <-. injection H2 as <-.
        apply andb_false_iff in E as [E|E].
        -- left. exists r. split; [apply list_elem_of_here|].
           by destruct (r_used r).
        -- right. exists r'. split; [apply list_elem_of_here|].
           by destruct (r_used r').
      * by apply (IH i).
Qed.

Lemma has_merge_iff rows :
  has_merge rows = true ↔ ∃ g, g ∈ runs rows ∧ (2 ≤ length g)%nat.
Proof.
  unfold has_merge. rewrite existsb_exists. split.
  - intros (g & Hin & Hlen). exists g. split; [by apply list_elem_of_In|].
    by apply Nat.leb_le.
  - intros (g & Hin & Hlen). exists g. split; [by apply list_elem_of_In|].
    by apply Nat.leb_le.
Qed.

Lemma free_run_free rows :
  Forall (fun r => r_used r = false) (free_run rows).
Proof.
  induction rows as [|r rows IH]; simpl; [constructor|].
  destruct (r_used r) eqn:E; by constructor.
Qed.

Lemma coalesced_keeps_used n :
  ∀ rows r, (length rows ≤ n)%nat →
    r ∈ rows → r_used r = true → r ∈ coalesced rows.
Proof.
  induction n as [|n IH]; intros rows r Hn Hin Hu.
  { destruct rows; [by apply elem_of_nil in Hin|simpl in Hn; lia]. }
  destruct rows as [|r0 rows]; [by apply elem_of_nil in Hin|].
  simpl in Hn. destruct (r_used r0) eqn:E0.
  - rewrite (coalesced_used r0 rows E0).
    apply elem_of_cons in Hin as [->|Hin]; [apply list_elem_of_here|].
    apply list_elem_of_further, IH; [lia|done|done].
  - rewrite (coalesced_free r0 rows E0). apply list_elem_of_further.
    apply elem_of_cons in Hin as [->|Hin]; [congruence|].
    rewrite <- (free_past_run rows) in Hin.
    apply elem_of_app in Hin as [Hin|Hin].
    + pose proof (free_run_free rows) as Hall.
      rewrite Forall_forall in Hall. specialize (Hall r Hin). congruence.
    + apply IH; [|done|done]. pose proof (past_run_length rows). lia.
Qed.

Lemma coalesced_no_merge n :
  ∀ rows, (length rows ≤ n)%nat → has_merge (coalesced rows) = false.
Proof.
  induction n as [|n IH]; intros rows Hn.
  { destruct rows; [done|simpl in Hn; lia]. }
  destruct rows as [|r rows]; [done|].
  simpl in Hn. destruct (r_used r) eqn:E.
  - rewrite (coalesced_used r rows E), (has_merge_used r _ E).
    apply IH. lia.
  - rewrite (coalesced_free r rows E), has_merge_free by done.
    pose proof (past_run_head rows) as Hhead.
    pose proof (past_run_length rows) as Hlen.
    destruct (past_run rows) as [|r' past] eqn:Epast; [done|].
    rewrite (coalesced_used r' past Hhead). simpl. rewrite Hhead. simpl.
    rewrite <- (coalesced_used r' past Hhead). apply IH. simpl in *. lia.
Qed.

Lemma store_same m a v : load m a = v → v ≠ 0 → store m a v = m.
Proof.
  unfold load, store. intros Hl Hv.
  destruct (m !! a) as [w|] eqn:E; simpl in Hl; [|congruence].
  subst w. by apply insert_id.
Qed.

(** Without two adjacent free blocks the pass writes back what it read. *)
Lemma coalesce_loop_fixed rows :
  ∀ fuel m a e count,
    chain m a rows e → load m e = 1 → e - a ≤ max_capacity →
    has_merge rows = false → (length rows < fuel)%nat →
    coalesce_loop fuel m a count = Some (count, m).
Proof.
  induction rows as [|r rows IH]; intros fuel m a e count Hc He Hcap Hno Hfuel;
    (destruct fuel as [|fuel]; [simpl in Hfuel; lia|]).
  - simpl in Hc. subst a. simpl. by rewrite He.
  - simpl in Hc, Hfuel. destruct Hc as (Hb & Hl & Hr & Hc).
    pose proof (chain_total _ _ _ _ Hc) as Htot.
    pose proof (total_size_nonneg _ _ _ _ Hc) as Hnn.
    pose proof (hdr_bounds r Hr) as Hhb.
    cbn [coalesce_loop]. rewrite Hl, (hdr_not_end r Hr). cbv zeta.
    rewrite (hdr_free_test r Hr), (hdr_fr_size r Hr).
    destruct (r_used r) eqn:Eu; simpl negb; cbv iota.
    + rewrite (has_merge_used r rows Eu) in Hno.
      apply (IH fuel m _ e); try done; try lia.
      destruct Hr as [[??] _]. lia.
    + rewrite (has_merge_free r rows Eu) in Hno.
      apply orb_false_iff in Hno as [Hrun Hno].
      pose proof (free_past_run rows) as Hsplit.
      pose proof (past_run_head rows) as Hhead.
      destruct (free_run rows) as [|? ?] eqn:Efree; [|done].
      simpl in Hsplit. rewrite Hsplit in Hno, Hhead.
      destruct Hr as [[Hrlo Hrhi] Hr8].
      rewrite (coalesce_absorb_run fuel m (a + t_size r) [] rows e
                 (t_size r) count); try done; try (simpl; lia).
      simpl total_size. rewrite !Z.add_0_r.
      assert (Hh : add (t_size r) (crem (size_status r) 8) = size_status r).
      { rewrite hdr_crem by (split; [split|]; done). rewrite Eu.
        unfold add, size_status. rewrite Eu. simpl. unfold max_capacity in *.
        rewrite wrap_small; destruct (r_prev_used r); simpl; lia. }
      rewrite Hh, store_same by (done || lia).
      apply (IH fuel m _ e); try done; lia.
Qed.

(** ** Coalescing *)

(** C6.  Postcondition of [coalesce].  One call in a reachable state puts,
    in place of every maximal run of adjacent free blocks, one free block
    that starts where the run starts, carries the predecessor bit of the
    first block of the run and spans the sum of the sizes of the run.  The
    blocks in use stay in the block list with their header words as they
    were, the end mark stays, and the call returns 1 when some run held at
    least two blocks (a merge took place) and 0 otherwise.  The groups
    [runs rows] are the block list cut into pieces, each piece a single block
    in use or a run of free blocks, and no two neighbouring pieces are both
    free. *)
Theorem coalesce_postcondition st rows :
  reachable st → heap_rows st rows →
  (concat (runs rows) = rows ∧ Forall group_ok (runs rows) ∧
   ∀ i g1 g2, runs rows !! i = Some g1 → runs rows !! S i = Some g2 →
     (∃ r, r ∈ g1 ∧ r_used r = true) ∨ (∃ r, r ∈ g2 ∧ r_used r = true))
  ∧ ∀ fuel, (length rows < fuel)%nat →
    ∃ rc st', coalesce fuel st = Some (rc, st') ∧
      heap_rows st' (merged <$> runs rows) ∧
      (rc = 1 ∨ rc = 0) ∧
      (rc = 1 ↔ ∃ g, g ∈ runs rows ∧ (2 ≤ length g)%nat) ∧
      (∀ r, r ∈ rows → r_used r = true →
            r ∈ (merged <$> runs rows) ∧
            load (mem st') (t_begin r) = load (mem st) (t_begin r)) ∧
      load (mem st') (heap_start st + alloc_size st) = 1 ∧
      heap_start st' = heap_start st ∧ alloc_size st' = alloc_size st.
Proof.
  intros Hreach Hrows.
  destruct (reachable_inv st Hreach) as [rows' Hinv].
  rewrite (heap_inv_unique _ _ _ Hinv Hrows) in *. clear rows Hrows.
  split.
  { split_and!; [apply runs_concat|apply runs_groups|apply runs_maximal]. }
  intros fuel Hfuel.
  destruct (coalesce_inv st rows' fuel Hinv Hfuel) as (st' & Hrun & Hinv' & _).
  destruct (coalesce_globals _ _ _ _ Hrun) as (Hs & Ha & _).
  exists (if has_merge rows' then 1 else 0), st'.
  fold (coalesced rows'). split_and!; try done.
  - by eapply heap_inv_rows.
  - destruct (has_merge rows'); auto.
  - rewrite <- has_merge_iff. destruct (has_merge rows'); split; done.
  - intros r Hin Hu.
    pose proof (coalesced_keeps_used (length rows') rows' r ltac:(lia) Hin Hu)
      as Hin'.
    split; [done|].
    destruct (chain_begin_range _ _ _ _ _ (inv_chain _ _ Hinv) Hin)
      as (_ & _ & _ & ->).
    by destruct (chain_begin_range _ _ _ _ _ (inv_chain _ _ Hinv') Hin')
      as (_ & _ & _ & ->).
  - rewrite <- Hs, <- Ha. apply Hinv'.
Qed.

(** Free blocks of 16, 24 and 32 bytes in a row become one free block of 72
    bytes, and the call returns 1. *)
Lemma coalesce_postcondition_witness :
  ∃ st', coalesce 8 released_heap = Some (1, st') ∧
    heap_rows st'
      [ Row false true 8196 72; Row true false 8268 8;
        Row false true 8276 4008 ].
Proof.
  destruct (coalesce_postcondition released_heap released_rows
              released_heap_reachable released_heap_rows) as [_ Hcall].
  destruct (Hcall 8%nat) as (rc & st' & Hrun & Hrows' & _ & Hrc & _);
    [simpl; lia|].
  exists st'. split; [|exact Hrows'].
  assert (Hone : rc = 1).
  { apply Hrc. exists [Row false true 8196 16; Row false false 8212 24;
                       Row false false 8236 32].
    split; [apply list_elem_of_here|simpl; lia]. }
  rewrite <- Hone. exact Hrun.
Defined.

(** ** Separated block lists *)

Lemma separated_no_merge prev rows :
  pbits_ok prev rows → separated rows → has_merge rows = false.
Proof.
  revert prev. induction rows as [|r rows IH]; intros prev Hp Hsep; [done|].
  simpl in Hp. destruct Hp as [_ Hp].
  apply Forall_cons in Hsep as [_ Hsep].
  destruct (r_used r) eqn:Eu.
  - rewrite (has_merge_used r rows Eu). by apply (IH true).
  - rewrite (has_merge_free r rows Eu).
    destruct rows as [|r' rows]; [done|].
    assert (Hu' : r_used r' = true).
    { simpl in Hp. destruct Hp as [Hp' _].
      apply Forall_cons in Hsep as [Hr' _].
      destruct (r_used r') eqn:E'; [done|]. specialize (Hr' eq_refl).
      congruence. }
    simpl. rewrite Hu'. simpl.
    change (has_merge (r' :: rows) = false). by apply (IH false).
Qed.

Lemma no_merge_separated prev rows :
  pbits_ok prev rows → has_merge rows = false →
  (prev = false → match rows with [] => True | r :: _ => r_used r = true end) →
  separated rows.
Proof.
  revert prev. induction rows as [|r rows IH]; intros prev Hp Hno Hhead;
    [constructor|].
  simpl in Hp. destruct Hp as [Hprev Hp].
  constructor.
  - intros Hfree. destruct prev; [done|].
    specialize (Hhead eq_refl). simpl in Hhead. congruence.
  - destruct (r_used r) eqn:Eu.
    + rewrite (has_merge_used r rows Eu) in Hno. by apply (IH true).
    + rewrite (has_merge_free r rows Eu) in Hno.
      apply orb_false_iff in Hno as [Hrun Hno].
      pose proof (free_past_run rows) as Hsplit.
      destruct (free_run rows) as [|? ?] eqn:Efree; [|done].
      simpl in Hsplit. rewrite Hsplit in Hno.
      apply (IH false); try done.
      intros _. destruct rows as [|r' rows]; [done|].
      simpl in Efree. by destruct (r_used r').
Qed.

Lemma coalesced_separated rows :
  pbits_ok true rows → separated (coalesced rows).
Proof.
  intros Hp. apply (no_merge_separated true).
  - by apply (coalesced_pbits (length rows)).
  - by apply (coalesced_no_merge (length rows)).
  - done.
Qed.

Lemma separated_app rows1 rows2 :
  separated (rows1 ++ rows2) ↔ separated rows1 ∧ separated rows2.
Proof. apply Forall_app. Qed.

Lemma separated_alloc_exact pre r post :
  separated (pre ++ r :: post) → separated (alloc_exact pre r post).
Proof.
  unfold alloc_exact. rewrite !separated_app. intros [Hpre Hrest].
  split; [done|]. apply Forall_cons in Hrest as [_ Hpost].
  constructor; [done|].
  destruct post as [|r' post]; [done|]. simpl.
  apply Forall_cons in Hpost as [_ Hpost]. by constructor.
Qed.

Lemma separated_alloc_split req pre r post :
  separated (pre ++ r :: post) → separated (alloc_split req pre r post).
Proof.
  unfold alloc_split. rewrite !separated_app. intros [Hpre Hrest].
  split; [done|]. apply Forall_cons in Hrest as [_ Hpost].
  by repeat constructor.
Qed.

(** Calls that release nothing keep a separated heap separated. *)
Lemma no_release_separated st rows st' :
  heap_inv st rows → separated rows → no_release st st' →
  ∃ rows', heap_inv st' rows' ∧ separated rows'.
Proof.
  intros Hinv Hsep Hsteps.
  induction Hsteps as [st|st st1 fuel size ptr st2 _ IH Hb
                      |st st1 ptr st2 _ IH Hb
                      |st st1 env sz rc st2 _ IH Hinit].
  - by exists rows.
  - destruct (IH Hinv) as (rows1 & Hinv1 & Hsep1).
    destruct (decide (0 < size ≤ alloc_size st1)) as [Hsize|Hbad].
    + apply (balloc_more _ (fuel `max` S (length rows1))%nat) in Hb; [|lia].
      destruct (balloc_inv_cases st1 rows1 size Hinv1 Hsize)
        as [(pre & r & post & Hfirst & Hrun)
           |[(_ & pre & r & post & Hbest & Hrun)|(_ & Hrun)]].
      * destruct (Hrun (fuel `max` S (length rows1))%nat ltac:(lia))
          as (st3 & Heq & Hinv3).
        rewrite Hb in Heq. injection Heq as _ ->.
        eexists. split; [done|]. apply separated_alloc_exact.
        by destruct Hfirst as (<- & _).
      * destruct (Hrun (fuel `max` S (length rows1))%nat ltac:(lia))
          as (st3 & Heq & Hinv3).
        rewrite Hb in Heq. injection Heq as _ ->.
        eexists. split; [done|]. apply separated_alloc_split.
        by destruct Hbest as (<- & _).
      * rewrite Hrun in Hb by lia. injection Hb as _ <-. by exists rows1.
    + unfold balloc in Hb.
      replace ((size <=? 0) || (size >? alloc_size st1)) with true in Hb.
      * injection Hb as _ <-. by exists rows1.
      * destruct (Z.leb_spec size 0), (Z.gtb_spec size (alloc_size st1));
          simpl; try done; lia.
  - destruct (IH Hinv) as (rows1 & Hinv1 & Hsep1).
    pose proof (bfree_fail_unchanged st1 ptr) as Hsame.
    rewrite Hb in Hsame. simpl in Hsame. rewrite Hsame by done.
    by exists rows1.
  - destruct (IH Hinv) as (rows1 & Hinv1 & Hsep1).
    rewrite (init_heap_again _ _ _ _ Hinv1) in Hinit.
    injection Hinit as _ <-. by exists rows1.
Qed.

(** C7.  [coalesce] is idempotent.  After a call of [coalesce] in a reachable
    state, followed by any calls that release nothing (calls of [balloc],
    failing calls of [bfree]; none at all when the two calls of [coalesce]
    follow each other directly), a second call of [coalesce] returns 0 and
    leaves the state as it is: no merge takes place. *)
Theorem coalesce_idempotent st fuel rc st1 st2 rows2 :
  reachable st → coalesce fuel st = Some (rc, st1) →
  no_release st1 st2 → heap_rows st2 rows2 →
  ∀ fuel', (length rows2 < fuel')%nat → coalesce fuel' st2 = Some (0, st2).
Proof.
  intros Hreach Hc Hsteps Hrows2 fuel' Hfuel'.
  destruct (reachable_inv st Hreach) as [rows Hinv].
  destruct (coalesce_inv st rows (fuel `max` S (length rows))%nat Hinv
              ltac:(lia)) as (st1' & Hrun & Hinv1 & _).
  rewrite (coalesce_more _ (fuel `max` S (length rows))%nat _ _ Hc) in Hrun
    by lia.
  injection Hrun as _ <-.
  destruct (no_release_separated st1 _ st2 Hinv1
              (coalesced_separated rows (inv_pbits _ _ Hinv)) Hsteps)
    as (rows2' & Hinv2 & Hsep2).
  rewrite (heap_inv_unique _ _ _ Hinv2 Hrows2) in Hfuel'.
  unfold coalesce.
  rewrite (coalesce_loop_fixed rows2' fuel' (mem st2)
             (heap_start st2) (heap_start st2 + alloc_size st2) 0);
    try apply Hinv2; try done.
  - by destruct st2.
  - destruct (inv_size _ _ Hinv2) as [[_ ?] _]. lia.
  - by apply (separated_no_merge true); [apply Hinv2|].
Qed.

(** After the three free blocks have been merged, the next call returns 0,
    also when 50 bytes are allocated in between. *)
Lemma coalesce_idempotent_witness :
  coalesce 8 (after_coalesce released_heap)
  = Some (0, after_coalesce released_heap) ∧
  coalesce 8 (after_balloc (after_coalesce released_heap) 50)
  = Some (0, after_balloc (after_coalesce released_heap) 50).
Proof.
  assert (Hc : coalesce 16 released_heap
               = Some (1, after_coalesce released_heap))
    by (vm_compute; reflexivity).
  split.
  - apply (coalesce_idempotent released_heap 16 1
             (after_coalesce released_heap) (after_coalesce released_heap)
             [ Row false true 8196 72; Row true false 8268 8;
               Row false true 8276 4008 ]
             released_heap_reachable Hc).
    + apply no_release_refl.
    + exists 8%nat. vm_compute. reflexivity.
    + simpl. lia.
  - apply (coalesce_idempotent released_heap 16 1
             (after_coalesce released_heap)
             (after_balloc (after_coalesce released_heap) 50)
             [ Row true true 8196 56; Row false true 8252 16;
               Row true false 8268 8; Row false true 8276 4008 ]
             released_heap_reachable Hc).
    + apply (no_release_balloc _ (after_coalesce released_heap) 16 50 8200).
      * apply no_release_refl.
      * vm_compute. reflexivity.
    + exists 8%nat. vm_compute. reflexivity.
    + simpl. lia.
Defined.

(** ** Reuse of a released block *)

Lemma required_mono y x : y ≤ x → required y ≤ required x.
Proof.
  intros Hle. unfold required, round_up8, sizeof_blockHeader.
  assert ((y + 4 + 7) / 8 ≤ (x + 4 + 7) / 8)
    by (apply Z.div_le_mono; lia).
  lia.
Qed.

Lemma set_prev_length p rows : length (set_prev p rows) = length rows.
Proof. by destruct rows. Qed.

(** The block handed out by a successful [balloc]. *)
Lemma balloc_success_block {closed} fuel st rows size ptr st' :
  heap_inv_at closed st rows → balloc fuel st size = Some (ptr, st') → ptr ≠ NULL →
  0 < size ≤ alloc_size st ∧
  ∃ pre r post,
    heap_inv_at closed st' (pre ++ r :: post) ∧ t_begin r + 4 = ptr ∧
    r_used r = true ∧ t_size r = required size.
Proof.
  intros Hinv Hb Hnn.
  destruct (balloc_success_fits _ _ _ _ _ _ Hinv Hb Hnn) as [Hsize _].
  split; [done|].
  apply (balloc_more _ (fuel `max` S (length rows))%nat) in Hb; [|lia].
  destruct (balloc_inv_cases st rows size Hinv Hsize)
    as [(pre & r & post & Hfirst & Hrun)
       |[(_ & pre & r & post & Hbest & Hrun)|(_ & Hrun)]].
  - destruct (Hrun (fuel `max` S (length rows))%nat ltac:(lia))
      as (st1 & Heq & Hinv1).
    rewrite Hb in Heq. injection Heq as -> ->.
    destruct Hfirst as (_ & [_ Hsz] & _).
    eexists pre, _, (set_prev true post). split; [apply Hinv1|]. done.
  - destruct (Hrun (fuel `max` S (length rows))%nat ltac:(lia))
      as (st1 & Heq & Hinv1).
    rewrite Hb in Heq. injection Heq as -> ->.
    eexists pre, _, (_ :: post). split; [apply Hinv1|]. done.
  - rewrite Hrun in Hb by lia. by injection Hb as <- _.
Qed.

(** C9, as amended.  After a successful [balloc(x)] in a reachable state
    and a successful [bfree] of the address [p] it returned, the released
    block is free and has the size required for [x].  For [0 < y <= x]:
    when [y] requires the same block size and no free block of exactly that
    size precedes the released block, [balloc(y)] returns [p] again and the
    block list keeps its length; when [y] requires a smaller block, no free
    block has exactly that size and the released block is the smallest free
    block that fits (the first among equals), [balloc(y)] returns [p] again
    and the block list grows by one block, the remainder of the split. *)
Theorem reuse_after_release st x y fuel p st1 st2 rows2 :
  reachable st → 0 < y ≤ x →
  balloc fuel st x = Some (p, st1) → p ≠ NULL →
  bfree st1 p = (0, st2) → heap_rows st2 rows2 →
  ∃ pre r post,
    rows2 = pre ++ r :: post ∧ t_begin r + 4 = p ∧
    r_used r = false ∧ t_size r = required x ∧
    required y ≤ required x ∧
    (required y = required x →
     (∀ r', r' ∈ pre → ¬ exact (required y) r') →
     ∀ fuel', (length rows2 < fuel')%nat →
       ∃ st3 rows3, balloc fuel' st2 y = Some (p, st3) ∧
                    heap_rows st3 rows3 ∧ length rows3 = length rows2) ∧
    (required y < required x →
     (∀ r', r' ∈ rows2 → ¬ exact (required y) r') →
     best_fit_at (required y) rows2 pre r post →
     ∀ fuel', (length rows2 < fuel')%nat →
       ∃ st3 rows3, balloc fuel' st2 y = Some (p, st3) ∧
                    heap_rows st3 rows3 ∧
                    length rows3 = S (length rows2)).
Proof.
  intros Hreach Hyx Hb Hnn Hfree Hrows2.
  destruct (reachable_inv st Hreach) as [rows Hinv].
  destruct (balloc_success_block _ _ _ _ _ _ Hinv Hb Hnn)
    as (Hx & pre & r & post & Hinv1 & Hp & Hused & Hsz).
  destruct (balloc_globals _ _ _ _ _ Hb) as (_ & Ha1 & _).
  destruct (bfree_release_inv _ _ _ _ Hinv1 Hused) as [_ Hinv2].
  destruct (bfree_globals st1 (t_begin r + 4)) as (_ & Ha2 & _).
  rewrite Hp, Hfree in Hinv2, Ha2. simpl in Hinv2, Ha2.
  rewrite (heap_inv_unique _ _ _ Hinv2 Hrows2) in *. clear rows2 Hrows2.
  set (r' := Row false (r_prev_used r) (t_begin r) (t_size r)) in *.
  assert (Hy : 0 < y ≤ alloc_size st2) by lia.
  exists pre, r', (set_prev false post).
  split_and!; try done.
  - apply required_mono. lia.
  - intros Heq Hpre fuel' Hfuel'.
    destruct (balloc_exact_case st2 _ y pre r' (set_prev false post)
                Hinv2 Hy) with (fuel := fuel') as (st3 & Hb3 & Hinv3).
    + split_and!; [done| |done]. split; [done|]. simpl. lia.
    + done.
    + exists st3, (alloc_exact pre r' (set_prev false post)).
      simpl in Hb3. rewrite Hp in Hb3.
      split_and!; [done|by eapply heap_inv_rows|].
      unfold alloc_exact, release. rewrite !length_app. simpl.
      by rewrite !set_prev_length.
  - intros Hlt Hnex Hbest fuel' Hfuel'.
    destruct (balloc_split_case st2 _ y pre r' (set_prev false post)
                Hinv2 Hy Hnex Hbest) with (fuel := fuel')
      as (st3 & Hb3 & Hinv3); [done|].
    exists st3, (alloc_split (required y) pre r' (set_prev false post)).
    simpl in Hb3. rewrite Hp in Hb3.
    split_and!; [done|by eapply heap_inv_rows|].
    unfold alloc_split, release. rewrite !length_app. simpl. lia.
Qed.

(** After [balloc(100)] and [bfree] on the fresh heap, [balloc(96)] needs
    the same 104 bytes and takes the released block whole. *)
Lemma reuse_after_release_witness :
  ∃ st3 rows3,
    balloc 8 (bfree (after_balloc demo_heap 100) 8200).2 96
    = Some (8200, st3) ∧
    heap_rows st3 rows3 ∧ length rows3 = 2%nat.
Proof.
  destruct (reuse_after_release demo_heap 100 96 16 8200
              (after_balloc demo_heap 100)
              (bfree (after_balloc demo_heap 100) 8200).2
              [Row false true 8196 104; Row false false 8300 3984]
              demo_heap_reachable)
    as (pre & r & post & Hsplit & Hp & _ & _ & _ & Hsame & _).
  - lia.
  - vm_compute. reflexivity.
  - discriminate.
  - vm_compute. reflexivity.
  - exists 8%nat. vm_compute. reflexivity.
  - assert (Hpre : pre = []).
    { destruct pre as [|r0 pre]; [done|]. exfalso.
      injection Hsplit as <- Hrest.
      destruct pre as [|r1 pre].
      - injection Hrest as <- _. simpl in Hp. lia.
      - injection Hrest as _ Hrest. by destruct pre. }
    subst pre.
    destruct (Hsame eq_refl) with (fuel' := 8%nat)
      as (st3 & rows3 & Hb & Hrows3 & Hlen).
    + intros r' Hr'. by apply elem_of_nil in Hr'.
    + simpl. lia.
    + exists st3, rows3. exact (conj Hb (conj Hrows3 Hlen)).
Defined.

(** C9 as stated fails.  On the fresh heap, [balloc(100)], [bfree] and
    [balloc(10)] return the same address twice, but the second allocation
    splits the released 104-byte block and the block list grows from two to
    three blocks.  With a smaller free block elsewhere, [balloc(10)] does not
    even return the released block: best fit prefers the 32-byte block. *)
Lemma reuse_without_growth_counterexample :
  (reachable demo_heap ∧ ¬ reuse_without_growth demo_heap 100 10) ∧
  (reachable holed_heap ∧ ¬ reuse_without_growth holed_heap 100 10).
Proof.
  split; (split; [first [apply demo_heap_reachable
                        |apply holed_heap_reachable]|]); intros Hclaim.
  - destruct (Hclaim 8%nat 8200
                (after_balloc demo_heap 100)
                (bfree (after_balloc demo_heap 100) 8200).2
                [Row false true 8196 104; Row false false 8300 3984]
                8200
                (after_balloc (bfree (after_balloc demo_heap 100) 8200).2 10)
                [Row true true 8196 16; Row false true 8212 88;
                 Row false false 8300 3984])
      as [_ Hlen].
    + lia.
    + vm_compute. reflexivity.
    + discriminate.
    + vm_compute. reflexivity.
    + exists 8%nat. vm_compute. reflexivity.
    + intros r Hr Hp [_ Hsz].
      repeat (apply elem_of_cons in Hr as [->|Hr];
              [first [discriminate Hsz | by apply Hp]|]).
      by apply elem_of_nil in Hr.
    + vm_compute. reflexivity.
    + exists 8%nat. vm_compute. reflexivity.
    + simpl in Hlen. lia.
  - destruct (Hclaim 8%nat 8240
                (after_balloc holed_heap 100)
                (bfree (after_balloc holed_heap 100) 8240).2
                [Row false true 8196 32; Row true false 8228 8;
                 Row false true 8236 104; Row false false 8340 3944]
                8200
                (after_balloc (bfree (after_balloc holed_heap 100) 8240).2 10)
                [Row true true 8196 16; Row false true 8212 16;
                 Row true false 8228 8; Row false true 8236 104;
                 Row false false 8340 3944])
      as [Hq _].
    + lia.
    + vm_compute. reflexivity.
    + discriminate.
    + vm_compute. reflexivity.
    + exists 8%nat. vm_compute. reflexivity.
    + intros r Hr Hp [_ Hsz].
      repeat (apply elem_of_cons in Hr as [->|Hr];
              [first [discriminate Hsz | by apply Hp]|]).
      by apply elem_of_nil in Hr.
    + vm_compute. reflexivity.
    + exists 8%nat. vm_compute. reflexivity.
    + discriminate Hq.
Qed.

(** ** Failing calls *)

(** A [balloc] that returns [NULL] in a reachable state changes nothing. *)
Lemma balloc_null_unchanged fuel st size st' :
  reachable st → balloc fuel st size = Some (NULL, st') → st' = st.
Proof.
  intros Hreach Hb. destruct (reachable_inv st Hreach) as [rows Hinv].
  destruct (inv_start _ _ Hinv) as [Hpos _].
  assert (Hpayload : ∀ r, r ∈ rows → t_begin r + 4 ≠ NULL).
  { intros r Hin.
    destruct (chain_begin_range _ _ _ _ _ (inv_chain _ _ Hinv) Hin)
      as (Hlo & _). unfold NULL. lia. }
  destruct (decide (0 < size ≤ alloc_size st)) as [Hsize|Hbad].
  - apply (balloc_more _ (fuel `max` S (length rows))%nat) in Hb; [|lia].
    destruct (balloc_inv_cases st rows size Hinv Hsize)
      as [(pre & r & post & Hfirst & Hrun)
         |[(_ & pre & r & post & Hbest & Hrun)|(_ & Hrun)]].
    + destruct (Hrun (fuel `max` S (length rows))%nat ltac:(lia))
        as (st1 & Heq & _).
      rewrite Hb in Heq. injection Heq as Heq _. exfalso.
      apply (Hpayload r); [|done]. destruct Hfirst as (-> & _).
      apply elem_of_app. right. apply list_elem_of_here.
    + destruct (Hrun (fuel `max` S (length rows))%nat ltac:(lia))
        as (st1 & Heq & _).
      rewrite Hb in Heq. injection Heq as Heq _. exfalso.
      apply (Hpayload r); [|done]. destruct Hbest as (-> & _).
      apply elem_of_app. right. apply list_elem_of_here.
    + rewrite Hrun in Hb by lia. by injection Hb as <-.
  - unfold balloc in Hb.
    replace ((size <=? 0) || (size >? alloc_size st)) with true in Hb.
    + by injection Hb as <-.
    + destruct (Z.leb_spec size 0), (Z.gtb_spec size (alloc_size st));
        simpl; try done; lia.
Qed.

(** [init_heap] changes nothing when it rejects its call: after a previous
    successful call, or for a size that is not positive. *)
Lemma init_heap_rejected env st sizeOfRegion :
  allocated_once st ≠ 0 ∨ sizeOfRegion ≤ 0 →
  init_heap env st sizeOfRegion = (-1, st).
Proof.
  intros Hbad. unfold init_heap.
  destruct (Z.eqb_spec 0 (allocated_once st)) as [Hz|Hnz]; simpl; [|done].
  destruct (Z.leb_spec sizeOfRegion 0); [done|]. lia.
Qed.

(** When /dev/zero cannot be opened or [mmap] fails, [init_heap] returns -1
    after it has stored the padded size in [alloc_size]. *)
Lemma init_heap_no_backing_store env st sizeOfRegion :
  allocated_once st = 0 → 0 < sizeOfRegion →
  open_ok env = false ∨ mmap_result env = None →
  (init_heap env st sizeOfRegion).1 = -1 ∧
  alloc_size (init_heap env st sizeOfRegion).2
  = add sizeOfRegion
      (crem (sub (pagesize env) (crem sizeOfRegion (pagesize env)))
            (pagesize env)) ∧
  heap_start (init_heap env st sizeOfRegion).2 = heap_start st ∧
  mem (init_heap env st sizeOfRegion).2 = mem st.
Proof.
  intros Honce Hpos Hfail. unfold init_heap. rewrite Honce. simpl.
  destruct (Z.leb_spec sizeOfRegion 0); [lia|].
  destruct (open_ok env); simpl; [|done].
  destruct Hfail as [?|Hmap]; [done|]. by rewrite Hmap.
Qed.

(** C4.  Failure atomicity does not hold for [init_heap]: when the backing
    store cannot be obtained (here for a request of 4000 bytes with 4096-byte
    pages, both when /dev/zero cannot be opened and when [mmap] fails) the
    call returns -1 but [alloc_size], 0 before the call, is 4096 after it. *)
Theorem init_heap_failure_overwrites_capacity :
  alloc_size initial_heap = 0 ∧
  init_heap (Environment 4096 false None) initial_heap 4000
  = (-1, Heap NULL 4096 0 ∅) ∧
  init_heap (Environment 4096 true None) initial_heap 4000
  = (-1, Heap NULL 4096 0 ∅).
Proof. split_and!; vm_compute; reflexivity. Qed.

(** In the state left behind by the failed [init_heap], the size check of
    [balloc] no longer guards the scan, which starts at the null
    [heap_start] and finds no end mark, whatever the number of iterations. *)
Lemma balloc_after_failed_init fuel :
  balloc fuel (Heap NULL 4096 0 ∅) 100 = None.
Proof.
  unfold balloc. simpl.
  assert (Hscan : ∀ best bf,
            balloc_scan fuel ∅ (padded_block_size 100) NULL best bf = None).
  { induction fuel as [|fuel IH]; intros best bf; [done|].
    cbn [balloc_scan]. rewrite load_empty. simpl. apply IH. }
  by rewrite Hscan.
Qed.

(** The other failing paths do leave the state as it was: see
    [balloc_null_unchanged], [bfree_fail_unchanged], [init_heap_rejected]. *)
Lemma failing_calls_unchanged st :
  reachable st →
  (∀ fuel size st', balloc fuel st size = Some (NULL, st') → st' = st) ∧
  (∀ ptr, (bfree st ptr).1 = -1 → (bfree st ptr).2 = st) ∧
  (∀ env sizeOfRegion, init_heap env st sizeOfRegion = (-1, st)).
Proof.
  intros Hreach. split_and!.
  - intros fuel size st'. by apply balloc_null_unchanged.
  - intros ptr. apply bfree_fail_unchanged.
  - intros env sz. destruct (reachable_inv st Hreach) as [rows Hinv].
    by eapply init_heap_again.
Qed.

(** * Further properties of the operations *)

(** ** init_heap *)

(** X1.  A successful [init_heap].  With a usable environment the first call
    returns 0 and records the call in [allocated_once]; [heap_start] is 4
    bytes past the mapping, [alloc_size] is the requested size rounded up to
    a multiple of the page size, less 8; the block list is one free block of
    [alloc_size] bytes with its predecessor bit set, followed by the end
    mark, and the last word of the block is a footer that holds the size. *)
Theorem init_heap_success env sizeOfRegion p :
  env_ok env sizeOfRegion → mmap_result env = Some p →
  ∃ st, init_heap env initial_heap sizeOfRegion = (0, st) ∧
    allocated_once st = 1 ∧ heap_start st = p + 4 ∧
    (alloc_size st + 8) mod pagesize env = 0 ∧
    sizeOfRegion ≤ alloc_size st + 8 < sizeOfRegion + pagesize env ∧
    heap_rows st [Row false true (p + 4) (alloc_size st)] ∧
    load (mem st) (heap_start st) = alloc_size st + 2 ∧
    load (mem st) (heap_start st + alloc_size st) = 1 ∧
    load (mem st) (heap_start st + alloc_size st - 4) = alloc_size st.
Proof.
  intros Henv Hmap.
  pose proof Henv as (Hps & Hps8 & Hopen & _ & Hsz & Hfit).
  destruct (padded_region (pagesize env) sizeOfRegion Hps Hps8 Hsz Hfit)
    as (Hpb & Hp8 & Hpr & Hpm).
  cbv zeta in Hpb, Hp8, Hpr, Hpm.
  set (padded := add sizeOfRegion
         (crem (sub (pagesize env) (crem sizeOfRegion (pagesize env)))
               (pagesize env))) in *.
  assert (Hsub : sub padded 8 = padded - 8)
    by (unfold sub; rewrite wrap_small; lia).
  destruct (init_heap env initial_heap sizeOfRegion) as [rc st] eqn:Hinit.
  assert (Hrc : rc = 0).
  { unfold init_heap in Hinit. simpl in Hinit.
    destruct (sizeOfRegion <=? 0) eqn:E; [lia|].
    rewrite Hopen, Hmap in Hinit. simpl in Hinit. by injection Hinit as <- _. }
  subst rc. exists st. split; [done|].
  pose proof (init_heap_inv env sizeOfRegion st Henv Hinit) as Hinv.
  assert (Hst : heap_start st = p + 4 ∧ alloc_size st = padded - 8 ∧
                load (mem st) (heap_start st + alloc_size st - 4)
                = alloc_size st).
  { unfold init_heap in Hinit. simpl in Hinit.
    destruct (sizeOfRegion <=? 0) eqn:E; [lia|].
    rewrite Hopen, Hmap in Hinit. simpl in Hinit. fold padded in Hinit.
    injection Hinit as <-. simpl. unfold sizeof_blockHeader.
    split_and!; [done|done|apply load_store_eq]. }
  destruct Hst as (Hs & Ha & Hfoot).
  split_and!; try done; try apply Hinv.
  - rewrite Ha. by replace (padded - 8 + 8) with padded by lia.
  - lia.
  - lia.
  - rewrite <- Hs. by eapply heap_inv_rows.
  - destruct (inv_chain _ _ Hinv) as (_ & Hl & _). rewrite Hl.
    unfold size_status. simpl. lia.
Qed.

Lemma init_heap_success_witness :
  ∃ st, init_heap demo_env initial_heap 4000 = (0, st) ∧
    allocated_once st = 1 ∧ heap_start st = 8192 + 4 ∧
    (alloc_size st + 8) mod pagesize demo_env = 0 ∧
    4000 ≤ alloc_size st + 8 < 4000 + pagesize demo_env ∧
    heap_rows st [Row false true (8192 + 4) (alloc_size st)] ∧
    load (mem st) (heap_start st) = alloc_size st + 2 ∧
    load (mem st) (heap_start st + alloc_size st) = 1 ∧
    load (mem st) (heap_start st + alloc_size st - 4) = alloc_size st.
Proof.
  apply (init_heap_success demo_env 4000 8192).
  - unfold env_ok, demo_env. simpl. split_and!; try lia; try reflexivity.
    exists 8192. split_and!; [reflexivity|lia|reflexivity].
  - reflexivity.
Defined.

(** X2.  [init_heap] works once.  In every state reached after a successful
    [init_heap], a further call returns -1 and changes nothing, whatever the
    environment and the requested size. *)
Theorem init_heap_only_once st env sizeOfRegion :
  reachable st → init_heap env st sizeOfRegion = (-1, st).
Proof.
  intros Hreach. destruct (reachable_inv st Hreach) as [rows Hinv].
  by eapply init_heap_again.
Qed.

Lemma init_heap_only_once_witness :
  init_heap demo_env released_heap 100 = (-1, released_heap).
Proof.
  exact (init_heap_only_once released_heap demo_env 100
           released_heap_reachable).
Defined.

(** X3.  [init_heap] can be retried.  After a first call that failed for
    want of a backing store, a later call with a positive size behaves as a
    first call would: the failed call left [allocated_once] at 0, and the
    capacity it left behind is overwritten. *)
Theorem init_heap_retry env0 size0 env sizeOfRegion :
  0 < size0 → 0 < sizeOfRegion →
  open_ok env0 = false ∨ mmap_result env0 = None →
  (init_heap env0 initial_heap size0).1 = -1 ∧
  init_heap env (init_heap env0 initial_heap size0).2 sizeOfRegion
  = init_heap env initial_heap sizeOfRegion.
Proof.
  intros H0 Hsz Hfail.
  destruct (init_heap_no_backing_store env0 initial_heap size0 eq_refl H0
              Hfail) as (Hrc & _ & Hs & Hm).
  split; [done|].
  assert (Honce : allocated_once (init_heap env0 initial_heap size0).2 = 0).
  { unfold init_heap. simpl. destruct (size0 <=? 0); [done|].
    destruct Hfail as [Hopen|Hmap]; [by rewrite Hopen|].
    rewrite Hmap. by destruct (open_ok env0). }
  destruct (init_heap env0 initial_heap size0) as [rc st0]. simpl in *.
  unfold init_heap. rewrite Honce, Hs, Hm. simpl.
  destruct (sizeOfRegion <=? 0) eqn:E; [lia|]. done.
Qed.

Lemma init_heap_retry_witness :
  (init_heap (Environment 4096 true None) initial_heap 4000).1 = -1 ∧
  init_heap demo_env
    (init_heap (Environment 4096 true None) initial_heap 4000).2 4000
  = init_heap demo_env initial_heap 4000.
Proof.
  apply (init_heap_retry (Environment 4096 true None) 4000 demo_env 4000).
  - lia.
  - lia.
  - right. reflexivity.
Defined.

(** ** Calls on a heap that was never set up *)

(** X4.  Before any [init_heap], [balloc] returns [NULL] for every size and
    [bfree] returns -1 for every pointer; neither reads or writes memory,
    because [alloc_size] is 0 and [heap_start] is null. *)
Theorem calls_before_init :
  (∀ fuel size, balloc fuel initial_heap size = Some (NULL, initial_heap)) ∧
  (∀ ptr, bfree initial_heap ptr = (-1, initial_heap)).
Proof.
  split.
  - intros fuel size. unfold balloc. simpl.
    destruct (Z.leb_spec size 0), (Z.gtb_spec size 0); simpl; try done; lia.
  - intros ptr. unfold bfree. simpl.
    destruct (Z.eqb_spec ptr NULL) as [?|Hnn]; [done|].
    destruct (negb (crem (wrap ptr) 8 =? 0)); [done|].
    unfold NULL in *.
    destruct (Z.ltb_spec ptr 0), (Z.gtb_spec ptr (0 + 0)); simpl;
      try done; lia.
Qed.

(** ** The outcome of balloc *)

(** X5.  [balloc] fails exactly for want of a valid size or of room.  In a
    reachable state [balloc(size)] returns; it returns [NULL] exactly when
    [size] is not positive, or exceeds [alloc_size], or no free block is as
    large as the required block size; and then the state is unchanged. *)
Theorem balloc_fails_iff st rows size :
  reachable st → heap_rows st rows →
  ∀ fuel, (length rows < fuel)%nat →
    ∃ ptr st', balloc fuel st size = Some (ptr, st') ∧
      (ptr = NULL ↔
         size ≤ 0 ∨ alloc_size st < size ∨
         ∀ r, r ∈ rows → ¬ fits (required size) r) ∧
      (ptr = NULL → st' = st).
Proof.
  intros Hreach Hrows fuel Hfuel.
  destruct (reachable_inv st Hreach) as [rows' Hinv].
  rewrite (heap_inv_unique _ _ _ Hinv Hrows) in *. clear rows Hrows.
  destruct (inv_start _ _ Hinv) as [Hpos _].
  assert (Hpayload : ∀ r, r ∈ rows' → t_begin r + 4 ≠ NULL).
  { intros r Hin.
    destruct (chain_begin_range _ _ _ _ _ (inv_chain _ _ Hinv) Hin)
      as (Hlo & _). unfold NULL. lia. }
  destruct (decide (0 < size ≤ alloc_size st)) as [Hsize|Hbad].
  - destruct (balloc_inv_cases st rows' size Hinv Hsize)
      as [(pre & r & post & Hfirst & Hrun)
         |[(_ & pre & r & post & Hbest & Hrun)|(Hnone & Hrun)]].
    + destruct (Hrun fuel Hfuel) as (st' & Hb & _).
      exists (t_begin r + 4), st'. split; [done|].
      destruct Hfirst as (-> & [Hfree Hsz] & _).
      assert (Hin : r ∈ pre ++ r :: post)
        by (apply elem_of_app; right; apply list_elem_of_here).
      split; [|intros Hnull; by destruct (Hpayload r Hin)].
      split; [intros Hnull; by destruct (Hpayload r Hin)|].
      intros [?|[?|Hnone]]; try lia.
      destruct (Hnone r Hin). split; [done|lia].
    + destruct (Hrun fuel Hfuel) as (st' & Hb & _).
      exists (t_begin r + 4), st'. split; [done|].
      destruct Hbest as (-> & Hfit & _).
      assert (Hin : r ∈ pre ++ r :: post)
        by (apply elem_of_app; right; apply list_elem_of_here).
      split; [|intros Hnull; by destruct (Hpayload r Hin)].
      split; [intros Hnull; by destruct (Hpayload r Hin)|].
      intros [?|[?|Hnone]]; try lia.
      by destruct (Hnone r Hin).
    + exists NULL, st. split; [by apply Hrun|]. split; [|done].
      split; [intros _; by do 2 right|done].
  - exists NULL, st. split.
    + unfold balloc.
      replace ((size <=? 0) || (size >? alloc_size st)) with true; [done|].
      destruct (Z.leb_spec size 0), (Z.gtb_spec size (alloc_size st));
        simpl; try done; lia.
    + split; [|done]. split; [intros _; lia|done].
Qed.

Lemma balloc_fails_iff_witness :
  ∃ ptr st', balloc 8 released_heap 5000 = Some (ptr, st') ∧
    (ptr = NULL ↔
       5000 ≤ 0 ∨ alloc_size released_heap < 5000 ∨
       ∀ r, r ∈ released_rows → ¬ fits (required 5000) r) ∧
    (ptr = NULL → st' = released_heap).
Proof.
  apply (balloc_fails_iff released_heap released_rows 5000
           released_heap_reachable released_heap_rows 8%nat).
  simpl. lia.
Defined.

(** X6.  The block size computed by [balloc].  For a positive payload size
    within the largest capacity, the block size is the least multiple of 8
    that holds the payload and the 4-byte header; it is at least 8 and
    wastes fewer than 8 bytes. *)
Theorem padded_block_size_least size :
  0 < size ≤ max_capacity →
  padded_block_size size mod 8 = 0 ∧
  8 ≤ padded_block_size size ∧
  size + 4 ≤ padded_block_size size < size + 4 + 8 ∧
  (∀ k, k mod 8 = 0 → size + 4 ≤ k → padded_block_size size ≤ k).
Proof.
  intros Hs. rewrite (padded_block_size_required size Hs).
  destruct (required_bounds size) as [H8 Hb].
  split_and!; try lia; try done.
  - apply required_min. lia.
  - intros k Hk Hle.
    apply Z.mod_divide in Hk; [|lia]. destruct Hk as [j ->].
    apply Z.mod_divide in H8; [|lia]. destruct H8 as [i Hi].
    rewrite Hi in *. lia.
Qed.

Lemma padded_block_size_least_witness :
  padded_block_size 13 mod 8 = 0 ∧
  8 ≤ padded_block_size 13 ∧
  13 + 4 ≤ padded_block_size 13 < 13 + 4 + 8 ∧
  (∀ k, k mod 8 = 0 → 13 + 4 ≤ k → padded_block_size 13 ≤ k).
Proof.
  apply (padded_block_size_least 13). unfold max_capacity. lia.
Defined.

(** ** Blocks do not overlap *)

Lemma chain_disjoint m a pre r post e :
  chain m a (pre ++ r :: post) e →
  (∀ r', r' ∈ pre → t_begin r' + t_size r' ≤ t_begin r) ∧
  (∀ r', r' ∈ post → t_begin r + t_size r ≤ t_begin r').
Proof.
  intros Hc. apply chain_app in Hc as [Hpre Hc]. simpl in Hc.
  destruct Hc as (Hb & _ & _ & Hpost). split.
  - intros r' Hin.
    destruct (chain_begin_range _ _ _ _ _ Hpre Hin) as (_ & ? & _). lia.
  - intros r' Hin.
    destruct (chain_begin_range _ _ _ _ _ Hpost Hin) as (? & _). lia.
Qed.

Lemma not_writable_inside {closed} st rows r x :
  heap_inv_at closed st rows → r ∈ rows → r_used r = true →
  t_begin r < x < t_begin r + t_size r → ¬ writable rows x.
Proof.
  intros Hinv Hin Hused Hx (r' & Hin' & Hw).
  apply list_elem_of_split in Hin as (pre & post & ->).
  destruct (chain_disjoint _ _ _ _ _ _ (inv_chain _ _ Hinv)) as [Hpre Hpost].
  assert (Hsize : ∀ q, q ∈ pre ++ r :: post → 8 ≤ t_size q).
  { intros q Hq.
    by destruct (chain_begin_range _ _ _ _ _ (inv_chain _ _ Hinv) Hq)
      as (_ & _ & [[? _] _] & _). }
  pose proof (Hsize r' Hin') as Hs'.
  apply elem_of_app in Hin' as [Hin'|Hin'].
  - specialize (Hpre r' Hin'). destruct Hw as [->|(_ & ? & _)]; lia.
  - apply elem_of_cons in Hin' as [->|Hin'].
    + destruct Hw as [->|(Hfree & _)]; [lia|congruence].
    + specialize (Hpost r' Hin'). destruct Hw as [->|(_ & ? & _)]; lia.
Qed.

Lemma writable_header_position {closed} st rows x :
  heap_inv_at closed st rows → writable rows x →
  heap_start st ≤ x < heap_start st + alloc_size st ∧
  (x - heap_start st) mod 8 = 0.
Proof.
  intros Hinv (r & Hin & Hw).
  destruct (chain_begin_range _ _ _ _ _ (inv_chain _ _ Hinv) Hin)
    as (Hlo & Hhi & [[Hslo _] _] & _).
  pose proof (chain_begin_mod _ _ _ _ _ (inv_chain _ _ Hinv) Hin) as Hm.
  destruct Hw as [->|(_ & Hin' & Hm')]; [split; [lia|done]|].
  split; [lia|].
  replace (x - heap_start st)
    with ((x - t_begin r) + (t_begin r - heap_start st)) by lia.
  rewrite Z.add_mod, Hm, Hm' by lia. done.
Qed.

(** ** The words written by one call *)

Lemma balloc_writes {closed} fuel st rows size ptr st' :
  heap_inv_at closed st rows → balloc fuel st size = Some (ptr, st') →
  ∀ x, ¬ writable rows x → load (mem st') x = load (mem st) x.
Proof.
  intros Hinv Hb x Hx.
  destruct (decide (0 < size ≤ alloc_size st)) as [Hsize|Hbad]; cycle 1.
  { unfold balloc in Hb.
    replace ((size <=? 0) || (size >? alloc_size st)) with true in Hb.
    - by injection Hb as _ <-.
    - destruct (Z.leb_spec size 0), (Z.gtb_spec size (alloc_size st));
        simpl; try done; lia. }
  apply (balloc_more _ (fuel `max` S (length rows))%nat) in Hb; [|lia].
  pose proof (inv_size _ _ Hinv) as [[Halo Hahi] Ha8].
  assert (Hreq : padded_block_size size = required size)
    by (apply padded_block_size_required; lia).
  destruct (required_bounds size) as [Hreq8 Hreqb].
  pose proof (required_min size ltac:(lia)) as Hreqmin.
  unfold balloc in Hb.
  replace ((size <=? 0) || (size >? alloc_size st)) with false in Hb
    by (symmetry; apply orb_false_iff; split; lia).
  cbv zeta in Hb. rewrite Hreq in Hb.
  rewrite (balloc_scan_chain _ _ _ _ rows (heap_start st + alloc_size st))
    in Hb; [|apply Hinv|apply Hinv|lia].
  assert (Hstart : ∀ r, r ∈ rows → x ≠ t_begin r).
  { intros r Hin ->. apply Hx. exists r. split; [done|by left]. }
  destruct (decide (Exists (exact (required size)) rows)) as [Hex|Hnex].
  - apply Exists_exists in Hex.
    destruct (first_exact_exists _ _ Hex) as (pre & r & post & Hfirst).
    rewrite (scan_rows_exact _ _ _ _ _ _ _ Hfirst) in Hb.
    destruct Hfirst as (-> & _ & _).
    destruct (heap_inv_split _ _ _ _ Hinv)
      as (_ & Hl & [[Hrlo _] _] & Hpost & _). cbv zeta in Hl, Hpost.
    injection Hb as _ <-. simpl.
    assert (Hxr : x ≠ t_begin r)
      by (apply Hstart, elem_of_app; right; apply list_elem_of_here).
    rewrite (load_store_ne _ _ _ (t_begin r + t_size r)) by lia.
    destruct post as [|r2 post]; simpl in Hpost.
    + rewrite Hpost, (inv_end _ _ Hinv). simpl. by apply load_store_ne.
    + destruct Hpost as (Hb2 & _).
      assert (Hx2 : x ≠ t_begin r2).
      { apply Hstart, elem_of_app. right.
        apply list_elem_of_further, list_elem_of_here. }
      destruct (negb _); rewrite ?load_store_ne by congruence; done.
  - assert (Hnone : ∀ r, r ∈ rows → ¬ exact (required size) r).
    { intros r Hr Hexact. apply Hnex, Exists_exists. by exists r. }
    destruct (scan_rows_best (required size) rows NULL 0 Hnone)
      as (b & s & Hout & Hcase).
    { intros r Hr. by destruct (heap_inv_begins _ _ _ Hinv Hr). }
    rewrite Hout in Hb.
    destruct Hcase as [(-> & -> & _)|(pre & r & post & Hbest & -> & -> & _)].
    + simpl in Hb. by injection Hb as _ <-.
    + destruct Hbest as (-> & [Hfree Hfit] & _).
      assert (Hin : r ∈ pre ++ r :: post)
        by (apply elem_of_app; right; apply list_elem_of_here).
      destruct (heap_inv_begins _ _ _ Hinv Hin) as (Hnn & _ & _).
      destruct (Z.eqb_spec (t_begin r) NULL) as [?|_]; [done|].
      injection Hb as _ <-. simpl.
      assert (Hne : t_size r ≠ required size).
      { intros Heq. apply (Hnone r Hin). by split. }
      assert (x ≠ t_begin r + required size).
      { intros ->. apply Hx. exists r. split; [done|]. right.
        split_and!; try done; try lia.
        by replace (t_begin r + required size - t_begin r)
          with (required size) by lia. }
      rewrite !load_store_ne by (done || by apply Hstart). done.
Qed.

(** [bfree] writes at most the header before [ptr] and the header of the
    block that follows, whatever the state. *)
Lemma bfree_touches st ptr x :
  let block := ptr - 4 in
  let next :=
    block + sub (load (mem st) block) (crem (load (mem st) block) 8) in
  x ≠ block → (x ≠ next ∨ load (mem st) next = 1) →
  load (mem (bfree st ptr).2) x = load (mem st) x.
Proof.
  cbv zeta. intros Hb Hn. unfold bfree, sizeof_blockHeader. cbv zeta.
  repeat match goal with
  | |- context [if ?c then (_, _) else _] => destruct c; [done|]
  end.
  simpl. rewrite load_store_ne by done.
  destruct Hn as [Hn| ->]; [|done].
  destruct (negb _); [by rewrite load_store_ne|done].
Qed.

Lemma bfree_live_writes {closed} st pre r post :
  heap_inv_at closed st (pre ++ r :: post) → r_used r = true →
  ∀ x, ¬ writable (pre ++ r :: post) x →
       load (mem (bfree st (t_begin r + 4)).2) x = load (mem st) x.
Proof.
  intros Hinv Hused x Hx.
  assert (Hstart : ∀ q, q ∈ pre ++ r :: post → x ≠ t_begin q).
  { intros q Hin ->. apply Hx. exists q. split; [done|by left]. }
  destruct (heap_inv_split _ _ _ _ Hinv) as (_ & Hl & Hr & Hpost & _).
  cbv zeta in Hl, Hpost.
  apply bfree_touches; replace (t_begin r + 4 - 4) with (t_begin r) by lia.
  - apply Hstart, elem_of_app. right. apply list_elem_of_here.
  - rewrite Hl, (hdr_fr_size r Hr).
    destruct post as [|r2 post]; simpl in Hpost.
    + right. rewrite Hpost. apply Hinv.
    + left. destruct Hpost as (<- & _). apply Hstart, elem_of_app. right.
      apply list_elem_of_further, list_elem_of_here.
Qed.

Lemma coalesced_begins n :
  ∀ rows x, (length rows ≤ n)%nat →
    x ∈ (t_begin <$> coalesced rows) → x ∈ (t_begin <$> rows).
Proof.
  induction n as [|n IH]; intros rows x Hn Hin.
  { destruct rows; [done|simpl in Hn; lia]. }
  destruct rows as [|r rows]; [done|]. simpl in Hn.
  destruct (r_used r) eqn:Eu.
  - rewrite (coalesced_used r rows Eu) in Hin. simpl in *.
    apply elem_of_cons in Hin as [->|Hin]; [apply list_elem_of_here|].
    apply list_elem_of_further, IH; [lia|done].
  - rewrite (coalesced_free r rows Eu) in Hin. simpl in *.
    apply elem_of_cons in Hin as [->|Hin]; [apply list_elem_of_here|].
    apply list_elem_of_further.
    apply IH in Hin; [|pose proof (past_run_length rows); lia].
    rewrite <- (free_past_run rows), begins_app.
    apply elem_of_app. by right.
Qed.

Lemma coalesce_writes {closed} fuel st rows rc st' :
  heap_inv_at closed st rows → coalesce fuel st = Some (rc, st') →
  ∀ x, ¬ writable rows x → load (mem st') x = load (mem st) x.
Proof.
  intros Hinv Hc x Hx.
  destruct (coalesce_inv st rows (fuel `max` S (length rows))%nat Hinv
              ltac:(lia)) as (st1 & Hrun & _ & Hsame).
  rewrite (coalesce_more _ (fuel `max` S (length rows))%nat _ _ Hc) in Hrun
    by lia.
  injection Hrun as _ <-. apply Hsame. intros Hin.
  apply (coalesced_begins (length rows)) in Hin; [|done].
  apply list_elem_of_fmap in Hin as (r & -> & Hin).
  apply Hx. exists r. split; [done|by left].
Qed.

Lemma proper_call_writes st rows st' :
  heap_inv_at false st rows → proper_call st st' →
  ∀ x, ¬ writable rows x → load (mem st') x = load (mem st) x.
Proof.
  intros Hinv Hcall x Hx.
  destruct Hcall as [env sz st rc st' Hi|fuel st size p st' Hb
                    |st rows0 ptr rc st' Hrows (r & Hin & Hused & ->) Hb
                    |st ptr st' Hb|fuel st rc st' Hc].
  - rewrite (init_heap_again _ _ _ _ Hinv) in Hi. by injection Hi as _ <-.
  - by eapply balloc_writes.
  - rewrite (heap_inv_unique _ _ _ Hinv Hrows) in Hin.
    apply list_elem_of_split in Hin as (pre & post & ->).
    pose proof (bfree_live_writes st pre r post Hinv Hused x Hx) as Hw.
    by rewrite Hb in Hw.
  - pose proof (bfree_fail_unchanged st ptr) as Hsame.
    rewrite Hb in Hsame. simpl in Hsame. by rewrite Hsame.
  - by eapply coalesce_writes.
Qed.

(** X7.  Payloads are left alone.  Whatever the payloads hold, no call of
    [init_heap], [balloc] or [coalesce], and no call of [bfree] that fails
    or is given a live allocation, changes a word inside a block that is in
    use, past its header; this holds also for the block that the call of
    [bfree] releases. *)
Theorem payload_preserved st rows st' r x :
  disciplined st → heap_rows st rows → proper_call st st' →
  r ∈ rows → r_used r = true →
  t_begin r < x < t_begin r + t_size r →
  load (mem st') x = load (mem st) x.
Proof.
  intros Hst Hrows Hcall Hin Hused Hx.
  destruct (disciplined_inv st Hst) as [rows' Hinv].
  rewrite (heap_inv_unique _ _ _ Hinv Hrows) in *. clear rows Hrows.
  apply (proper_call_writes st rows' st' Hinv Hcall).
  by apply (not_writable_inside st rows' r _ Hinv).
Qed.

Lemma payload_preserved_witness :
  load (mem (bfree poked_heap 8200).2) 8204 = load (mem poked_heap) 8204.
Proof.
  apply (payload_preserved poked_heap poked_rows
           (bfree poked_heap 8200).2 (Row true true 8196 16) 8204
           poked_heap_disciplined poked_heap_rows).
  - apply (proper_bfree poked_heap poked_rows 8200 (bfree poked_heap 8200).1).
    + apply poked_heap_rows.
    + exists (Row true true 8196 16).
      split; [apply list_elem_of_here|]. split; reflexivity.
    + by destruct (bfree poked_heap 8200).
  - apply list_elem_of_here.
  - reflexivity.
  - simpl. lia.
Defined.

(** X8.  Writes stay on header positions of the region.  Whatever the
    payloads hold, a word that is changed by a call of [init_heap], [balloc]
    or [coalesce], or by a call of [bfree] that fails or is given a live
    allocation, lies within [heap_start .. heap_start + alloc_size - 8], a
    multiple of 8 past [heap_start]: no such call writes outside the mapped
    region, over the end mark, or on a word that cannot hold a header. *)
Theorem writes_confined st st' x :
  disciplined st → proper_call st st' →
  load (mem st') x ≠ load (mem st) x →
  heap_start st ≤ x ≤ heap_start st + alloc_size st - 8 ∧
  (x - heap_start st) mod 8 = 0.
Proof.
  intros Hst Hcall Hdiff.
  destruct (disciplined_inv st Hst) as [rows Hinv].
  destruct (decide (heap_start st ≤ x < heap_start st + alloc_size st ∧
                    (x - heap_start st) mod 8 = 0)) as [[Hr Hm]|Hout].
  - split; [|done].
    destruct (inv_size _ _ Hinv) as [_ Ha8].
    pose proof (Z.div_mod (x - heap_start st) 8 ltac:(lia)) as Hd.
    pose proof (Z.div_mod (alloc_size st) 8 ltac:(lia)) as Hd'.
    rewrite Hm in Hd. rewrite Ha8 in Hd'. lia.
  - exfalso. apply Hdiff. apply (proper_call_writes st rows st' Hinv Hcall).
    intros Hw. apply Hout. by apply (writable_header_position st rows _ Hinv).
Qed.

Lemma writes_confined_witness :
  heap_start poked_heap ≤ 8196
    ≤ heap_start poked_heap + alloc_size poked_heap - 8 ∧
  (8196 - heap_start poked_heap) mod 8 = 0.
Proof.
  apply (writes_confined poked_heap (bfree poked_heap 8200).2 8196
           poked_heap_disciplined).
  - apply (proper_bfree poked_heap poked_rows 8200 (bfree poked_heap 8200).1).
    + apply poked_heap_rows.
    + exists (Row true true 8196 16).
      split; [apply list_elem_of_here|]. split; reflexivity.
    + by destruct (bfree poked_heap 8200).
  - vm_compute. discriminate.
Defined.

(** ** Footers *)

(** X9.  No operation writes a footer.  Whatever the payloads hold, a call
    of [init_heap], [balloc] or [coalesce], or a call of [bfree] that fails
    or is given a live allocation, leaves the last word of every block as
    it was, for the blocks of the list before the call and for those of the
    list after it: a block that [balloc] splits off, that [bfree] releases
    or that [coalesce] merges gets no footer, and the footer that
    [init_heap] stored in the last word of the region stays until the
    client overwrites it. *)
Theorem footers_never_written st rows st' rows' r :
  disciplined st → heap_rows st rows →
  proper_call st st' → heap_rows st' rows' →
  r ∈ rows ∨ r ∈ rows' →
  load (mem st') (t_begin r + t_size r - 4)
  = load (mem st) (t_begin r + t_size r - 4).
Proof.
  intros Hst Hrows Hcall Hrows' Hin.
  destruct (disciplined_inv st Hst) as [rows0 Hinv].
  rewrite (heap_inv_unique _ _ _ Hinv Hrows) in *. clear rows Hrows.
  destruct (proper_call_inv st rows0 st' Hinv Hcall) as [rows1 Hinv'].
  rewrite (heap_inv_unique _ _ _ Hinv' Hrows') in *. clear rows' Hrows'.
  destruct (proper_call_globals st rows0 st' Hinv Hcall) as [Hs Ha].
  assert (Hoff : (t_begin r + t_size r - 4 - heap_start st) mod 8 = 4).
  { assert (Hpos : (t_begin r - heap_start st) mod 8 = 0 ∧
                   t_size r mod 8 = 0).
    { destruct Hin as [Hin|Hin].
      - destruct (chain_begin_range _ _ _ _ _ (inv_chain _ _ Hinv) Hin)
          as (_ & _ & [_ Hs8] & _).
        by pose proof (chain_begin_mod _ _ _ _ _ (inv_chain _ _ Hinv) Hin).
      - destruct (chain_begin_range _ _ _ _ _ (inv_chain _ _ Hinv') Hin)
          as (_ & _ & [_ Hs8] & _).
        pose proof (chain_begin_mod _ _ _ _ _ (inv_chain _ _ Hinv') Hin)
          as Hm.
        by rewrite Hs in Hm. }
    destruct Hpos as [Hm Hs8].
    pose proof (Z.div_mod (t_begin r - heap_start st) 8 ltac:(lia)) as Hd.
    pose proof (Z.div_mod (t_size r) 8 ltac:(lia)) as Hd'.
    rewrite Hm in Hd. rewrite Hs8 in Hd'.
    replace (t_begin r + t_size r - 4 - heap_start st)
      with (4 + ((t_begin r - heap_start st) / 8 + t_size r / 8 - 1) * 8)
      by lia.
    by rewrite Z.mod_add by lia. }
  apply (proper_call_writes st rows0 st' Hinv Hcall).
  intros Hw.
  destruct (writable_header_position st rows0 _ Hinv Hw) as [_ Hm].
  rewrite Hm in Hoff. discriminate.
Qed.

Lemma footers_never_written_witness :
  load (mem (after_balloc poked_heap 100)) (8212 + 104 - 4)
  = load (mem poked_heap) (8212 + 104 - 4).
Proof.
  apply (footers_never_written poked_heap poked_rows
           (after_balloc poked_heap 100)
           [Row true true 8196 16; Row true true 8212 104;
            Row false true 8316 3968]
           (Row true true 8212 104)
           poked_heap_disciplined poked_heap_rows).
  - apply (proper_balloc 16 poked_heap 100 8216). vm_compute. reflexivity.
  - exists 8%nat. vm_compute. reflexivity.
  - right. apply list_elem_of_further, list_elem_of_here.
Defined.

(** ** The block handed out by balloc *)

(** X10.  The block behind a payload address.  A successful [balloc(size)]
    in a reachable state returns the address 4 bytes past the header of a
    block in use whose size is exactly the required block size; the [size]
    payload bytes lie inside that block and inside the region, and the
    block overlaps no block that was in use before the call. *)
Theorem balloc_block st rows fuel size ptr st' :
  reachable st → heap_rows st rows →
  balloc fuel st size = Some (ptr, st') → ptr ≠ NULL →
  ∃ rows' r',
    heap_rows st' rows' ∧ r' ∈ rows' ∧ r_used r' = true ∧
    t_begin r' + 4 = ptr ∧ t_size r' = required size ∧
    ptr + size ≤ t_begin r' + t_size r' ∧
    heap_start st ≤ t_begin r' ∧
    t_begin r' + t_size r' ≤ heap_start st + alloc_size st ∧
    (∀ r, r ∈ rows → r_used r = true →
          t_begin r + t_size r ≤ t_begin r' ∨
          t_begin r' + t_size r' ≤ t_begin r).
Proof.
  intros Hreach Hrows Hb Hnn.
  destruct (reachable_inv st Hreach) as [rows0 Hinv].
  rewrite (heap_inv_unique _ _ _ Hinv Hrows) in *. clear rows Hrows.
  destruct (balloc_success_fits _ _ _ _ _ _ Hinv Hb Hnn) as [Hsize _].
  destruct (required_bounds size) as [_ Hreqb].
  apply (balloc_more _ (fuel `max` S (length rows0))%nat) in Hb; [|lia].
  assert (Hother : ∀ pre r0 post,
            rows0 = pre ++ r0 :: post → r_used r0 = false →
            ∀ r, r ∈ rows0 → r_used r = true →
              t_begin r + t_size r ≤ t_begin r0 ∨
              t_begin r0 + t_size r0 ≤ t_begin r).
  { intros pre r0 post -> Hfree r Hin Hused.
    destruct (chain_disjoint _ _ _ _ _ _ (inv_chain _ _ Hinv))
      as [Hpre Hpost].
    apply elem_of_app in Hin as [Hin|Hin]; [left; by apply Hpre|].
    apply elem_of_cons in Hin as [->|Hin]; [congruence|].
    right. by apply Hpost. }
  destruct (balloc_inv_cases st rows0 size Hinv Hsize)
    as [(pre & r0 & post & Hfirst & Hrun)
       |[(_ & pre & r0 & post & Hbest & Hrun)|(_ & Hrun)]].
  - destruct (Hrun (fuel `max` S (length rows0))%nat ltac:(lia))
      as (st1 & Heq & Hinv1).
    rewrite Hb in Heq. injection Heq as -> ->.
    destruct Hfirst as (Hsplit & [Hfree Hsz] & _).
    assert (Hin0 : r0 ∈ rows0).
    { rewrite Hsplit. apply elem_of_app. right. apply list_elem_of_here. }
    destruct (chain_begin_range _ _ _ _ _ (inv_chain _ _ Hinv) Hin0)
      as (Hlo & Hhi & _).
    exists (alloc_exact pre r0 post),
           (Row true (r_prev_used r0) (t_begin r0) (t_size r0)).
    split_and!; simpl; try done; try lia.
    + by eapply heap_inv_rows.
    + apply elem_of_app. right. apply list_elem_of_here.
    + by apply (Hother pre r0 post).
  - destruct (Hrun (fuel `max` S (length rows0))%nat ltac:(lia))
      as (st1 & Heq & Hinv1).
    rewrite Hb in Heq. injection Heq as -> ->.
    destruct Hbest as (Hsplit & [Hfree Hfit] & _).
    assert (Hin0 : r0 ∈ rows0).
    { rewrite Hsplit. apply elem_of_app. right. apply list_elem_of_here. }
    destruct (chain_begin_range _ _ _ _ _ (inv_chain _ _ Hinv) Hin0)
      as (Hlo & Hhi & _).
    exists (alloc_split (required size) pre r0 post),
           (Row true (r_prev_used r0) (t_begin r0) (required size)).
    split_and!; simpl; try done; try lia.
    + by eapply heap_inv_rows.
    + apply elem_of_app. right. apply list_elem_of_here.
    + intros r Hin Hused.
      destruct (Hother pre r0 post Hsplit Hfree r Hin Hused); [by left|].
      right. lia.
  - rewrite Hrun in Hb by lia. by injection Hb as <- _.
Qed.

Lemma balloc_block_witness :
  ∃ rows' r',
    heap_rows (after_balloc released_heap 20) rows' ∧ r' ∈ rows' ∧
    r_used r' = true ∧
    t_begin r' + 4 = 8216 ∧ t_size r' = required 20 ∧
    8216 + 20 ≤ t_begin r' + t_size r' ∧
    heap_start released_heap ≤ t_begin r' ∧
    t_begin r' + t_size r'
      ≤ heap_start released_heap + alloc_size released_heap ∧
    (∀ r, r ∈ released_rows → r_used r = true →
          t_begin r + t_size r ≤ t_begin r' ∨
          t_begin r' + t_size r' ≤ t_begin r).
Proof.
  apply (balloc_block released_heap released_rows 16 20 8216
           (after_balloc released_heap 20)
           released_heap_reachable released_heap_rows).
  - vm_compute. reflexivity.
  - discriminate.
Defined.

(** ** Allocation, release and coalescing composed *)

Lemma runs_nonempty rows : Forall (fun g => g ≠ []) (runs rows).
Proof.
  eapply Forall_impl; [apply runs_groups|].
  intros g [(r & -> & _)|[Hne _]]; done.
Qed.

Lemma runs_app pre rows : runs (pre ++ rows) = foldr join (runs rows) pre.
Proof. unfold runs. apply foldr_app. Qed.

Lemma similar_refl G : Forall (fun g => g ≠ []) G → similar G G.
Proof.
  induction 1 as [|g G Hg _ IH]; constructor; [done|apply IH].
Qed.

Lemma join_similar x G1 G2 :
  similar G1 G2 → similar (join x G1) (join x G2).
Proof.
  intros Hsim. destruct Hsim as [|g1 g2 G1 G2 (Hn1 & Hn2 & Hm) Hrest].
  - simpl. repeat constructor; done.
  - destruct g1 as [|a1 t1]; [done|]. destruct g2 as [|a2 t2]; [done|].
    simpl in Hm. injection Hm as Hu Hp Hb Ht.
    unfold join. rewrite Hu.
    destruct (negb (r_used x) && negb (r_used a2)).
    + constructor; [|done]. split_and!; try done.
      simpl in *. f_equal. lia.
    + constructor; [done|]. constructor; [|done].
      split_and!; try done. simpl. by rewrite Hu, Hp, Hb, Ht.
Qed.

Lemma similar_merged G1 G2 : similar G1 G2 → merged <$> G1 = merged <$> G2.
Proof.
  induction 1 as [|g1 g2 G1 G2 (_ & _ & Hm) _ IH]; [done|].
  rewrite !fmap_cons. by rewrite Hm, IH.
Qed.

(** A free block cut in two merges back into the same block. *)
Lemma coalesced_cut pre r r1 r2 post :
  r_used r = false → r_used r1 = false → r_used r2 = false →
  t_begin r1 = t_begin r → r_prev_used r1 = r_prev_used r →
  t_size r1 + t_size r2 = t_size r →
  coalesced (pre ++ r1 :: r2 :: post) = coalesced (pre ++ r :: post).
Proof.
  intros Hu Hu1 Hu2 Hb Hp Hs. unfold coalesced.
  rewrite !runs_app. apply similar_merged.
  induction pre as [|x pre IH]; [|by apply join_similar].
  cbn [foldr]. rewrite !runs_cons.
  pose proof (runs_nonempty post) as Hne.
  destruct (runs post) as [|g G] eqn:Eruns.
  - simpl. rewrite Hu1, Hu2. simpl.
    constructor; [|constructor]. split_and!; try done.
    simpl. rewrite Hu, Hu1, Hb, Hp. f_equal. lia.
  - apply Forall_cons in Hne as [Hg HG].
    destruct g as [|a t]; [done|].
    unfold join at 2 3. rewrite Hu, Hu2. simpl.
    destruct (r_used a) eqn:Ea; simpl.
    + rewrite Hu1, Hu2. simpl.
      constructor; [|constructor; [done|by apply similar_refl]].
      split_and!; try done.
      simpl. rewrite Hu, Hu1, Hb, Hp. f_equal. lia.
    + rewrite Hu1, Hu2. simpl.
      constructor; [|by apply similar_refl].
      split_and!; try done.
      simpl. rewrite Hu, Hu1, Hb, Hp. f_equal. lia.
Qed.

Lemma set_prev_back post :
  pbits_ok false post → set_prev false (set_prev true post) = post.
Proof.
  destruct post as [|r post]; [done|]. simpl. intros [Hp _].
  destruct r; simpl in *. by subst.
Qed.

Lemma no_merge_coalesced rows : has_merge rows = false → coalesced rows = rows.
Proof.
  induction rows as [|r rows IH]; intros Hno; [done|].
  destruct (r_used r) eqn:Eu.
  - rewrite (has_merge_used r rows Eu) in Hno.
    by rewrite (coalesced_used r rows Eu), IH.
  - rewrite (has_merge_free r rows Eu) in Hno.
    apply orb_false_iff in Hno as [Hrun Hno].
    pose proof (free_past_run rows) as Hsplit.
    rewrite (coalesced_free r rows Eu).
    destruct (free_run rows) as [|? ?] eqn:Efree; [|done].
    simpl in Hsplit. rewrite Hsplit in *. rewrite IH by done.
    simpl. rewrite Z.add_0_r. destruct r; simpl in *. by subst.
Qed.

Lemma coalesced_length n :
  ∀ rows, (length rows ≤ n)%nat →
    (length (coalesced rows) ≤ length rows)%nat ∧
    (has_merge rows = true → (length (coalesced rows) < length rows)%nat).
Proof.
  induction n as [|n IH]; intros rows Hn.
  { destruct rows; [done|simpl in Hn; lia]. }
  destruct rows as [|r rows]; [done|]. simpl in Hn.
  destruct (r_used r) eqn:Eu.
  - rewrite (coalesced_used r rows Eu), (has_merge_used r rows Eu). simpl.
    destruct (IH rows ltac:(lia)) as [Hle Hlt].
    split; [lia|]. intros H. specialize (Hlt H). lia.
  - rewrite (coalesced_free r rows Eu), (has_merge_free r rows Eu). simpl.
    pose proof (past_run_length rows) as Hpl.
    pose proof (f_equal length (free_past_run rows)) as Hlen.
    rewrite length_app in Hlen.
    destruct (IH (past_run rows) ltac:(lia)) as [Hle Hlt].
    split; [lia|]. intros H.
    destruct (free_run rows) as [|? ?] eqn:Efree; simpl in *.
    + specialize (Hlt H). lia.
    + lia.
Qed.

(** X11.  [balloc], [bfree], [coalesce] as a round trip.  After a
    successful [balloc] in a reachable state, [bfree] of the returned
    address succeeds.  The block list is then the old one when the block
    was an exact fit, and otherwise the old one with one free block cut in
    two; in both cases it coalesces to the same list as the old one, and a
    following [coalesce] yields exactly that list. *)
Theorem alloc_release_roundtrip st rows fuel size ptr st1 :
  reachable st → heap_rows st rows →
  balloc fuel st size = Some (ptr, st1) → ptr ≠ NULL →
  ∃ st2 rows2,
    bfree st1 ptr = (0, st2) ∧ heap_rows st2 rows2 ∧
    (length rows ≤ length rows2 ≤ S (length rows))%nat ∧
    ((∃ r, r ∈ rows ∧ exact (required size) r) → rows2 = rows) ∧
    coalesced rows2 = coalesced rows ∧
    ∀ fuel', (length rows2 < fuel')%nat →
      ∃ rc st3, coalesce fuel' st2 = Some (rc, st3) ∧
                heap_rows st3 (coalesced rows).
Proof.
  intros Hreach Hrows Hb Hnn.
  destruct (reachable_inv st Hreach) as [rows0 Hinv].
  rewrite (heap_inv_unique _ _ _ Hinv Hrows) in *. clear rows Hrows.
  destruct (balloc_success_fits _ _ _ _ _ _ Hinv Hb Hnn) as [Hsize _].
  apply (balloc_more _ (fuel `max` S (length rows0))%nat) in Hb; [|lia].
  assert (Hfinish : ∀ st2 rows2,
            heap_inv st2 rows2 → coalesced rows2 = coalesced rows0 →
            ∀ fuel', (length rows2 < fuel')%nat →
              ∃ rc st3, coalesce fuel' st2 = Some (rc, st3) ∧
                        heap_rows st3 (coalesced rows0)).
  { intros st2 rows2 Hinv2 Heq fuel' Hfuel'.
    destruct (coalesce_inv st2 rows2 fuel' Hinv2 Hfuel')
      as (st3 & Hrun & Hinv3 & _).
    eexists _, st3. split; [done|]. rewrite <- Heq. by eapply heap_inv_rows. }
  destruct (balloc_inv_cases st rows0 size Hinv Hsize)
    as [(pre & r0 & post & Hfirst & Hrun)
       |[(Hnone & pre & r0 & post & Hbest & Hrun)|(_ & Hrun)]].
  - destruct (Hrun (fuel `max` S (length rows0))%nat ltac:(lia))
      as (st1' & Heq & Hinv1).
    rewrite Hb in Heq. injection Heq as -> ->.
    destruct Hfirst as (-> & [Hfree Hsz] & _).
    destruct (heap_inv_split _ _ _ _ Hinv) as (_ & _ & _ & _ & _ & _ & _ & _ & Hp3).
    rewrite Hfree in Hp3.
    unfold alloc_exact in Hinv1.
    destruct (bfree_release_inv _ _ _ _ Hinv1 eq_refl) as [Hfreed Hinv2].
    simpl in Hfreed, Hinv2. unfold release in Hinv2. simpl in Hinv2.
    rewrite (set_prev_back post Hp3) in Hinv2.
    replace (Row false (r_prev_used r0) (t_begin r0) (t_size r0)) with r0
      in Hinv2 by (destruct r0; simpl in *; by subst).
    eexists _, (pre ++ r0 :: post).
    split_and!; [exact Hfreed|by eapply heap_inv_rows|lia|lia|done|done|].
    by apply Hfinish.
  - destruct (Hrun (fuel `max` S (length rows0))%nat ltac:(lia))
      as (st1' & Heq & Hinv1).
    rewrite Hb in Heq. injection Heq as -> ->.
    destruct Hbest as (-> & [Hfree Hfit] & _).
    unfold alloc_split in Hinv1.
    destruct (bfree_release_inv _ _ _ _ Hinv1 eq_refl) as [Hfreed Hinv2].
    simpl in Hfreed, Hinv2. unfold release in Hinv2. simpl in Hinv2.
    assert (Hco : coalesced
              (pre ++ Row false (r_prev_used r0) (t_begin r0) (required size)
                   :: Row false false (t_begin r0 + required size)
                        (t_size r0 - required size) :: post)
            = coalesced (pre ++ r0 :: post)).
    { apply coalesced_cut; simpl; try done. lia. }
    eexists _, _.
    split_and!; [exact Hfreed|by eapply heap_inv_rows| | | |exact Hco|].
    + rewrite !length_app. simpl. lia.
    + rewrite !length_app. simpl. lia.
    + intros (r & Hin & Hex). by destruct (Hnone r Hin).
    + by apply Hfinish.
  - rewrite Hrun in Hb by lia. by injection Hb as <- _.
Qed.

Lemma alloc_release_roundtrip_witness :
  ∃ st2 rows2,
    bfree (after_balloc demo_heap 100) 8200 = (0, st2) ∧
    heap_rows st2 rows2 ∧
    (length [Row false true 8196 4088] ≤ length rows2
       ≤ S (length [Row false true 8196 4088]))%nat ∧
    ((∃ r, r ∈ [Row false true 8196 4088] ∧ exact (required 100) r) →
     rows2 = [Row false true 8196 4088]) ∧
    coalesced rows2 = coalesced [Row false true 8196 4088] ∧
    ∀ fuel', (length rows2 < fuel')%nat →
      ∃ rc st3, coalesce fuel' st2 = Some (rc, st3) ∧
                heap_rows st3 (coalesced [Row false true 8196 4088]).
Proof.
  apply (alloc_release_roundtrip demo_heap [Row false true 8196 4088] 16 100
           8200 (after_balloc demo_heap 100)
           demo_heap_reachable demo_heap_rows).
  - vm_compute. reflexivity.
  - discriminate.
Defined.

(** X12.  What the return value of [coalesce] tells.  In a reachable state
    a call either returns 0 and leaves the state, and so the block list, as
    it is, or returns 1 and leaves a block list with fewer blocks. *)
Theorem coalesce_result st rows :
  reachable st → heap_rows st rows →
  ∀ fuel, (length rows < fuel)%nat →
    (coalesce fuel st = Some (0, st) ∧ coalesced rows = rows)
    ∨ (∃ st', coalesce fuel st = Some (1, st') ∧
         heap_rows st' (coalesced rows) ∧
         (length (coalesced rows) < length rows)%nat).
Proof.
  intros Hreach Hrows fuel Hfuel.
  destruct (reachable_inv st Hreach) as [rows' Hinv].
  rewrite (heap_inv_unique _ _ _ Hinv Hrows) in *. clear rows Hrows.
  destruct (has_merge rows') eqn:Em.
  - right.
    destruct (coalesce_inv st rows' fuel Hinv Hfuel) as (st' & Hrun & Hinv' & _).
    rewrite Em in Hrun. exists st'. split_and!; [done|by eapply heap_inv_rows|].
    by apply (coalesced_length (length rows')).
  - left. split; [|by apply no_merge_coalesced].
    unfold coalesce.
    rewrite (coalesce_loop_fixed rows' fuel (mem st) (heap_start st)
               (heap_start st + alloc_size st) 0);
      try apply Hinv; try done.
    + by destruct st.
    + destruct (inv_size _ _ Hinv) as [[_ ?] _]. lia.
Qed.

Lemma coalesce_result_witness :
  (coalesce 8 released_heap = Some (0, released_heap) ∧
   coalesced released_rows = released_rows)
  ∨ (∃ st', coalesce 8 released_heap = Some (1, st') ∧
       heap_rows st' (coalesced released_rows) ∧
       (length (coalesced released_rows) < length released_rows)%nat).
Proof.
  apply (coalesce_result released_heap released_rows
           released_heap_reachable released_heap_rows 8%nat).
  simpl. lia.
Defined.

(** X13.  Coalescing makes room.  When the free blocks of one run add up to
    at least the block size a request requires, then after [coalesce] the
    request is served: [balloc] returns a payload address. *)
Theorem coalesce_makes_room st rows size g :
  reachable st → heap_rows st rows → 0 < size ≤ alloc_size st →
  g ∈ runs rows → Forall (fun r => r_used r = false) g →
  required size ≤ total_size g →
  ∀ fuel fuel', (length rows < fuel)%nat → (length rows < fuel')%nat →
    ∃ rc st1 ptr st2,
      coalesce fuel st = Some (rc, st1) ∧
      balloc fuel' st1 size = Some (ptr, st2) ∧ ptr ≠ NULL.
Proof.
  intros Hreach Hrows Hsize Hg Hfree Hroom fuel fuel' Hfuel Hfuel'.
  destruct (reachable_inv st Hreach) as [rows' Hinv].
  rewrite (heap_inv_unique _ _ _ Hinv Hrows) in *. clear rows Hrows.
  destruct (coalesce_inv st rows' fuel Hinv Hfuel) as (st1 & Hrun & Hinv1 & _).
  destruct (coalesce_globals _ _ _ _ Hrun) as (_ & Ha & _).
  destruct (coalesced_length (length rows') rows' ltac:(lia)) as [Hlen _].
  assert (Hfit : ∃ r, r ∈ coalesced rows' ∧ fits (required size) r).
  { exists (merged g). split; [by apply list_elem_of_fmap_2|].
    destruct g as [|a t].
    - pose proof (runs_nonempty rows') as Hne.
      rewrite Forall_forall in Hne. by destruct (Hne [] Hg).
    - apply Forall_cons in Hfree as [Ha0 _]. by split. }
  destruct (inv_start _ _ Hinv1) as [Hpos _].
  assert (Hpayload : ∀ r, r ∈ coalesced rows' → t_begin r + 4 ≠ NULL).
  { intros r Hin.
    destruct (chain_begin_range _ _ _ _ _ (inv_chain _ _ Hinv1) Hin)
      as (Hlo & _). unfold NULL. lia. }
  destruct (balloc_inv_cases st1 (coalesced rows') size Hinv1 ltac:(lia))
    as [(pre & r & post & Hfirst & Hb)
       |[(_ & pre & r & post & Hbest & Hb)|(Hnone & _)]].
  - destruct (Hb fuel' ltac:(lia)) as (st2 & Hb2 & _).
    eexists _, st1, _, st2. split_and!; [done|done|].
    apply Hpayload. destruct Hfirst as (-> & _).
    apply elem_of_app. right. apply list_elem_of_here.
  - destruct (Hb fuel' ltac:(lia)) as (st2 & Hb2 & _).
    eexists _, st1, _, st2. split_and!; [done|done|].
    apply Hpayload. destruct Hbest as (-> & _).
    apply elem_of_app. right. apply list_elem_of_here.
  - destruct Hfit as (r & Hin & Hfit). by destruct (Hnone r Hin).
Qed.

Lemma coalesce_makes_room_witness :
  ∃ rc st1 ptr st2,
    coalesce 8 released_heap = Some (rc, st1) ∧
    balloc 8 st1 60 = Some (ptr, st2) ∧ ptr ≠ NULL.
Proof.
  apply (coalesce_makes_room released_heap released_rows 60
           [Row false true 8196 16; Row false false 8212 24;
            Row false false 8236 32]
           released_heap_reachable released_heap_rows).
  - vm_compute. split; [reflexivity|discriminate].
  - apply list_elem_of_here.
  - repeat constructor.
  - vm_compute. discriminate.
  - simpl. lia.
  - simpl. lia.
Defined.

(** ** Allocation without release *)

Lemma sole_free_block (used : list row) t pre r post :
  used ++ [t] = pre ++ r :: post →
  Forall (fun r => r_used r = true) used → r_used r = false →
  pre = used ∧ r = t ∧ post = [].
Proof.
  revert pre. induction used as [|u used IH]; intros pre Heq Hused Hfree.
  - destruct pre as [|x pre]; simpl in Heq.
    + by injection Heq as <- <-.
    + injection Heq as _ Heq. by destruct pre.
  - apply Forall_cons in Hused as [Hu Hused].
    destruct pre as [|x pre]; simpl in Heq.
    + injection Heq as <- _. congruence.
    + injection Heq as <- Heq.
      by destruct (IH pre Heq Hused Hfree) as (-> & -> & ->).
Qed.

Lemma required_total_min sizes :
  Forall (fun size => 0 < size) sizes →
  0 ≤ required_total sizes ∧ (sizes ≠ [] → 8 ≤ required_total sizes).
Proof.
  induction 1 as [|size sizes Hsize _ [IH _]]; simpl; [done|].
  pose proof (required_min size Hsize). split; [lia|]. intros _. lia.
Qed.

Lemma payloads_not_null a sizes :
  0 < a → Forall (fun size => 0 < size) sizes →
  Forall (fun p => p ≠ NULL) (payloads a sizes).
Proof.
  intros Ha Hpos. revert a Ha.
  induction Hpos as [|size sizes Hsize _ IH]; intros a Ha; simpl; [done|].
  pose proof (required_min size Hsize).
  constructor; [unfold NULL; lia|]. apply IH. lia.
Qed.

Lemma balloc_all_bump {closed} sizes :
  ∀ st used a n fuel,
    heap_inv_at closed st (used ++ [Row false true a n]) →
    Forall (fun r => r_used r = true) used →
    Forall (fun size => 0 < size) sizes →
    required_total sizes ≤ n →
    (length used + length sizes + 1 < fuel)%nat →
    ∃ st', balloc_all fuel st sizes = Some (payloads a sizes, st') ∧
           heap_inv_at closed st' (used ++ carved a sizes ++
                         rest_block (a + required_total sizes)
                                    (n - required_total sizes)).
Proof.
  induction sizes as [|size sizes IH];
    intros st used a n fuel Hinv Hused Hpos Hroom Hfuel.
  - exists st. split; [done|]. simpl.
    destruct (heap_inv_split _ _ _ _ Hinv) as (_ & _ & [[Hn _] _] & _).
    simpl in Hn. unfold rest_block. rewrite Z.add_0_r, Z.sub_0_r.
    by destruct (Z.eqb_spec n 0); [lia|].
  - apply Forall_cons in Hpos as [Hsize Hpos].
    destruct (required_total_min sizes Hpos) as [Hge Hne].
    cbn [required_total foldr] in Hroom. fold (required_total sizes) in Hroom.
    cbn [required_total foldr]. fold (required_total sizes).
    destruct (required_bounds size) as [_ [Hlo _]].
    destruct (heap_inv_split _ _ _ _ Hinv)
      as (_ & _ & _ & _ & Hstart & Hend & _).
    simpl in Hstart, Hend.
    assert (Hlen : length (used ++ [Row false true a n]) = S (length used))
      by (rewrite length_app; simpl; lia).
    simpl in Hfuel.
    destruct (balloc_inv_cases st _ size Hinv ltac:(lia))
      as [(pre & r & post & (Heq & [Hfree Hsz] & _) & Hrun)
         |[(Hnone & pre & r & post & (Heq & [Hfree Hfit] & _) & Hrun)
          |(Hnone & _)]].
    + destruct (sole_free_block _ _ _ _ _ Heq Hused Hfree) as (-> & -> & ->).
      simpl in Hsz.
      destruct (Hrun fuel ltac:(lia)) as (st1 & Hb & Hinv1).
      destruct sizes as [|s sizes]; [|specialize (Hne ltac:(done)); lia].
      exists st1. cbn [balloc_all payloads carved]. rewrite Hb.
      split; [done|].
      unfold alloc_exact in Hinv1. simpl in Hinv1. simpl.
      unfold rest_block. rewrite <- Hsz.
      replace (n - (n + 0) =? 0) with true by (symmetry; apply Z.eqb_eq; lia).
      done.
    + destruct (sole_free_block _ _ _ _ _ Heq Hused Hfree) as (-> & -> & ->).
      simpl in Hfit.
      assert (Hlt : required size < n).
      { destruct (Z.eq_dec n (required size)) as [E|E]; [|lia].
        exfalso. apply (Hnone (Row false true a n));
          [apply elem_of_app; right; apply list_elem_of_here|done]. }
      destruct (Hrun fuel ltac:(lia)) as (st1 & Hb & Hinv1).
      unfold alloc_split in Hinv1. simpl in Hinv1.
      destruct (IH st1 (used ++ [Row true true a (required size)])
                  (a + required size) (n - required size) fuel)
        as (st2 & Hall & Hinv2).
      * by rewrite <- app_assoc.
      * apply Forall_app. split; [done|]. by repeat constructor.
      * done.
      * lia.
      * rewrite length_app. simpl. lia.
      * exists st2. cbn [balloc_all payloads carved]. rewrite Hb, Hall.
        split; [done|].
        rewrite <- app_assoc in Hinv2. simpl in Hinv2.
        replace (a + (required size + required_total sizes))
          with (a + required size + required_total sizes) by lia.
        replace (n - (required size + required_total sizes))
          with (n - required size - required_total sizes) by lia.
        done.
    + exfalso. apply (Hnone (Row false true a n)).
      * apply elem_of_app. right. apply list_elem_of_here.
      * split; [done|]. simpl. lia.
Qed.

(** X14.  Allocation without release is sequential.  In a reachable state
    whose block list is blocks in use followed by one free block of [n]
    bytes at [a], a sequence of [balloc] calls for positive sizes whose
    required block sizes add up to at most [n] succeeds call by call: the
    addresses returned are those of blocks laid out back to back from [a]
    on, in the order of the calls, and the block list afterwards is the old
    blocks in use, the new ones, and the free rest if any is left. *)
Theorem balloc_sequence st used a n sizes fuel :
  reachable st → heap_rows st (used ++ [Row false true a n]) →
  Forall (fun r => r_used r = true) used →
  Forall (fun size => 0 < size) sizes →
  required_total sizes ≤ n →
  (length used + length sizes + 1 < fuel)%nat →
  ∃ st', balloc_all fuel st sizes = Some (payloads a sizes, st') ∧
         Forall (fun p => p ≠ NULL ∧ p mod 8 = 0) (payloads a sizes) ∧
         heap_rows st' (used ++ carved a sizes ++
                        rest_block (a + required_total sizes)
                                   (n - required_total sizes)).
Proof.
  intros Hreach Hrows Hused Hpos Hroom Hfuel.
  destruct (reachable_inv st Hreach) as [rows Hinv].
  rewrite <- (heap_inv_unique _ _ _ Hinv Hrows) in Hinv. clear rows Hrows.
  destruct (balloc_all_bump sizes st used a n fuel Hinv Hused Hpos Hroom Hfuel)
    as (st' & Hall & Hinv').
  exists st'. split_and!; [done| |by eapply heap_inv_rows].
  destruct (heap_inv_split _ _ _ _ Hinv)
    as (_ & _ & _ & _ & Hstart & _).
  simpl in Hstart.
  assert (Hmod : a mod 8 = 4).
  { pose proof (chain_begin_mod _ _ _ _ (Row false true a n)
                  (inv_chain _ _ Hinv)) as Hm.
    simpl in Hm. destruct (inv_start _ _ Hinv) as [_ Hs].
    rewrite <- (Z.sub_add (heap_start st) a).
    rewrite Z.add_mod, Hm, Hs; [reflexivity| |lia].
    apply elem_of_app. right. apply list_elem_of_here. }
  destruct (inv_start _ _ Hinv) as [Hs0 _].
  assert (Ha : 0 < a) by lia.
  clear - Hmod Ha Hpos. revert a Hmod Ha.
  induction Hpos as [|size sizes Hsize _ IH]; intros a Hmod Ha; simpl; [done|].
  pose proof (required_min size Hsize).
  destruct (required_bounds size) as [Hr8 _].
  constructor.
  - split; [unfold NULL; lia|].
    rewrite Z.add_mod, Hmod by lia. reflexivity.
  - apply IH; [|lia]. rewrite Z.add_mod, Hmod, Hr8 by lia. reflexivity.
Qed.

Lemma balloc_sequence_witness :
  ∃ st', balloc_all 8 demo_heap [100; 1; 30]
         = Some (payloads 8196 [100; 1; 30], st') ∧
         Forall (fun p => p ≠ NULL ∧ p mod 8 = 0) (payloads 8196 [100; 1; 30]) ∧
         heap_rows st' ([] ++ carved 8196 [100; 1; 30] ++
                        rest_block (8196 + required_total [100; 1; 30])
                                   (4088 - required_total [100; 1; 30])).
Proof.
  apply (balloc_sequence demo_heap [] 8196 4088 [100; 1; 30] 8
           demo_heap_reachable demo_heap_rows).
  - constructor.
  - repeat constructor.
  - vm_compute. discriminate.
  - simpl. lia.
Defined.

(** ** The test program *)

Lemma init_heap_first env sizeOfRegion :
  env_ok env sizeOfRegion →
  ∃ p st, mmap_result env = Some p ∧
    init_heap env initial_heap sizeOfRegion = (0, st) ∧
    heap_start st = p + 4 ∧ sizeOfRegion - 8 ≤ alloc_size st.
Proof.
  intros Henv.
  pose proof Henv as (Hps & Hps8 & Hopen & (p & Hmap & _) & Hsz & Hfit).
  destruct (padded_region (pagesize env) sizeOfRegion Hps Hps8 Hsz Hfit)
    as (Hpb & Hp8 & Hpr & Hpm).
  cbv zeta in Hpb, Hp8, Hpr, Hpm.
  set (padded := add sizeOfRegion
         (crem (sub (pagesize env) (crem sizeOfRegion (pagesize env)))
               (pagesize env))) in *.
  assert (Hsub : sub padded 8 = padded - 8)
    by (unfold sub; rewrite wrap_small; lia).
  exists p. unfold init_heap. simpl.
  destruct (sizeOfRegion <=? 0) eqn:E; [lia|].
  rewrite Hopen, Hmap. simpl. fold padded. eexists. split_and!; try done.
  simpl. lia.
Qed.

Lemma main_loop_all k :
  ∀ steps fuel st i ptrs st',
    0 < i → i + Z.of_nat k = 50 → (k < steps)%nat →
    balloc_all fuel st (seqZ i (Z.of_nat k)) = Some (ptrs, st') →
    Forall (fun p => p ≠ NULL) ptrs →
    main_loop steps fuel st i = Some st'.
Proof.
  induction k as [|k IH]; intros steps fuel st i ptrs st' Hi Hk Hsteps Hall Hnn.
  - destruct steps as [|steps]; [lia|]. cbn [main_loop].
    destruct (Z.ltb_spec i 50); [lia|].
    simpl in Hall. by injection Hall as _ <-.
  - destruct steps as [|steps]; [lia|].
    rewrite seqZ_cons in Hall by lia.
    cbn [main_loop balloc_all] in *.
    destruct (Z.ltb_spec i 50); [|lia].
    destruct (balloc fuel st i) as [[ptr st1]|]; [|done].
    destruct (balloc_all fuel st1 (seqZ (Z.succ i) (Z.pred (Z.of_nat (S k)))))
      as [[ptrs1 st2]|] eqn:Hall1; [|done].
    injection Hall as <- <-. apply Forall_cons in Hnn as [Hp Hnn].
    destruct (Z.eqb_spec ptr NULL); [done|].
    replace (add i 1) with (Z.succ i) by (unfold add; rewrite wrap_small; lia).
    replace (Z.pred (Z.of_nat (S k))) with (Z.of_nat k) in Hall1 by lia.
    apply (IH steps fuel st1 (Z.succ i) ptrs1 st2); [lia|lia|lia|done|done].
Qed.

(** X15.  The test program.  With a usable environment the assertion of
    [main] holds, none of the 49 calls of [balloc] returns [NULL], so that
    the loop runs to its end, and the program exits.  The first table is
    one free block that spans the region, of at least 4088 bytes; the second
    is 49 blocks in use, for the payload sizes 1 to 49 in this order and
    back to back from the start of the region, followed by one free block
    for the remaining bytes, 1592 fewer than before. *)
Theorem main_exits env steps fuel :
  env_ok env 4096 → (49 < steps)%nat → (50 < fuel)%nat →
  ∃ p n, mmap_result env = Some p ∧ 4088 ≤ n ∧
    main steps fuel env
    = Some (Exited [Row false true (p + 4) n]
              (carved (p + 4) (seqZ 1 49)
               ++ [Row false true (p + 4 + 1592) (n - 1592)])).
Proof.
  intros Henv Hsteps Hfuel.
  destruct (init_heap_first env 4096 Henv) as (p & st & Hmap & Hinit & Hs & Ha).
  pose proof (init_heap_inv env 4096 st Henv Hinit) as Hinv.
  exists p, (alloc_size st). split_and!; [done|lia|].
  unfold main. rewrite Hinit. cbn [Z.eqb negb].
  rewrite (disp_heap_rows_chain fuel _ _ _ _ (inv_chain _ _ Hinv)
             (inv_end _ _ Hinv)) by (simpl; lia).
  assert (Hpos : Forall (fun size => 0 < size) (seqZ 1 49)).
  { apply Forall_forall. intros x Hx. apply elem_of_seqZ in Hx. lia. }
  assert (Htot : required_total (seqZ 1 49) = 1592) by (vm_compute; reflexivity).
  assert (Hlen : length (seqZ 1 49) = 49%nat) by reflexivity.
  destruct (balloc_all_bump (seqZ 1 49) st [] (heap_start st) (alloc_size st)
              fuel Hinv ltac:(done) Hpos ltac:(lia))
    as (st' & Hall & Hinv').
  { rewrite Hlen. simpl. lia. }
  rewrite (main_loop_all 49 steps fuel st 1 _ st' ltac:(lia) ltac:(lia)
             ltac:(lia) Hall).
  2: { apply payloads_not_null; [|done]. destruct (inv_start _ _ Hinv). lia. }
  rewrite Htot in Hinv'. unfold rest_block in Hinv'.
  destruct (Z.eqb_spec (alloc_size st - 1592) 0); [lia|].
  cbn [app] in Hinv'.
  rewrite (disp_heap_rows_chain fuel _ _ _ _ (inv_chain _ _ Hinv')
             (inv_end _ _ Hinv')).
  - by rewrite Hs.
  - rewrite length_app. simpl.
    assert (length (carved (heap_start st) (seqZ 1 49)) = 49%nat); [|lia].
    generalize (heap_start st). generalize (seqZ 1 49), Hlen.
    intros l Hl. rewrite <- Hl. clear.
    induction l as [|x l IH]; intros a; simpl; [done|]. by rewrite IH.
Qed.

Lemma main_exits_witness :
  ∃ p n, mmap_result demo_env = Some p ∧ 4088 ≤ n ∧
    main 50 51 demo_env
    = Some (Exited [Row false true (p + 4) n]
              (carved (p + 4) (seqZ 1 49)
               ++ [Row false true (p + 4 + 1592) (n - 1592)])).
Proof.
  apply (main_exits demo_env 50 51).
  - unfold env_ok, demo_env. simpl. split_and!; try lia; try reflexivity.
    exists 8192. split_and!; [reflexivity|lia|reflexivity].
  - lia.
  - lia.
Defined.

(** ** The totals of the table *)

Lemma totals_plain m a rows e :
  chain m a rows e → e - a ≤ max_capacity →
  0 ≤ used_total rows ∧ 0 ≤ free_total rows ∧
  used_total rows + free_total rows = total_size rows ∧
  used_size rows = used_total rows ∧ free_size rows = free_total rows.
Proof.
  revert a. induction rows as [|r rows IH]; simpl; intros a Hc Hcap; [lia|].
  destruct Hc as (_ & _ & [[Hlo Hhi] _] & Hc).
  pose proof (chain_total _ _ _ _ Hc) as Htot.
  destruct (IH _ Hc ltac:(lia)) as (Hu & Hf & Hsum & -> & ->).
  unfold add, max_capacity in *.
  destruct (r_used r); rewrite ?wrap_small; lia.
Qed.

Lemma heap_inv_totals {closed} st rows :
  heap_inv_at closed st rows →
  used_size rows = used_total rows ∧ free_size rows = free_total rows.
Proof.
  intros Hinv.
  destruct (totals_plain _ _ _ _ (inv_chain _ _ Hinv)) as (_ & _ & _ & ? & ?);
    [|done].
  destruct (inv_size _ _ Hinv) as [[_ Hhi] _]. lia.
Qed.

Lemma used_total_app rows1 rows2 :
  used_total (rows1 ++ rows2) = used_total rows1 + used_total rows2.
Proof.
  induction rows1 as [|r rows1 IH]; simpl; [done|].
  destruct (r_used r); lia.
Qed.

Lemma free_total_app rows1 rows2 :
  free_total (rows1 ++ rows2) = free_total rows1 + free_total rows2.
Proof.
  induction rows1 as [|r rows1 IH]; simpl; [done|].
  destruct (r_used r); lia.
Qed.

Lemma totals_set_prev p rows :
  used_total (set_prev p rows) = used_total rows ∧
  free_total (set_prev p rows) = free_total rows.
Proof. by destruct rows. Qed.

Lemma free_run_totals rows :
  used_total (free_run rows) = 0 ∧
  free_total (free_run rows) = total_size (free_run rows).
Proof.
  induction rows as [|r rows [IHu IHf]]; simpl; [done|].
  destruct (r_used r) eqn:Eu; simpl; [done|]. rewrite Eu. lia.
Qed.

Lemma totals_coalesced n :
  ∀ rows, (length rows ≤ n)%nat →
    used_total (coalesced rows) = used_total rows ∧
    free_total (coalesced rows) = free_total rows.
Proof.
  induction n as [|n IH]; intros rows Hn.
  { destruct rows; [done|simpl in Hn; lia]. }
  destruct rows as [|r rows]; [done|]. simpl in Hn.
  destruct (r_used r) eqn:Eu.
  - rewrite (coalesced_used r rows Eu). simpl. rewrite Eu.
    destruct (IH rows ltac:(lia)) as [-> ->]. done.
  - rewrite (coalesced_free r rows Eu). simpl. rewrite Eu.
    pose proof (past_run_length rows) as Hpl.
    destruct (IH (past_run rows) ltac:(lia)) as [-> ->].
    destruct (free_run_totals rows) as [Hu Hf].
    pose proof (f_equal used_total (free_past_run rows)) as Hus.
    pose proof (f_equal free_total (free_past_run rows)) as Hfs.
    rewrite used_total_app in Hus. rewrite free_total_app in Hfs. lia.
Qed.

(** X16.  How the totals of the table move.  Whatever the payloads hold,
    the totals that [disp_heap] reports change as follows: a successful
    [balloc(size)] moves the required block size from the free total to the
    used total; [bfree] of the payload address of a block in use returns 0
    and moves the size of that block back; [coalesce] changes neither. *)
Theorem totals_after_calls st rows :
  disciplined st → heap_rows st rows →
  (∀ fuel size ptr st' rows',
      balloc fuel st size = Some (ptr, st') → ptr ≠ NULL →
      heap_rows st' rows' →
      used_size rows' = used_size rows + required size ∧
      free_size rows' = free_size rows - required size) ∧
  (∀ r, r ∈ rows → r_used r = true →
      ∃ st' rows',
        bfree st (t_begin r + 4) = (0, st') ∧ heap_rows st' rows' ∧
        used_size rows' = used_size rows - t_size r ∧
        free_size rows' = free_size rows + t_size r) ∧
  (∀ fuel rc st' rows',
      coalesce fuel st = Some (rc, st') → heap_rows st' rows' →
      used_size rows' = used_size rows ∧ free_size rows' = free_size rows).
Proof.
  intros Hst Hrows.
  destruct (disciplined_inv st Hst) as [rows0 Hinv].
  rewrite (heap_inv_unique _ _ _ Hinv Hrows) in *. clear rows Hrows.
  destruct (heap_inv_totals _ _ Hinv) as [Hu0 Hf0]. rewrite Hu0, Hf0.
  split_and!.
  - intros fuel size ptr st' rows' Hb Hnn Hrows'.
    destruct (balloc_success_fits _ _ _ _ _ _ Hinv Hb Hnn) as [Hsize _].
    apply (balloc_more _ (fuel `max` S (length rows0))%nat) in Hb; [|lia].
    destruct (balloc_inv_cases st rows0 size Hinv Hsize)
      as [(pre & r0 & post & (-> & [Hfree Hsz] & _) & Hrun)
         |[(_ & pre & r0 & post & (-> & [Hfree Hfit] & _) & Hrun)|(_ & Hrun)]].
    + destruct (Hrun (fuel `max` S (length (pre ++ r0 :: post)))%nat ltac:(lia))
        as (st1 & Heq & Hinv1).
      rewrite Hb in Heq. injection Heq as _ <-.
      rewrite (heap_inv_unique _ _ _ Hinv1 Hrows').
      destruct (heap_inv_totals _ _ Hinv1) as [-> ->].
      unfold alloc_exact. rewrite !used_total_app, !free_total_app.
      destruct (totals_set_prev true post) as [Hup Hfp].
      cbn [used_total free_total foldr r_used t_size].
      fold (used_total (set_prev true post)) (free_total (set_prev true post))
           (used_total post) (free_total post).
      rewrite Hup, Hfp, Hfree. lia.
    + destruct (Hrun (fuel `max` S (length (pre ++ r0 :: post)))%nat ltac:(lia))
        as (st1 & Heq & Hinv1).
      rewrite Hb in Heq. injection Heq as _ <-.
      rewrite (heap_inv_unique _ _ _ Hinv1 Hrows').
      destruct (heap_inv_totals _ _ Hinv1) as [-> ->].
      unfold alloc_split. rewrite !used_total_app, !free_total_app.
      cbn [used_total free_total foldr r_used t_size].
      fold (used_total post) (free_total post).
      rewrite Hfree. lia.
    + rewrite Hrun in Hb by lia. by injection Hb as <- _.
  - intros r Hin Hused.
    apply list_elem_of_split in Hin as (pre & post & ->).
    destruct (bfree_release_inv _ _ _ _ Hinv Hused) as [Heq Hinv1].
    eexists _, _. split_and!; [exact Heq|by eapply heap_inv_rows| |].
    + destruct (heap_inv_totals _ _ Hinv1) as [-> _].
      unfold release. rewrite !used_total_app.
      destruct (totals_set_prev false post) as [Hup _].
      cbn [used_total foldr r_used t_size].
      fold (used_total (set_prev false post)) (used_total post).
      rewrite Hup, Hused. lia.
    + destruct (heap_inv_totals _ _ Hinv1) as [_ ->].
      unfold release. rewrite !free_total_app.
      destruct (totals_set_prev false post) as [_ Hfp].
      cbn [free_total foldr r_used t_size].
      fold (free_total (set_prev false post)) (free_total post).
      rewrite Hfp, Hused. lia.
  - intros fuel rc st' rows' Hc Hrows'.
    apply (coalesce_more _ (fuel `max` S (length rows0))%nat) in Hc; [|lia].
    destruct (coalesce_inv st rows0 (fuel `max` S (length rows0))%nat Hinv
                ltac:(lia)) as (st1 & Heq & Hinv1 & _).
    rewrite Hc in Heq. injection Heq as _ <-.
    rewrite (heap_inv_unique _ _ _ Hinv1 Hrows').
    destruct (heap_inv_totals _ _ Hinv1) as [-> ->].
    by destruct (totals_coalesced (length rows0) rows0 ltac:(lia)) as [-> ->].
Qed.

Lemma totals_after_calls_witness :
  (∀ fuel size ptr st' rows',
      balloc fuel poked_heap size = Some (ptr, st') → ptr ≠ NULL →
      heap_rows st' rows' →
      used_size rows' = used_size poked_rows + required size ∧
      free_size rows' = free_size poked_rows - required size) ∧
  (∀ r, r ∈ poked_rows → r_used r = true →
      ∃ st' rows',
        bfree poked_heap (t_begin r + 4) = (0, st') ∧ heap_rows st' rows' ∧
        used_size rows' = used_size poked_rows - t_size r ∧
        free_size rows' = free_size poked_rows + t_size r) ∧
  (∀ fuel rc st' rows',
      coalesce fuel poked_heap = Some (rc, st') → heap_rows st' rows' →
      used_size rows' = used_size poked_rows ∧
      free_size rows' = free_size poked_rows).
Proof.
  exact (totals_after_calls poked_heap poked_rows
           poked_heap_disciplined poked_heap_rows).
Defined.

(** ** The length of the block list *)

Lemma chain_length m a rows e :
  chain m a rows e → 8 * Z.of_nat (length rows) ≤ e - a.
Proof.
  revert a. induction rows as [|r rows IH]; intros a Hc.
  - simpl in *. lia.
  - destruct Hc as (_ & _ & [[Hlo _] _] & Hc). specialize (IH _ Hc).
    cbn [length]. lia.
Qed.

(** X17.  Every loop over the block list ends within [alloc_size / 8]
    blocks.  In a reachable state the block list is not empty and has at
    most [alloc_size / 8] blocks, each of at least 8 bytes; with more
    iterations than that, the walk of [disp_heap] reaches the end mark,
    [balloc] returns for every size, and [coalesce] returns. *)
Theorem loops_bounded st rows fuel :
  reachable st → heap_rows st rows →
  (Z.to_nat (alloc_size st / 8) < fuel)%nat →
  rows ≠ [] ∧ Z.of_nat (length rows) ≤ alloc_size st / 8 ∧
  Forall (fun r => 8 ≤ t_size r) rows ∧
  disp_heap_rows fuel (mem st) (heap_start st) = Some rows ∧
  (∀ size, ∃ ptr st', balloc fuel st size = Some (ptr, st')) ∧
  (∃ rc st', coalesce fuel st = Some (rc, st')).
Proof.
  intros Hreach Hrows Hfuel.
  destruct (reachable_inv st Hreach) as [rows0 Hinv].
  rewrite (heap_inv_unique _ _ _ Hinv Hrows) in *. clear rows Hrows.
  pose proof (chain_length _ _ _ _ (inv_chain _ _ Hinv)) as Hlen.
  destruct (inv_size _ _ Hinv) as [[Hlo _] _].
  assert (Hdiv : Z.of_nat (length rows0) ≤ alloc_size st / 8).
  { apply Z.div_le_lower_bound; lia. }
  assert (Hfuel' : (length rows0 < fuel)%nat) by lia.
  split_and!.
  - intros ->. pose proof (inv_chain _ _ Hinv) as Hc. simpl in Hc. lia.
  - done.
  - apply Forall_forall. intros r Hin.
    destruct (chain_begin_range _ _ _ _ _ (inv_chain _ _ Hinv) Hin)
      as (_ & _ & [[? _] _] & _). done.
  - by apply (disp_heap_rows_chain fuel _ _ _ _ (inv_chain _ _ Hinv)
                (inv_end _ _ Hinv)).
  - intros size.
    destruct (decide (0 < size ≤ alloc_size st)) as [Hsize|Hsize].
    + destruct (balloc_inv_cases st rows0 size Hinv Hsize)
        as [(pre & r0 & post & _ & Hrun)
           |[(_ & pre & r0 & post & _ & Hrun)|(_ & Hrun)]].
      * destruct (Hrun fuel Hfuel') as (st' & Hb & _). by eexists _, _.
      * destruct (Hrun fuel Hfuel') as (st' & Hb & _). by eexists _, _.
      * eexists _, _. by apply Hrun.
    + exists NULL, st. unfold balloc.
      destruct (Z.leb_spec size 0); [done|].
      destruct (Z.gtb_spec size (alloc_size st)); [done|lia].
  - destruct (coalesce_inv st rows0 fuel Hinv Hfuel') as (st' & Hc & _).
    by eexists _, _.
Qed.

Lemma loops_bounded_witness :
  released_rows ≠ [] ∧
  Z.of_nat (length released_rows) ≤ alloc_size released_heap / 8 ∧
  Forall (fun r => 8 ≤ t_size r) released_rows ∧
  disp_heap_rows 512 (mem released_heap) (heap_start released_heap)
  = Some released_rows ∧
  (∀ size, ∃ ptr st', balloc 512 released_heap size = Some (ptr, st')) ∧
  (∃ rc st', coalesce 512 released_heap = Some (rc, st')).
Proof.
  apply (loops_bounded released_heap released_rows 512
           released_heap_reachable released_heap_rows).
  vm_compute. lia.
Defined.

(** ** A heap with nothing in use *)

Lemma all_free_run rows :
  Forall (fun r => r_used r = false) rows →
  free_run rows = rows ∧ past_run rows = [].
Proof.
  induction 1 as [|r rows Hfree _ [IHf IHp]]; simpl; [done|].
  rewrite Hfree. by rewrite IHf, IHp.
Qed.

Lemma all_free_has_merge r rows :
  Forall (fun r => r_used r = false) (r :: rows) →
  has_merge (r :: rows) = match rows with [] => false | _ => true end.
Proof.
  intros Hall. apply Forall_cons in Hall as [Hfree Hall].
  rewrite (has_merge_free r rows Hfree).
  destruct (all_free_run rows Hall) as [-> ->].
  by destruct rows.
Qed.

(** X18.  Coalescing a heap with nothing in use.  When every block of a
    reachable state is free, [coalesce] leaves one free block that spans the
    region, as [init_heap] did, and returns 1 exactly when there was more
    than one block.  Every request of at most [alloc_size - 4] bytes is then
    served at the first payload address of the region. *)
Theorem coalesce_all_free st rows fuel :
  reachable st → heap_rows st rows →
  Forall (fun r => r_used r = false) rows → (length rows < fuel)%nat →
  ∃ rc st',
    coalesce fuel st = Some (rc, st') ∧
    heap_rows st' [Row false true (heap_start st) (alloc_size st)] ∧
    (rc = 1 ↔ (1 < length rows)%nat) ∧
    ∀ size, 0 < size ≤ alloc_size st - 4 →
      ∃ st'', balloc fuel st' size = Some (heap_start st + 4, st'').
Proof.
  intros Hreach Hrows Hall Hfuel.
  destruct (reachable_inv st Hreach) as [rows0 Hinv].
  rewrite (heap_inv_unique _ _ _ Hinv Hrows) in *. clear rows Hrows.
  destruct (coalesce_inv st rows0 fuel Hinv Hfuel) as (st' & Hc & Hinv' & _).
  destruct (coalesce_globals _ _ _ _ Hc) as (Hs & Ha & _).
  destruct rows0 as [|r rows0].
  { pose proof (inv_chain _ _ Hinv) as Hch. simpl in Hch.
    destruct (inv_size _ _ Hinv) as [[? _] _]. lia. }
  pose proof Hall as Hall'. apply Forall_cons in Hall' as [Hfree Hrest].
  destruct (all_free_run rows0 Hrest) as [Hfr Hpr].
  rewrite (coalesced_free r rows0 Hfree), Hfr, Hpr in Hinv'.
  change (coalesced []) with (@nil row) in Hinv'.
  destruct (inv_chain _ _ Hinv) as (Hb & _).
  destruct (inv_pbits _ _ Hinv) as [Hp _].
  pose proof (heap_inv_total _ _ Hinv) as Htot. simpl in Htot.
  rewrite Hb, Hp, Htot in Hinv'.
  rewrite (all_free_has_merge r rows0 Hall) in Hc.
  eexists _, st'. split_and!; [exact Hc|by eapply heap_inv_rows| |].
  - destruct rows0; simpl; split; intros; try done; lia.
  - intros size Hsize.
    destruct (inv_size _ _ Hinv) as [_ Ha8].
    assert (Hreq : required size ≤ alloc_size st).
    { pose proof (required_mono size (alloc_size st - 4) ltac:(lia)) as Hm.
      unfold required at 2 in Hm. unfold sizeof_blockHeader in Hm.
      replace (alloc_size st - 4 + 4) with (alloc_size st) in Hm by lia.
      by rewrite (round_up8_fixed _ Ha8) in Hm. }
    destruct (balloc_inv_cases st' _ size Hinv' ltac:(lia))
      as [(pre & r1 & post & (Heq & [Hfree1 _] & _) & Hrun)
         |[(_ & pre & r1 & post & (Heq & [Hfree1 _] & _) & Hrun)
          |(Hnone & _)]].
    + destruct (sole_free_block [] _ _ _ _ Heq ltac:(done) Hfree1)
        as (_ & -> & _).
      destruct (Hrun fuel ltac:(simpl in *; lia)) as (st'' & Hb' & _).
      by exists st''.
    + destruct (sole_free_block [] _ _ _ _ Heq ltac:(done) Hfree1)
        as (_ & -> & _).
      destruct (Hrun fuel ltac:(simpl in *; lia)) as (st'' & Hb' & _).
      by exists st''.
    + exfalso.
      apply (Hnone (Row false true (heap_start st) (alloc_size st)));
        [apply list_elem_of_here|by split].
Qed.

Lemma coalesce_all_free_witness :
  ∃ rc st',
    coalesce 8 fragmented_heap = Some (rc, st') ∧
    heap_rows st' [Row false true (heap_start fragmented_heap)
                     (alloc_size fragmented_heap)] ∧
    (rc = 1 ↔ (1 < length fragmented_rows)%nat) ∧
    ∀ size, 0 < size ≤ alloc_size fragmented_heap - 4 →
      ∃ st'', balloc 8 st' size
              = Some (heap_start fragmented_heap + 4, st'').
Proof.
  apply (coalesce_all_free fragmented_heap fragmented_rows 8
           fragmented_heap_reachable fragmented_heap_rows).
  - repeat constructor.
  - simpl. lia.
Defined.
